(** * retrievall: chunk/atom data model, chunk expressions, attribute
    expressions and chunk filters.

    A shallow embedding of [core.py], [filters.py], [exprs.py] and
    [chunkers.py].  PyArrow tables and Polars frames are rendered as a list
    of column names together with a list of rows; a row is a dictionary from
    column names to cell values.  Python exceptions are values of [error] and
    every fallible operation returns a [result]. *)

From Stdlib Require Import ZArith QArith String Ascii.
From stdpp Require Import gmap strings list sorting.

Local Open Scope string_scope.
Local Open Scope Z_scope.
Local Open Scope list_scope.

(** ** Cell values *)

(** [VFrac q] stands for a floating point cell; the only floats computed here
    are the quotients that Polars' [mean] produces on a boolean column, and
    they are kept exact. *)
#[warnings="-register-all"]
Inductive value :=
| VNull
| VBool (b : bool)
| VInt (z : Z)
| VFrac (q : Q)
| VStr (s : string)
| VList (l : list value).

Definition Q_eq_dec : ∀ a b : Q, {a = b} + {a ≠ b}.
Proof. decide equality; [apply Pos.eq_dec | apply Z.eq_dec]. Defined.

Definition value_eq_dec : ∀ a b : value, {a = b} + {a ≠ b}.
Proof.
  fix IH 1.
  decide equality;
    first [ apply Z.eq_dec | apply Q_eq_dec | apply String.eq_dec
          | apply bool_eq_dec | apply (@list_eq_dec _ IH) ].
Defined.

#[global] Instance value_eq_decision : EqDecision value := value_eq_dec.
#[global] Instance value_inhabited : Inhabited value := populate VNull.

(** ** Exceptions *)

Inductive error :=
| KeyError (msg : string)
| ValueError (msg : string)
| TypeError (msg : string)
| IndexError (msg : string)
| ArrowInvalid (msg : string)
| ArrowNotImplementedError (msg : string)
| ColumnNotFoundError (col : string)
| ComputeError (msg : string)
| InvalidOperationError (msg : string)
| DuplicateError (col : string)
| ReError (pattern : string).

Inductive result (A : Type) :=
| Ok (a : A)
| Err (e : error).
Arguments Ok {A} a.
Arguments Err {A} e.

#[global] Instance result_ret : MRet result := λ A a, Ok a.
#[global] Instance result_bind : MBind result :=
  λ A B f m, match m with Ok a => f a | Err e => Err e end.
#[global] Instance result_fmap : FMap result :=
  λ A B f m, match m with Ok a => Ok (f a) | Err e => Err e end.

Definition is_Ok {A} (m : result A) : Prop := ∃ a, m = Ok a.
Definition is_Err {A} (m : result A) : Prop := ∃ e, m = Err e.

Fixpoint foldM_result {A B} (f : B → A → result B) (b : B) (l : list A) : result B :=
  match l with
  | [] => Ok b
  | x :: l' => b' ← f b x; foldM_result f b' l'
  end.

(** Sequencing a list of fallible computations, left to right. *)
Fixpoint mapM_result {A B} (f : A → result B) (l : list A) : result (list B) :=
  match l with
  | [] => Ok []
  | x :: l' => y ← f x; ys ← mapM_result f l'; Ok (y :: ys)
  end.

(** ** Tables *)

Definition row := list (string * value).

Fixpoint get (n : string) (r : row) : value :=
  match r with
  | [] => VNull
  | (k, v) :: r' => if decide (k = n) then v else get n r'
  end.

Record Table := mkTable { names : list string; rows : list row }.

Definition has_column (n : string) (t : Table) : bool := bool_decide (n ∈ names t).

(** A row restricted to (and ordered as) a list of column names. *)
Definition project (ns : list string) (r : row) : row := (λ n, (n, get n r)) <$> ns.

Module pa.

(** [len(table)] *)
Definition len (t : Table) : nat := length (rows t).

(** [table[name]] / [table.column(name)] *)
Definition column (n : string) (t : Table) : result (list value) :=
  if has_column n t then Ok (get n <$> rows t) else Err (KeyError n).

(** [table.take(indices)] *)
Definition take (idxs : list nat) (t : Table) : result Table :=
  rs ← mapM_result
        (λ i, match rows t !! i with
              | Some r => Ok r
              | None => Err (IndexError "index out of bounds")
              end) idxs;
  Ok (mkTable (names t) rs).

(** [table.filter(mask)]: rows whose mask is null are dropped. *)
Fixpoint filter_rows (mask : list (option bool)) (rs : list row) : list row :=
  match mask, rs with
  | Some true :: mask', r :: rs' => r :: filter_rows mask' rs'
  | _ :: mask', _ :: rs' => filter_rows mask' rs'
  | _, _ => []
  end.

Definition filter (mask : list (option bool)) (t : Table) : Table :=
  mkTable (names t) (filter_rows mask (rows t)).

(** [table.select(names)] *)
Definition select (ns : list string) (t : Table) : result Table :=
  match list_find (λ n, n ∉ names t) ns with
  | Some (_, n) => Err (KeyError n)
  | None => Ok (mkTable ns (project ns <$> rows t))
  end.

(** [table.append_column(name, values)] *)
Definition append_column (n : string) (vs : list value) (t : Table) : result Table :=
  if decide (length vs = length (rows t)) then
    Ok (mkTable (names t ++ [n])
          (zip_with (λ r v, project (names t) r ++ [(n, v)]) (rows t) vs))
  else Err (ArrowInvalid "Added column's length must match table's length").

Section schemas.

(** Whether the columns of two tables with the same column names also have
    the same Arrow types.  A [Table] does not record the types of its
    columns, so this is left to the tables at hand. *)
Variable same_types : Table → Table → bool.

(** [pa.concat_tables(tables)] with the default [promote_options="none"]:
    all schemas must be equal, names and types. *)
Definition concat_tables (ts : list Table) : result Table :=
  match ts with
  | [] => Err (ArrowInvalid "Must pass at least one table")
  | t0 :: _ =>
      if forallb (λ t, bool_decide (names t = names t0) && same_types t t0) ts
      then Ok (mkTable (names t0) (ts ≫= rows))
      else Err (ArrowInvalid "Schema at index was different")
  end.

End schemas.

End pa.

(** ** core.py *)

(** A [Corpus] is a Python object; [Chunks] values hold a reference to it and
    the corpus' registry holds [Chunks] values, so the reference is a location
    in a store of corpora. *)
Definition loc := nat.

Record Chunks := mkChunks {
  corpus : loc;
  chunks : Table;
  chunk_atoms : Table
}.

Record Corpus := mkCorpus {
  atoms : Table;
  registry : gmap string Chunks   (* [self.chunks] *)
}.

Abbreviation heap := (gmap loc Corpus).

(** [Chunks.__len__] *)
Definition Chunks_len (c : Chunks) : nat := pa.len (chunks c).

Definition deref (h : heap) (l : loc) : result Corpus :=
  match h !! l with
  | Some c => Ok c
  | None => Err (ValueError "dangling corpus reference")
  end.

(** [self.chunks[name]] *)
Definition registry_lookup (c : Corpus) (name : string) : result Chunks :=
  match registry c !! name with
  | Some ch => Ok ch
  | None => Err (KeyError name)
  end.

(** [Corpus.set_chunk] *)
Definition set_chunk (h : heap) (self : loc) (name : string) (ch : Chunks) : result heap :=
  c ← deref h self;
  if decide (corpus ch = self) then
    Ok (<[self := mkCorpus (atoms c) (<[name := ch]> (registry c))]> h)
  else Err (ValueError "Input chunks `corpus` must be the same exact object as the corpus it's being set on. ").

(** ** pyarrow.compute kernels used by filters.py *)

Module pc.

(** Comparison of two non-null cells of the same kind; [None] otherwise.
    Numbers are compared by value and strings in lexicographic order. *)
Definition value_compare (a b : value) : option comparison :=
  match a, b with
  | VBool x, VBool y => Some (Z.compare (Z.b2z x) (Z.b2z y))
  | VInt x, VInt y => Some (Z.compare x y)
  | VInt x, VFrac q => Some (Qcompare (inject_Z x) q)
  | VFrac q, VInt y => Some (Qcompare q (inject_Z y))
  | VFrac q, VFrac q' => Some (Qcompare q q')
  | VStr x, VStr y => Some (String.compare x y)
  | _, _ => None
  end.

(** The Arrow types on which the kernels below are modelled cell by cell.  An
    integer cell is read as a cell of an [int64] column, the type pyarrow
    infers for Python ints, and a Python int that fits becomes an [int64]
    scalar; a string cell belongs to a string column. *)
Inductive kind := Int64 | Utf8.

#[global] Instance kind_eq_dec : EqDecision kind.
Proof. solve_decision. Defined.

Definition kind_of (v : value) : option kind :=
  match v with
  | VInt z =>
      if bool_decide (-9223372036854775808 ≤ z < 9223372036854775808)
      then Some Int64 else None
  | VStr _ => Some Utf8
  | _ => None
  end.

(** The operands (a scalar, or the members of a value set) are of one kind
    and every cell of the column is null or of that kind: nothing has to be
    cast before the kernel runs. *)
Definition typed (vs operands : list value) : bool :=
  match operands with
  | [] => false
  | v :: _ =>
      match kind_of v with
      | Some k =>
          forallb (λ w, bool_decide (kind_of w = Some k)) operands
          && forallb (λ x, bool_decide (x = VNull ∨ kind_of x = Some k)) vs
      | None => false
      end
  end.

Section kernels.

(** What pyarrow returns for the kernel named [fn] when the column or the
    operands first have to be cast to a common type (floats, booleans, mixed
    kinds, ints outside [int64], nulls among the operands, an empty value
    set): the casts, their errors and the floating point comparison are the
    library's. *)
Variable cast_kernel :
  string → list value → list value → result (list (option bool)).

(** A kernel that computes [cell] on every cell of a typed column.  The cells
    of a column without a non-null cell do not show the column's Arrow type:
    whether a kernel exists for it is the library's to say, and when one does
    it computes [cell] on the nulls. *)
Definition run_kernel (fn : string) (cell : value → option bool)
    (vs operands : list value) : result (list (option bool)) :=
  if typed vs operands then
    if forallb (λ x, bool_decide (x = VNull)) vs
    then _ ← cast_kernel fn vs operands; Ok (cell <$> vs)
    else Ok (cell <$> vs)
  else cast_kernel fn vs operands.

(** The comparison kernels: a null cell gives a null. *)
Definition compare_kernel (fn : string) (test : comparison → bool)
    (vs : list value) (v : value) : result (list (option bool)) :=
  run_kernel fn (λ x, test <$> value_compare x v) vs [v].

Definition greater_equal :=
  compare_kernel "greater_equal" (λ c, negb (bool_decide (c = Lt))).
Definition greater := compare_kernel "greater" (λ c, bool_decide (c = Gt)).
Definition less_equal :=
  compare_kernel "less_equal" (λ c, negb (bool_decide (c = Gt))).
Definition less := compare_kernel "less" (λ c, bool_decide (c = Lt)).

(** [pc.is_in(values, value_set)]: never null; a null cell is not in a set
    of non-null values. *)
Definition is_in (vs : list value) (value_set : list value) : result (list (option bool)) :=
  run_kernel "is_in" (λ x, Some (bool_decide (x ∈ value_set))) vs value_set.

End kernels.

Inductive sort_order := Ascending | Descending.

(** [a] may be placed before [b] under the given order. *)
Definition precedes (o : sort_order) (a b : value) : Prop :=
  match value_compare a b, o with
  | Some c, Ascending => c ≠ Gt
  | Some c, Descending => c ≠ Lt
  | None, _ => False
  end.

#[global] Instance precedes_dec o a b : Decision (precedes o a b).
Proof. unfold precedes. destruct (value_compare a b), o; apply _. Defined.


End pc.

(** ** filters.py *)

Inductive ChunkFilter :=
| TopK (attr : string) (k : Z) (reverse : bool)
| Threshold (attr : string) (direction : string) (threshold : value)
| EqualTo (attr : string) (values : list value).


Section filters.

(** The comparison and membership kernels on operands that need a cast, see
    [pc.run_kernel]. *)
Variable cast_kernel :
  string → list value → list value → result (list (option bool)).

(** The index selection performed inside [pa.compute.select_k_unstable];
    its tie-breaking is left open by the library. *)
Variable select_k_impl : list value → nat → pc.sort_order → list nat.

Definition select_k_unstable (vs : list value) (k : Z) (o : pc.sort_order)
    : result (list nat) :=
  if decide (k < 0)
  then Err (ArrowInvalid "select_k_unstable requires a nonnegative `k`")
  else Ok (select_k_impl vs (Z.to_nat k) o).

(** [TopK.__call__] *)
Definition TopK_call (attr : string) (k : Z) (reverse : bool) (c : Chunks) : result Chunks :=
  values ← pa.column attr (chunks c);
  filtered_idxs ← select_k_unstable values k
                    (if reverse then pc.Ascending else pc.Descending);
  filtered_chunks ← pa.take filtered_idxs (chunks c);
  Ok (mkChunks (corpus c) filtered_chunks (chunk_atoms c)).

(** [Threshold.__call__] *)
Definition Threshold_call (attr direction : string) (threshold : value) (c : Chunks)
    : result Chunks :=
  values ← pa.column attr (chunks c);
  chunk_mask ←
    (if decide (direction = ">=") then pc.greater_equal cast_kernel values threshold
     else if decide (direction = ">") then pc.greater cast_kernel values threshold
     else if decide (direction = "<=") then pc.less_equal cast_kernel values threshold
     else if decide (direction = "<") then pc.less cast_kernel values threshold
     else Err (ValueError "'`direction` must one of: '>', '>=', '<', '<='."));
  Ok (mkChunks (corpus c) (pa.filter chunk_mask (chunks c)) (chunk_atoms c)).

(** [EqualTo.__call__] *)
Definition EqualTo_call (attr : string) (values_ : list value) (c : Chunks) : result Chunks :=
  values ← pa.column attr (chunks c);
  chunk_mask ← pc.is_in cast_kernel values values_;
  Ok (mkChunks (corpus c) (pa.filter chunk_mask (chunks c)) (chunk_atoms c)).

Definition ChunkFilter_call (f : ChunkFilter) (c : Chunks) : result Chunks :=
  match f with
  | TopK attr k reverse => TopK_call attr k reverse c
  | Threshold attr direction v => Threshold_call attr direction v c
  | EqualTo attr vs => EqualTo_call attr vs c
  end.

(** [Chunks.filter]: the filters are applied one after the other. *)
Fixpoint Chunks_filter (fs : list ChunkFilter) (c : Chunks) : result Chunks :=
  match fs with
  | [] => Ok c
  | f :: fs' => res ← ChunkFilter_call f c; Chunks_filter fs' res
  end.

End filters.

(** ** Polars frames

    [pl.from_arrow] and [to_arrow] keep names and rows, so a frame is a
    [Table].  A frame cannot hold two columns of one name: the tables read
    as frames are taken to have pairwise distinct column names.  Every
    operation below returns rows restricted to the frame's column names. *)

Module pl.

(** Join keys: a null key matches nothing. *)
Definition joins (a b : value) : Prop := a ≠ VNull ∧ a = b.

Inductive how := Inner | Left.

(** [df.rename({old: new})] *)
Definition rename (old new : string) (t : Table) : result Table :=
  if negb (has_column old t) then Err (ColumnNotFoundError old)
  else if bool_decide (new ≠ old ∧ new ∈ names t) then Err (DuplicateError new)
  else
    let out n := if decide (n = old) then new else n in
    Ok (mkTable (out <$> names t)
          ((λ r, (λ n, (out n, get n r)) <$> names t) <$> rows t)).

(** [df.select(cols)], each column given as [(new_name, old_name)] *)
Definition select (cols : list (string * string)) (t : Table) : result Table :=
  match list_find (λ c, c.2 ∉ names t) cols with
  | Some (_, c) => Err (ColumnNotFoundError c.2)
  | None => Ok (mkTable (fst <$> cols)
                  ((λ r, (λ c, (c.1, get c.2 r)) <$> cols) <$> rows t))
  end.

(** [df.drop(col)] *)
Definition drop (col : string) (t : Table) : result Table :=
  if has_column col t
  then let ns := filter (λ n, n ≠ col) (names t) in
       Ok (mkTable ns (project ns <$> rows t))
  else Err (ColumnNotFoundError col).

(** The right rows a left row joins with, in order. *)
Definition matching (left_on right_on : string) (r : Table) (lr : row) : list row :=
  filter (λ rr, joins (get left_on lr) (get right_on rr)) (rows r).

(** The name a right column gets in the joined frame: one that the left
    frame already uses is suffixed with [_right]. *)
Definition right_name (l : Table) (n : string) : string :=
  if bool_decide (n ∈ names l) then n +:+ "_right" else n.

(** The joined rows one left row gives rise to. *)
Definition join_row (h : how) (left_on right_on : string) (l r : Table) (lr : row)
    : list row :=
  let rn := filter (λ n, n ≠ right_on) (names r) in
  let payload rr := (λ n, (right_name l n, get n rr)) <$> rn in
  let nulls := (λ n, (right_name l n, VNull)) <$> rn in
  match h with
  | Inner => (λ rr, project (names l) lr ++ payload rr) <$> matching left_on right_on r lr
  | Left =>
      match matching left_on right_on r lr with
      | [] => [project (names l) lr ++ nulls]
      | ms => (λ rr, project (names l) lr ++ payload rr) <$> ms
      end
  end.

(** [left.join(right, left_on=.., right_on=.., how=..)].  For each left row
    in order, its matching right rows in order; the right key column is
    dropped. *)
Definition join (h : how) (left_on right_on : string) (l r : Table) : result Table :=
  if negb (has_column left_on l) then Err (ColumnNotFoundError left_on)
  else if negb (has_column right_on r) then Err (ColumnNotFoundError right_on)
  else
    Ok (mkTable (names l ++ (right_name l <$> filter (λ n, n ≠ right_on) (names r)))
          (rows l ≫= join_row h left_on right_on l r)).

(** Distinct values in order of first appearance. *)
Fixpoint unique (l : list value) : list value :=
  match l with
  | [] => []
  | x :: l' => x :: filter (λ y, y ≠ x) (unique l')
  end.

(** [group_by(key, maintain_order=True)]: one group per distinct key, in
    order of first appearance; rows keep their order inside a group.  A null
    key forms a group of its own. *)
Definition group_by (key : row → value) (rs : list row) : list (value * list row) :=
  (λ k, (k, filter (λ r, key r = k) rs)) <$> unique (key <$> rs).

(** The order [sort] puts cells in: nulls first, then by kind, then by value. *)
Definition rank (v : value) : Z :=
  match v with
  | VNull => 0 | VBool _ => 1 | VInt _ | VFrac _ => 2 | VStr _ => 3 | VList _ => 4
  end.

Definition value_le (a b : value) : Prop :=
  match pc.value_compare a b with
  | Some c => c ≠ Gt
  | None => rank a ≤ rank b
  end.

#[global] Instance value_le_dec a b : Decision (value_le a b).
Proof. unfold value_le. destruct (pc.value_compare a b); apply _. Defined.

(** Lexicographic order on key tuples. *)
Fixpoint keys_le (ks1 ks2 : list value) : Prop :=
  match ks1, ks2 with
  | k1 :: ks1', k2 :: ks2' =>
      if decide (value_le k1 k2 ∧ value_le k2 k1) then keys_le ks1' ks2'
      else value_le k1 k2
  | _, _ => True
  end.

#[global] Instance keys_le_dec ks1 ks2 : Decision (keys_le ks1 ks2).
Proof.
  revert ks2. induction ks1 as [|k1 ks1 IH]; intros [|k2 ks2]; simpl; try apply _.
  destruct (decide _); apply _.
Defined.

Definition row_le (by_ : list string) (r1 r2 : row) : Prop :=
  keys_le ((λ n, get n r1) <$> by_) ((λ n, get n r2) <$> by_).

#[global] Instance row_le_dec by_ r1 r2 : Decision (row_le by_ r1 r2).
Proof. unfold row_le. apply _. Defined.

Definition sort_rows (by_ : list string) (rs : list row) : list row :=
  merge_sort (row_le by_) rs.

(** [df.sort(by)] *)
Definition sort (by_ : list string) (t : Table) : result Table :=
  match list_find (λ n, n ∉ names t) by_ with
  | Some (_, n) => Err (ColumnNotFoundError n)
  | None => Ok (mkTable (names t) (sort_rows by_ (rows t)))
  end.

(** [expr.sort_by(key)] over the cells of one group *)
Definition sort_by {A} (key : A → value) (l : list A) : list A :=
  merge_sort (λ a b, value_le (key a) (key b)) l.

(** [expr.str.join(delimiter)] over the cells of one group: nulls are
    ignored, a cell that is not a string is a dtype error. *)
Fixpoint strings_of (vs : list value) : result (list string) :=
  match vs with
  | [] => Ok []
  | VNull :: vs' => strings_of vs'
  | VStr s :: vs' => ss ← strings_of vs'; Ok (s :: ss)
  | _ :: _ => Err (InvalidOperationError "expected String type")
  end.

Definition str_join (delimiter : string) (vs : list value) : result value :=
  ss ← strings_of vs; Ok (VStr (String.concat delimiter ss)).

(** [expr.str.len_chars()] on one cell *)
Definition len_chars (v : value) : result value :=
  match v with
  | VNull => Ok VNull
  | VStr s => Ok (VInt (Z.of_nat (String.length s)))
  | _ => Err (InvalidOperationError "expected String type")
  end.

(** [expr.cast(pl.Int64)] on one cell: a float is truncated towards zero. *)
Definition cast_int64 (v : value) : result value :=
  match v with
  | VNull => Ok VNull
  | VInt z => Ok (VInt z)
  | VBool b => Ok (VInt (Z.b2z b))
  | VFrac q => Ok (VInt (Z.quot (Qnum q) (Z.pos (Qden q))))
  | _ => Err (InvalidOperationError "conversion to Int64 failed")
  end.

(** [a.ne(b)] on one pair of cells: null when either is null. *)
Definition ne (a b : value) : option bool :=
  match a, b with
  | VNull, _ | _, VNull => None
  | _, _ => Some (bool_decide (a ≠ b))
  end.

(** [x.is_between(lo, hi)] with the default [closed="both"] *)
Definition is_between (x lo hi : value) : option bool :=
  match x, lo, hi with
  | VInt x, VInt lo, VInt hi => Some (bool_decide (lo ≤ x ≤ hi))
  | _, _, _ => None
  end.

End pl.

(** ** chunkers.py *)

Inductive ChunkExpr :=
| FixedSizeChunk (constrain_to : string) (size offset : Z) (closed : string)
| RegexMatchChunk (constrain_to : string) (pattern : string).

(** The argument of [Corpus.chunk]: [ChunkExpr | str]. *)
Inductive chunk_ref :=
| ByName (name : string)
| ByExpr (e : ChunkExpr).

Inductive closed_window := ClosedLeft | ClosedRight | ClosedBoth | ClosedNone.

Definition parse_closed (s : string) : result closed_window :=
  if decide (s = "left") then Ok ClosedLeft
  else if decide (s = "right") then Ok ClosedRight
  else if decide (s = "both") then Ok ClosedBoth
  else if decide (s = "none") then Ok ClosedNone
  else Err (ValueError "`closed` must be one of {'left', 'right', 'both', 'none'}").

Definition is_member (cw : closed_window) (lo hi t : Z) : Prop :=
  match cw with
  | ClosedLeft => lo ≤ t < hi
  | ClosedRight => lo < t ≤ hi
  | ClosedBoth => lo ≤ t ≤ hi
  | ClosedNone => lo < t < hi
  end.

#[global] Instance is_member_dec cw lo hi t : Decision (is_member cw lo hi t).
Proof. destruct cw; apply _. Defined.

(** Lower bounds of the windows laid over one group whose first and last
    index values are [t0] and [last] ([start_by="datapoint"]). *)
Definition window_starts (every t0 last : Z) : list Z :=
  (λ j, t0 + j * every) <$> seqZ 0 ((last - t0) `div` every + 1).

(** The windows of one group of [group_by_dynamic]: the group's rows, sorted
    on the index, each paired with its index value.  A window that holds no
    row is not reported. *)
Definition dynamic_windows (cw : closed_window) (every period : Z)
    (g : list (Z * row)) : list (Z * list row) :=
  match g with
  | [] => []
  | (t0, _) :: _ =>
      omap (λ lo,
              match filter (λ tr, is_member cw lo (lo + period) tr.1) g with
              | [] => None
              | ms => Some (lo, snd <$> ms)
              end)
           (window_starts every t0 (List.last (fst <$> g) t0))
  end.

(** The index column of [group_by_dynamic]: [pl.col(name).cast(pl.Int64)],
    which must not hold nulls. *)
Definition index_of (name : string) (r : row) : result (Z * row) :=
  v ← pl.cast_int64 (get name r);
  match v with
  | VInt z => Ok (z, r)
  | _ => Err (ComputeError "null values in the index column")
  end.

(** [df.group_by_dynamic(index, every=.., period=.., closed=.., group_by=..,
    start_by="datapoint")]: for every group, in order of first appearance,
    its windows as [(group key, window lower bound, rows)]. *)
Definition group_by_dynamic (index : string) (every period : Z) (closed : string)
    (group_by : string) (t : Table) : result (list (value * Z * list row)) :=
  cw ← parse_closed closed;
  if decide (every ≤ 0) then Err (ComputeError "`every` must be positive")
  else
    gs ← mapM_result (λ g, irs ← mapM_result (index_of index) g.2; Ok (g.1, irs))
           (pl.group_by (get group_by) (rows t));
    Ok (g ← gs; (λ w, (g.1, w.1, w.2)) <$> dynamic_windows cw every period g.2).

(** [cum_sum()] over the cells of one partition: a null stays null and does
    not change the running sum. *)
Fixpoint cum_sum (acc : Z) (vs : list value) : list value :=
  match vs with
  | [] => []
  | VInt z :: vs' => VInt (acc + z) :: cum_sum (acc + z) vs'
  | _ :: vs' => VNull :: cum_sum acc vs'
  end.

Definition SPACER : string := " ".

Section chunkers.

(** [pl.struct(..).hash()] *)
Variable hash : list value → value.

(** [[m.span() for m in re.finditer(pattern, text)]] *)
Variable re_finditer : string → string → result (list (Z * Z)).

(** The order in which a [group_by] without [maintain_order] reports its
    groups. *)
Variable reorder : ∀ A : Type, list A → list A.

(** [joined], computed alike by both chunkers: the membership rows of the
    bounding chunks, each with the data of its atom. *)
Definition joined (corp : Corpus) (constrain_to : string) : result Table :=
  bounding ← registry_lookup corp constrain_to;
  renamed ← pl.rename "chunk" "constraint" (chunk_atoms bounding);
  pl.join pl.Inner "atom" "id" renamed (atoms corp).

(** The [Chunks] built from a frame of [(id, atoms)]:
    [chunks.select("id")] and
    [chunks.select(pl.col("id").alias("chunk"), "atom").explode("atom")]. *)
Definition to_Chunks (l : loc) (chunks_ : list (value * list value)) : Chunks :=
  mkChunks l
    (mkTable ["id"] ((λ c, [("id", c.1)]) <$> chunks_))
    (mkTable ["chunk"; "atom"]
       (c ← chunks_;
        match c.2 with
        | [] => [[("chunk", c.1); ("atom", VNull)]]
        | atoms_ => (λ a, [("chunk", c.1); ("atom", a)]) <$> atoms_
        end)).

(** The frame of [FixedSizeChunk.__call__] before the ids are hashed: one
    row [(constraint, ordinal, rows)] per window. *)
Definition FixedSizeChunk_windows (constrain_to : string) (size offset : Z)
    (closed : string) (corp : Corpus) : result (list (value * Z * list row)) :=
  joined_ ← joined corp constrain_to;
  sorted ← pl.sort ["constraint"; "ordinal"] joined_;
  group_by_dynamic "ordinal" (size + offset) size closed "constraint" sorted.

(** [FixedSizeChunk.__call__] *)
Definition FixedSizeChunk_call (constrain_to : string) (size offset : Z)
    (closed : string) (h : heap) (l : loc) : result Chunks :=
  corp ← deref h l;
  if negb (has_column "ordinal" (atoms corp)) then
    Err (KeyError "Fixed-size chunking requires the atoms to have `ordinal` column, but none was found.")
  else
    windows ← FixedSizeChunk_windows constrain_to size offset closed corp;
    Ok (to_Chunks l
          ((λ w : value * Z * list row,
              (hash [w.1.1; VInt w.1.2], get "atom" <$> w.2)) <$> windows)).

(** The [start_index] cell of the row at position [i] of the sorted frame:
    [(len_chars + len(SPACER)).cum_sum().shift(1, fill_value=0)] taken over
    the rows of the same [constraint]; [lens] holds [len_chars] of every
    row's text. *)
Definition start_index (sorted : list row) (lens : list value) (i : nat) : value :=
  let c := get "constraint" (sorted !!! i) in
  let before :=
    snd <$> filter (λ rl, get "constraint" rl.1 = c) (take i (zip sorted lens)) in
  List.last
    (cum_sum 0 ((λ v, match v with
                      | VInt n => VInt (n + Z.of_nat (String.length SPACER))
                      | _ => VNull
                      end) <$> before))
    (VInt 0).

(** [indices]: [constraint], [atom] and [start_index] of every sorted row. *)
Definition indices (sorted : Table) : result Table :=
  _ ← pl.select [("constraint", "constraint"); ("atom", "atom"); ("text", "text")] sorted;
  lens ← mapM_result (λ r, pl.len_chars (get "text" r)) (rows sorted);
  Ok (mkTable ["constraint"; "atom"; "start_index"]
        (imap (λ i r, [("constraint", get "constraint" r); ("atom", get "atom" r);
                        ("start_index", start_index (rows sorted) lens i)])
              (rows sorted))).

(** The string searched for one bounding group:
    [pl.col("text").str.join(SPACER)] *)
Definition search_string (g : list row) : result value :=
  pl.str_join SPACER (get "text" <$> g).

(** The spans of the matches in one bounding group, exploded: a group
    without a match keeps one row whose match is null. *)
Definition explode_matches (c : value) (spans : list (Z * Z)) : list row :=
  match spans with
  | [] => [[("constraint", c); ("start", VNull); ("end", VNull)]]
  | _ => (λ m, [("constraint", c); ("start", VInt m.1); ("end", VInt m.2)]) <$> spans
  end.

(** [group_by(["constraint"]).agg(.. .alias("match")).explode("match")] *)
Definition matches (pattern : string) (sorted : Table) : result Table :=
  ms ← mapM_result
         (λ g, text ← search_string g.2;
               spans ← match text with
                       | VStr x => re_finditer pattern x
                       | _ => Ok []
                       end;
               Ok (explode_matches g.1 spans))
         (reorder _ (pl.group_by (get "constraint") (rows sorted)));
  Ok (mkTable ["constraint"; "start"; "end"] (concat ms)).

(** [RegexMatchChunk.__call__] *)
Definition RegexMatchChunk_call (constrain_to pattern : string)
    (h : heap) (l : loc) : result Chunks :=
  corp ← deref h l;
  if negb (has_column "ordinal" (atoms corp)) then
    Err (KeyError "Regex-match chunking requires the atoms to have `ordinal` column, but none was found.")
  else
    joined_ ← joined corp constrain_to;
    sorted ← pl.sort ["constraint"; "ordinal"] joined_;
    indices_ ← indices sorted;
    matches_ ← matches pattern sorted;
    located ← pl.join pl.Inner "constraint" "constraint" matches_ indices_;
    let filtered :=
      filter (λ r, pl.is_between (get "start_index" r) (get "start" r) (get "end" r)
                   = Some true) (rows located) in
    Ok (to_Chunks l
          ((λ g : value * list row, (g.1, get "atom" <$> g.2)) <$>
             reorder _ (pl.group_by
                          (λ r, hash [get "constraint" r; get "start" r; get "end" r])
                          filtered))).

Definition ChunkExpr_call (e : ChunkExpr) (h : heap) (l : loc) : result Chunks :=
  match e with
  | FixedSizeChunk constrain_to size offset closed =>
      FixedSizeChunk_call constrain_to size offset closed h l
  | RegexMatchChunk constrain_to pattern =>
      RegexMatchChunk_call constrain_to pattern h l
  end.

(** [Corpus.chunk] *)
Definition Corpus_chunk (h : heap) (self : loc) (chunk_expr : chunk_ref) : result Chunks :=
  match chunk_expr with
  | ByName name => corp ← deref h self; registry_lookup corp name
  | ByExpr e => ChunkExpr_call e h self
  end.

End chunkers.

(** ** exprs.py *)

Inductive AttrExpr :=
| AtomData (attr : string)
| RegexCount (stringifier : AttrExpr) (pattern : string) (flags : Z)
| ChunkOverlap (chunk_b : chunk_ref) (agg : string)
| SimpleStringify (delimiter : string)
| ChunkDelimitedStringify (chunk_delimiters : list (string * string))
    (atom_delimiter : string).

(** [ChunkOverlap.__init__] *)
Definition ChunkOverlap_init (chunk_b : chunk_ref) (agg : string) : result AttrExpr :=
  if bool_decide (agg ∈ ["bool"; "count"; "frac"])
  then Ok (ChunkOverlap chunk_b agg)
  else Err (ValueError "`agg` kwarg should be one of: dict_keys(['bool', 'count', 'frac'])").

(** [self.agg_exprs[agg]] applied to the [chunk_b] cells of one group:
    [is_not_null()] followed by [any()], [sum()] or [mean()]. *)
Definition overlap_agg (agg : string) (cells : list value) : result value :=
  let hits := length (filter (λ v, v ≠ VNull) cells) in
  if decide (agg = "bool") then Ok (VBool (bool_decide (0 < hits)%nat))
  else if decide (agg = "count") then Ok (VInt (Z.of_nat hits))
  else if decide (agg = "frac") then
    Ok (match cells with
        | [] => VNull
        | _ => VFrac (Qmake (Z.of_nat hits) (Pos.of_nat (length cells)))
        end)
  else Err (KeyError agg).

(** The delimiter that follows one row of a group in
    [ChunkDelimitedStringify]: the chain
    [when(col.ne(col.shift(-1))).then(delimiter)...] over [chunk_delimiters],
    then [when(is last row).then("")], [otherwise(atom_delimiter)].  [next]
    is the following row of the group, if any. *)
Definition spacer (chunk_delimiters : list (string * string)) (atom_delimiter : string)
    (r : row) (next : option row) : string :=
  match list_find
          (λ cd, pl.ne (get cd.1 r) (from_option (get cd.1) VNull next) = Some true)
          chunk_delimiters with
  | Some (_, cd) => cd.2
  | None => if next is None then "" else atom_delimiter
  end.

(** [pl.concat_str(text, delimiter)] on one row *)
Definition concat_str (text : value) (delimiter : string) : result value :=
  match text with
  | VNull => Ok VNull
  | VStr s => Ok (VStr (s +:+ delimiter))
  | _ => Err (InvalidOperationError "expected String type")
  end.

Section exprs.

Variable hash : list value → value.
Variable re_finditer : string → string → result (list (Z * Z)).
Variable reorder : ∀ A : Type, list A → list A.

(** [len(re.findall(pattern, text, flags))] *)
Variable re_findall_len : string → string → Z → result nat.

(** [AtomData.__call__].  The inner joins are made without
    [maintain_order]: the order of their rows, which here decides the order
    of the groups and of the cells in a group, is the library's. *)
Definition AtomData_call (attr : string) (h : heap) (c : Chunks) : result (list value) :=
  corp ← deref h (corpus c);
  ids ← pl.select [("chunk", "id")] (chunks c);
  with_atoms ← pl.join pl.Inner "chunk" "chunk" ids (chunk_atoms c);
  with_data ← pl.join pl.Inner "atom" "id" with_atoms (atoms corp);
  if negb (has_column attr with_data) then Err (ColumnNotFoundError attr)
  else Ok ((λ g, VList (get attr <$> g.2)) <$>
             pl.group_by (get "chunk") (reorder _ (rows with_data))).

(** [ChunkOverlap.__call__] *)
Definition ChunkOverlap_call (chunk_b : chunk_ref) (agg : string)
    (h : heap) (c : Chunks) : result (list value) :=
  b ← Corpus_chunk hash re_finditer reorder h (corpus c) chunk_b;
  other ← pl.select [("chunk_b", "chunk"); ("atom", "atom")] (chunk_atoms b);
  joined ← pl.join pl.Left "atom" "atom" (chunk_atoms c) other;
  if negb (has_column "chunk" joined) then Err (ColumnNotFoundError "chunk")
  else mapM_result (λ g, overlap_agg agg (get "chunk_b" <$> g.2))
         (pl.group_by (get "chunk") (rows joined)).

(** [SimpleStringify.__call__] *)
Definition SimpleStringify_call (delimiter : string) (h : heap) (c : Chunks)
    : result (list value) :=
  corp ← deref h (corpus c);
  let atom := atoms corp in
  if negb (has_column "text" atom) then
    Err (ValueError "Stringifying requires the corpus' atoms to have a `text` column, but none was found.")
  else if negb (has_column "ordinal" atom) then
    Err (ValueError "Stringifying requires the corpus' atoms to have an `ordinal` column, but none was found.")
  else
    ids ← pl.select [("id", "id")] (chunks c);
    input_chunks ← pl.rename "id" "chunk" ids;
    with_atoms ← pl.join pl.Inner "chunk" "chunk" input_chunks (chunk_atoms c);
    renamed ← pl.rename "id" "atom" atom;
    enriched ← pl.join pl.Inner "atom" "atom" with_atoms renamed;
    res ← mapM_result
            (λ g, text ← pl.str_join delimiter
                           (get "text" <$> pl.sort_by (get "ordinal") g.2);
                  Ok [("chunk", g.1); ("text", text)])
            (reorder _ (pl.group_by (get "chunk") (rows enriched)));
    (* Re-join with inputs to ensure correct ordering. *)
    rejoined ← pl.join pl.Left "chunk" "chunk" input_chunks
                 (mkTable ["chunk"; "text"] res);
    Ok (get "text" <$> rows rejoined).

(** One round of the loop over [chunk_delimiters] that attaches the chunk
    ids of a named chunk collection to the rows. *)
Definition attach_chunk_ids (h : heap) (self : loc) (enriched : Table)
    (cd : string * string) : result Table :=
  let chunk := cd.1 in
  enriched ← (if has_column chunk enriched then pl.drop chunk enriched
              else Ok enriched);
  named ← Corpus_chunk hash re_finditer reorder h self (ByName chunk);
  other ← pl.select [(chunk, "chunk"); ("atom", "atom")] (chunk_atoms named);
  pl.join pl.Left "atom" "atom" enriched other.

(** The aggregation of one group:
    [pl.concat_str(pl.col("text"), expr).sort_by("ordinal").str.join("")] *)
Definition delimited_text (chunk_delimiters : list (string * string))
    (atom_delimiter : string) (g : list row) : result value :=
  cells ← mapM_result
            (λ ir, concat_str (get "text" ir.2)
                     (spacer chunk_delimiters atom_delimiter ir.2 (g !! S ir.1)))
            (imap (λ i r, (i, r)) g);
  pl.str_join "" (snd <$> pl.sort_by (λ rc, get "ordinal" rc.1) (zip g cells)).

(** [ChunkDelimitedStringify.__call__] *)
Definition ChunkDelimitedStringify_call (chunk_delimiters : list (string * string))
    (atom_delimiter : string) (h : heap) (c : Chunks) : result (list value) :=
  corp ← deref h (corpus c);
  ids ← pl.select [("id", "id")] (chunks c);
  input_chunks ← pl.rename "id" "chunk" ids;
  with_atoms ← pl.join pl.Left "chunk" "chunk" input_chunks (chunk_atoms c);
  renamed ← pl.rename "id" "atom" (atoms corp);
  with_data ← pl.join pl.Left "atom" "atom" with_atoms renamed;
  enriched ← foldM_result (attach_chunk_ids h (corpus c)) with_data chunk_delimiters;
  match list_find (λ n, n ∉ names enriched) ["text"; "ordinal"] with
  | Some (_, n) => Err (ColumnNotFoundError n)
  | None =>
      mapM_result (λ g, delimited_text chunk_delimiters atom_delimiter g.2)
        (pl.group_by (get "chunk") (rows enriched))
  end.

Fixpoint AttrExpr_call (e : AttrExpr) (h : heap) (c : Chunks) : result (list value) :=
  match e with
  | AtomData attr => AtomData_call attr h c
  | RegexCount stringifier pattern flags =>
      (* [RegexCount.__call__] *)
      strings ← AttrExpr_call stringifier h c;
      mapM_result
        (λ text, match text with
                 | VStr s => n ← re_findall_len pattern s flags; Ok (VInt (Z.of_nat n))
                 | _ => Err (TypeError "expected string or bytes-like object")
                 end)
        strings
  | ChunkOverlap chunk_b agg => ChunkOverlap_call chunk_b agg h c
  | SimpleStringify delimiter => SimpleStringify_call delimiter h c
  | ChunkDelimitedStringify chunk_delimiters atom_delimiter =>
      ChunkDelimitedStringify_call chunk_delimiters atom_delimiter h c
  end.

(** [Chunks.enrich] *)
Definition Chunks_enrich (exprs : list (string * AttrExpr)) (h : heap) (c : Chunks)
    : result Chunks :=
  enriched ← foldM_result
               (λ enriched ne, vs ← AttrExpr_call ne.2 h c;
                               pa.append_column ne.1 vs enriched)
               (chunks c) exprs;
  Ok (mkChunks (corpus c) enriched (chunk_atoms c)).

(** [Chunks.select]: [attrs] are existing attribute names, [exprs] maps a
    new column name to an existing attribute name or to an expression. *)
Definition Chunks_select (attrs : list string) (exprs : list (string * (string + AttrExpr)))
    (h : heap) (c : Chunks) : result Table :=
  selected ← pa.select attrs (chunks c);
  foldM_result
    (λ selected ne,
       vs ← match ne.2 with
            | inl name => pa.column name (chunks c)
            | inr expr => AttrExpr_call expr h c
            end;
       pa.append_column ne.1 vs selected)
    selected exprs.

End exprs.

(** ** Corpus.merge *)

Section merging.

Variable same_types : Table → Table → bool.

(** Python iterates a set of strings in an order that depends on their
    hashes, which change from run to run: the names are visited in the order
    of a rank that the run picks. *)
Variable key_rank : string → nat.

Definition visited_before (a b : string) : Prop := (key_rank a ≤ key_rank b)%nat.

#[global] Instance visited_before_dec a b : Decision (visited_before a b).
Proof. unfold visited_before. apply _. Defined.

Definition iteration_order (keys : gset string) : list string :=
  merge_sort visited_before (elements keys).

(** [Corpus.merge]: the merged corpus is a new object; the store that holds
    it is returned with its location. *)
Definition merge (h : heap) (corpora : list loc) : result (loc * heap) :=
  corps ← mapM_result (deref h) corpora;
  let keys : gset string := ⋃ ((λ corp, dom (registry corp)) <$> corps) in
  merged_atoms ← pa.concat_tables same_types (atoms <$> corps);
  let merged_corpus : loc := fresh (dom h) in
  merged_chunks ←
    foldM_result
      (λ (reg : gmap string Chunks) k,
         k_chunks ← mapM_result (λ corp, registry_lookup corp k) corps;
         cs ← pa.concat_tables same_types (chunks <$> k_chunks);
         cas ← pa.concat_tables same_types (chunk_atoms <$> k_chunks);
         Ok (<[k := mkChunks merged_corpus cs cas]> reg))
      ∅ (iteration_order keys);
  Ok (merged_corpus, <[merged_corpus := mkCorpus merged_atoms merged_chunks]> h).

End merging.

(** ** Vocabulary of the statements about filters *)

Definition filter_attr (f : ChunkFilter) : string :=
  match f with
  | TopK attr _ _ | Threshold attr _ _ | EqualTo attr _ => attr
  end.

(** [x <direction> v] for two integers, or for two strings in lexicographic
    order; a null compares with nothing. *)
Definition compares (direction : string) (x v : value) : Prop :=
  match x, v with
  | VInt a, VInt b =>
      (direction = ">" ∧ b < a) ∨ (direction = ">=" ∧ b ≤ a) ∨
      (direction = "<" ∧ a < b) ∨ (direction = "<=" ∧ a ≤ b)
  | VStr a, VStr b =>
      (direction = ">" ∧ String.compare a b = Gt) ∨
      (direction = ">=" ∧ String.compare a b ≠ Lt) ∨
      (direction = "<" ∧ String.compare a b = Lt) ∨
      (direction = "<=" ∧ String.compare a b ≠ Gt)
  | _, _ => False
  end.

#[global] Instance compares_dec direction x v : Decision (compares direction x v).
Proof. unfold compares. destruct x, v; apply _. Defined.

(** The predicate a mask filter keeps a row by. *)
Definition passes (f : ChunkFilter) (x : value) : Prop :=
  match f with
  | Threshold _ direction v => compares direction x v
  | EqualTo _ vs => x ∈ vs
  | TopK _ _ _ => True
  end.

#[global] Instance passes_dec f x : Decision (passes f x).
Proof. destruct f; simpl; apply _. Defined.


(** A mask filter on a column with cells [xs] that needs no cast: an
    [int64] column against ints that fit, or a string column against
    strings. *)
Definition well_typed (f : ChunkFilter) (xs : list value) : Prop :=
  match f with
  | Threshold _ direction v =>
      direction ∈ [">"; ">="; "<"; "<="] ∧ pc.typed xs [v] = true
  | EqualTo _ vs => pc.typed xs vs = true
  | TopK _ _ _ => False
  end.


(** The positions [TopK] takes are pairwise distinct (trivial for the mask
    filters). *)
Definition distinct_picks (select_k_impl : list value → nat → pc.sort_order → list nat)
    (f : ChunkFilter) (c : Chunks) : Prop :=
  match f with
  | TopK attr k reverse =>
      NoDup (select_k_impl (get attr <$> rows (chunks c)) (Z.to_nat k)
               (if reverse then pc.Ascending else pc.Descending))
  | _ => True
  end.


(** ** A small corpus used in the examples

    One document of nine words on four lines in two paragraphs, after the
    fixture of the test suite. *)

Module Example.

Definition word (i : Z) (t : string) : row :=
  [("id", VInt (100 + i)); ("ordinal", VInt i); ("text", VStr t)].

Definition atoms_ : Table :=
  mkTable ["id"; "ordinal"; "text"]
    [word 1 "The"; word 2 "(quick)"; word 3 "[brown]"; word 4 "fox";
     word 5 "jumps!"; word 6 "Over"; word 7 "the"; word 8 "<lazy>"; word 9 "dog"].

Definition members (c : value) (l : list Z) : list row :=
  (λ i, [("chunk", c); ("atom", VInt (100 + i))]) <$> l.

Definition self : loc := 0%nat.

Definition document : Chunks :=
  mkChunks self
    (mkTable ["id"] [[("id", VStr "abc123")]])
    (mkTable ["chunk"; "atom"] (members (VStr "abc123") [1; 2; 3; 4; 5; 6; 7; 8; 9])).

Definition line_row (i w : Z) : row :=
  [("id", VInt i); ("ordinal", VInt i); ("width", VInt w)].

Definition line : Chunks :=
  mkChunks self
    (mkTable ["id"; "ordinal"; "width"]
       [line_row 1 110; line_row 2 200; line_row 3 80; line_row 4 100])
    (mkTable ["chunk"; "atom"]
       (members (VInt 1) [1; 2] ++ members (VInt 2) [3; 4; 5] ++
        members (VInt 3) [6; 7] ++ members (VInt 4) [8; 9])).

Definition paragraph : Chunks :=
  mkChunks self
    (mkTable ["id"] [[("id", VInt 11)]; [("id", VInt 12)]])
    (mkTable ["chunk"; "atom"]
       (members (VInt 11) [1; 2; 3; 4; 5] ++ members (VInt 12) [6; 7; 8; 9])).

Definition corpus_ : Corpus :=
  mkCorpus atoms_
    (<["document" := document]> (<["line" := line]> (<["paragraph" := paragraph]> ∅))).

Definition store : heap := {[ self := corpus_ ]}.

(** Stand-ins for the library routines the embedding is parametric in. *)

Definition hash (l : list value) : value := VList l.

(** In the examples tables with the same column names have the same
    column types, and the names of a set are visited in the order in which
    the set lists them. *)
Definition same_types (_ _ : Table) : bool := true.

Definition key_rank (_ : string) : nat := 0%nat.

(** In the examples no kernel has to cast. *)
Definition cast_kernel (fn : string) (vs operands : list value)
    : result (list (option bool)) :=
  Err (ArrowNotImplementedError fn).

(** A selection that sorts the positions on their values. *)
Definition select_k (vs : list value) (k : nat) (o : pc.sort_order) : list nat :=
  take k (merge_sort (λ i j, pc.precedes o (vs !!! i) (vs !!! j)) (seq 0 (length vs))).


Definition keep_order (A : Type) (l : list A) : list A := l.
Definition reversed (A : Type) (l : list A) : list A := reverse l.

(** Two lines of equal width. *)
Definition ties : Chunks :=
  mkChunks self
    (mkTable ["id"; "ordinal"; "width"] [line_row 1 80; line_row 2 80])
    (mkTable ["chunk"; "atom"] (members (VInt 1) [1; 2] ++ members (VInt 2) [3; 4])).

(** A literal pattern's spans, standing in for [re.finditer] (patterns that
    cannot overlap themselves). *)
Fixpoint literal_spans (pattern text : string) (pos : Z) : list (Z * Z) :=
  match text with
  | EmptyString => []
  | String _ text' =>
      (if String.prefix pattern text
       then [(pos, pos + Z.of_nat (String.length pattern))] else [])
      ++ literal_spans pattern text' (pos + 1)
  end.

Definition finditer (pattern text : string) : result (list (Z * Z)) :=
  Ok (literal_spans pattern text 0).

Definition findall_len (pattern text : string) (flags : Z) : result nat :=
  Ok (length (literal_spans pattern text 0)).

(** The lines after [Threshold("ordinal", "<=", 2)]: two chunk rows, and the
    membership rows of all four lines. *)
Definition first_lines : Chunks :=
  mkChunks self
    (mkTable ["id"; "ordinal"; "width"] [line_row 1 110; line_row 2 200])
    (chunk_atoms line).

(** The lines, and a fifth line that holds no word. *)
Definition lines_and_blank : Chunks :=
  mkChunks self
    (mkTable ["id"; "ordinal"; "width"]
       [line_row 1 110; line_row 2 200; line_row 5 0; line_row 3 80; line_row 4 100])
    (chunk_atoms line).

(** One chunk of the first three words, its members not listed in reading
    order. *)
Definition unordered : Chunks :=
  mkChunks self
    (mkTable ["id"] [[("id", VInt 21)]])
    (mkTable ["chunk"; "atom"] (members (VInt 21) [3; 1; 2])).

(** A second corpus, with the columns of the first, that registers a
    [document] and a [paragraph] but no [line]. *)
Definition other_corpus : Corpus :=
  mkCorpus (mkTable ["id"; "ordinal"; "text"] [word 11 "Hello"])
    (<["document" :=
         mkChunks 1%nat (mkTable ["id"] [[("id", VStr "edf456")]])
           (mkTable ["chunk"; "atom"] (members (VStr "edf456") [11]))]>
     (<["paragraph" :=
         mkChunks 1%nat (mkTable ["id"] [[("id", VInt 13)]])
           (mkTable ["chunk"; "atom"] (members (VInt 13) [11]))]> ∅)).

Definition two_corpora : heap := <[1%nat := other_corpus]> store.

(** The corpus twice. *)
Definition copies : heap := <[1%nat := corpus_]> store.

(** A document of two words whose ordinals are 1 and 3. *)
Definition gapped_corpus : Corpus :=
  mkCorpus (mkTable ["id"; "ordinal"; "text"] [word 1 "The"; word 3 "fox"])
    {[ "document" :=
         mkChunks self (mkTable ["id"] [[("id", VStr "abc123")]])
           (mkTable ["chunk"; "atom"] (members (VStr "abc123") [1; 3])) ]}.

Definition gapped_store : heap := {[ self := gapped_corpus ]}.




(** A corpus whose atoms carry no [text]. *)
Definition textless_corpus : Corpus :=
  mkCorpus (mkTable ["id"; "ordinal"] [[("id", VInt 101); ("ordinal", VInt 1)]])
    {[ "document" :=
         mkChunks self (mkTable ["id"] [[("id", VStr "abc123")]])
           (mkTable ["chunk"; "atom"] (members (VStr "abc123") [1])) ]}.

Definition textless_store : heap := {[ self := textless_corpus ]}.

End Example.

(** ** Vocabulary of the statements about chunk expressions *)

(** The atom columns a chunk expression reads. *)
Definition required_columns (e : ChunkExpr) : list string :=
  match e with
  | FixedSizeChunk _ _ _ _ => ["ordinal"]
  | RegexMatchChunk _ _ => ["ordinal"; "text"]
  end.

Definition constraint_of (e : ChunkExpr) : string :=
  match e with
  | FixedSizeChunk constrain_to _ _ _ | RegexMatchChunk constrain_to _ => constrain_to
  end.

(** The message of the [KeyError] raised when [ordinal] is missing. *)
Definition ordinal_message (e : ChunkExpr) : string :=
  match e with
  | FixedSizeChunk _ _ _ _ =>
      "Fixed-size chunking requires the atoms to have `ordinal` column, but none was found."
  | RegexMatchChunk _ _ =>
      "Regex-match chunking requires the atoms to have `ordinal` column, but none was found."
  end.

(** The error a chunk expression ends in when column [col] is missing. *)
Definition missing_column_error (e : ChunkExpr) (col : string) : error :=
  if decide (col = "ordinal") then KeyError (ordinal_message e)
  else ColumnNotFoundError col.

(** Every registered chunk collection has the membership columns
    [(chunk, atom)]. *)
Definition normalized (corp : Corpus) : Prop :=
  map_Forall (λ _ b, names (chunk_atoms b) = ["chunk"; "atom"]) (registry corp).

(** The name a column of the atom table has in [joined]. *)
Definition joined_name (n : string) : string :=
  if bool_decide (n ∈ ["constraint"; "atom"]) then n +:+ "_right" else n.

(** The row of [joined] built from a membership row and an atom row. *)
Definition joined_row (atom_names : list string) (ca a : row) : row :=
  [("constraint", get "chunk" ca); ("atom", get "atom" ca)]
  ++ ((λ n, (joined_name n, get n a)) <$> filter (λ n, n ≠ "id") atom_names).

(** The rows of [joined], by membership row. *)
Definition joined_rows (bounding : Chunks) (corp : Corpus) : list row :=
  ca ← rows (chunk_atoms bounding);
  joined_row (names (atoms corp)) ca <$>
    filter (λ a, pl.joins (get "atom" ca) (get "id" a)) (rows (atoms corp)).

(** An error names a column: in its message for a [KeyError], as its
    argument for Polars' [ColumnNotFoundError]. *)
Definition names_column (err : error) (col : string) : Prop :=
  match err with
  | KeyError msg => is_Some (String.index 0 ("`" +:+ col +:+ "`") msg)
  | ColumnNotFoundError c => c = col
  | _ => False
  end.

(** ** Vocabulary of the statements about [Corpus.merge] *)

(** Corpus [c] can be merged with [c0]: both register the same names, and
    their atom tables and the tables registered under each name have the same
    columns. *)
Definition compatible (c0 c : Corpus) : Prop :=
  names (atoms c) = names (atoms c0) ∧
  dom (registry c) = dom (registry c0) ∧
  map_Forall
    (λ k ch0, match registry c !! k with
              | Some ch => names (chunks ch) = names (chunks ch0) ∧
                           names (chunk_atoms ch) = names (chunk_atoms ch0)
              | None => False
              end)
    (registry c0).

#[global] Instance compatible_dec c0 c : Decision (compatible c0 c).
Proof.
  unfold compatible. apply and_dec; [apply _|]. apply and_dec; [apply _|].
  apply map_Forall_dec. intros k ch0. destruct (registry c !! k); apply _.
Defined.

(** The rows a corpus holds for chunk name [k], in its [chunks] table and in
    its [chunk_atoms] table. *)
Definition chunk_rows_of (k : string) (corp : Corpus) : list row :=
  from_option (λ ch, rows (chunks ch)) [] (registry corp !! k).

Definition chunk_atom_rows_of (k : string) (corp : Corpus) : list row :=
  from_option (λ ch, rows (chunk_atoms ch)) [] (registry corp !! k).

(** ** Vocabulary of the statements about stringification *)

(** The atom rows a chunk collection relates to chunk id [id]: for each of
    its membership rows, the atoms with that row's atom id. *)
Definition member_atoms (c : Chunks) (corp : Corpus) (id : value) : list row :=
  ca ← filter (λ ca, pl.joins id (get "chunk" ca)) (rows (chunk_atoms c));
  filter (λ a, pl.joins (get "atom" ca) (get "id" a)) (rows (atoms corp)).

(** A cell of a string column. *)
Definition is_text (v : value) : Prop := v = VNull ∨ ∃ s, v = VStr s.

#[global] Instance is_text_dec v : Decision (is_text v).
Proof.
  destruct v; first [ by left; left | by left; right; eexists
                    | right; intros [?|[? ?]]; done ].
Defined.

(** The strings among some cells; nulls are skipped. *)
Definition texts_of (vs : list value) : list string :=
  omap (λ v, match v with VStr s => Some s | _ => None end) vs.


(** The name a column of the atom table has after [rename({"id": "atom"})],
    and the renamed row. *)
Definition renamed_name (n : string) : string := if decide (n = "id") then "atom" else n.

Definition renamed_row (atom_names : list string) (a : row) : row :=
  (λ n, (renamed_name n, get n a)) <$> atom_names.

(** The name a column of the renamed atom table has in [enriched]. *)
Definition enriched_name (n : string) : string :=
  if bool_decide (n ∈ ["chunk"; "atom"]) then n +:+ "_right" else n.

(** The row of [enriched] built from a chunk row, a membership row and an
    atom row. *)
Definition enriched_row (atom_names : list string) (r ca a : row) : row :=
  [("chunk", get "id" r); ("atom", get "atom" ca)]
  ++ ((λ n, (enriched_name n, get n (renamed_row atom_names a)))
        <$> filter (λ n, n ≠ "atom") (renamed_name <$> atom_names)).







(** The integer in an integer cell. *)
Definition int_of (v : value) : Z :=
  match v with
  | VInt z => z
  | _ => 0
  end.

(** The ordinal of a row whose [ordinal] cell is an integer. *)
Definition ordinal_of (r : row) : Z := int_of (get "ordinal" r).

(** An integer cell. *)
Definition is_int (v : value) : Prop :=
  match v with
  | VInt _ => True
  | _ => False
  end.

#[global] Instance is_int_dec v : Decision (is_int v).
Proof. destruct v; apply _. Defined.

(** The identified chunks [FixedSizeChunk] makes of its windows. *)
Definition window_chunks (hash : list value → value)
    (ws : list (value * Z * list row)) : list (value * list value) :=
  (λ w : value * Z * list row, (hash [w.1.1; VInt w.1.2], get "atom" <$> w.2)) <$> ws.

(** [len_chars] of a text cell that is a string or null. *)
Definition text_len (v : value) : value :=
  match v with
  | VStr s => VInt (Z.of_nat (String.length s))
  | _ => VNull
  end.

(** The frame both chunkers work on: [joined.sort(["constraint", "ordinal"])]. *)
Definition sorted_rows (bounding : Chunks) (corp : Corpus) : list row :=
  pl.sort_rows ["constraint"; "ordinal"] (joined_rows bounding corp).


(** The start offset [RegexMatchChunk] computes for row [i] of the sorted
    frame. *)
Definition start_offset (sorted : list row) (i : nat) : value :=
  start_index sorted (text_len ∘ get "text" <$> sorted) i.

(** The row of [indices] for row [r] at position [i] of the sorted frame. *)
Definition index_row (sorted : list row) (i : nat) (r : row) : row :=
  [("constraint", get "constraint" r); ("atom", get "atom" r);
   ("start_index", start_offset sorted i)].

(** The exploded matches of one bounding group. *)
Definition group_matches (spans : string → list (Z * Z)) (g : value * list row)
    : list row :=
  explode_matches g.1 (spans (String.concat SPACER (texts_of (get "text" <$> g.2)))).

(** A row of the frame that locates atoms against matches. *)
Definition located_row (mr ir : row) : row :=
  [("constraint", get "constraint" mr); ("start", get "start" mr);
   ("end", get "end" mr); ("atom", get "atom" ir);
   ("start_index", get "start_index" ir)].


(** A membership row. *)
Definition membership (id a : value) : row := [("chunk", id); ("atom", a)].

(** [located]: every exploded match joined with the [indices] rows of its
    bounding chunk. *)
Definition located_rows (reorder : ∀ A : Type, list A → list A)
    (spans : string → list (Z * Z)) (sorted : list row) : list row :=
  mr ← reorder _ (pl.group_by (get "constraint") sorted) ≫= group_matches spans;
  located_row mr <$>
    filter (λ ir, pl.joins (get "constraint" mr) (get "constraint" ir))
      (imap (index_row sorted) sorted).

(** [pl.col("start_index").is_between(start, end)] holds of a located row. *)
Definition within (r : row) : Prop :=
  pl.is_between (get "start_index" r) (get "start" r) (get "end" r) = Some true.

(** The id [RegexMatchChunk] gives the chunk of a located row. *)
Definition match_id (hash : list value → value) (r : row) : value :=
  hash [get "constraint" r; get "start" r; get "end" r].

(** The identified chunks [RegexMatchChunk] makes of the sorted frame. *)
Definition regex_chunks (hash : list value → value)
    (reorder : ∀ A : Type, list A → list A) (spans : string → list (Z * Z))
    (sorted : list row) : list (value * list value) :=
  (λ g : value * list row, (g.1, get "atom" <$> g.2)) <$>
    reorder _ (pl.group_by (match_id hash)
                 (filter within (located_rows reorder spans sorted))).




(** A string cell. *)
Definition is_str (v : value) : Prop :=
  match v with
  | VStr _ => True
  | _ => False
  end.

#[global] Instance is_str_dec v : Decision (is_str v).
Proof. destruct v; apply _. Defined.

(** ** Vocabulary of the statements about the store of corpora *)

(** Every registered chunk collection refers to the corpus that registers
    it: what [set_chunk] checks before it stores. *)
Definition registry_closed (h : heap) : Prop :=
  map_Forall (λ l corp, map_Forall (λ _ ch, corpus ch = l) (registry corp)) h.

(** A mask filter on chunks [c] whose attribute is a column that needs no
    cast. *)
Definition runs_on (c : Chunks) (f : ChunkFilter) : Prop :=
  filter_attr f ∈ names (chunks c) ∧
  well_typed f (get (filter_attr f) <$> rows (chunks c)).

#[global] Instance well_typed_dec f xs : Decision (well_typed f xs).
Proof. destruct f; simpl; apply _. Defined.

#[global] Instance runs_on_dec c f : Decision (runs_on c f).
Proof. unfold runs_on. apply _. Defined.

(** The rows that pass every filter of a chain. *)
Definition passes_all (fs : list ChunkFilter) (r : row) : Prop :=
  Forall (λ f, passes f (get (filter_attr f) r)) fs.

#[global] Instance passes_all_dec fs r : Decision (passes_all fs r).
Proof. unfold passes_all. apply _. Defined.

(** ** Vocabulary of the statements about [enrich] and [select] *)

(** Two chunk collections an attribute expression cannot tell apart: the same
    corpus and membership table, and the same [id] column. *)
Definition same_ids (c1 c2 : Chunks) : Prop :=
  corpus c1 = corpus c2 ∧ chunk_atoms c1 = chunk_atoms c2 ∧
  ("id" ∈ names (chunks c1) ↔ "id" ∈ names (chunks c2)) ∧
  get "id" <$> rows (chunks c1) = get "id" <$> rows (chunks c2).

(** ** Vocabulary of the statements about [FixedSizeChunk] *)

(** The rows of [joined] that belong to bounding chunk [b]. *)
Definition bounding_rows (bounding : Chunks) (corp : Corpus) (b : value) : list row :=
  filter (λ r, get "constraint" r = b) (joined_rows bounding corp).

(** The hash of [(bounding chunk id, window start)] does not collide. *)
Definition window_hash_injective (hash : list value → value) : Prop :=
  ∀ b lo b' lo', hash [b; VInt lo] = hash [b'; VInt lo'] → b = b' ∧ lo = lo'.

(** ** Further examples *)

Module Example2.

(** The lines cut into windows of two words. *)
Definition pairs : Chunks :=
  Eval vm_compute in
    match FixedSizeChunk_call Example.hash "line" 2 0 "left" Example.store Example.self with
    | Ok c => c
    | Err _ => Example.line
    end.

(** The same, with their text. *)
Definition pairs_text : Chunks :=
  Eval vm_compute in
    match Chunks_enrich Example.hash Example.finditer Example.keep_order
            Example.findall_len [("text", SimpleStringify " ")] Example.store pairs with
    | Ok c => c
    | Err _ => Example.line
    end.

End Example2.

(** ** Vocabulary of the statements about attribute expressions *)

(** The membership rows of chunk [k] in [c], each paired with the membership
    rows of [b] that name the same atom and a chunk of [b]. *)
Definition shared_pairs (c b : Chunks) (k : value) : list (row * row) :=
  ca ← filter (λ ca, get "chunk" ca = k) (rows (chunk_atoms c));
  (λ cb, (ca, cb)) <$>
    filter (λ cb, pl.joins (get "atom" ca) (get "atom" cb) ∧ get "chunk" cb ≠ VNull)
      (rows (chunk_atoms b)).



(** * Properties *)

(** ** The [result] monad *)

Lemma bind_Ok {A B} (m : result A) (f : A → result B) (b : B) :
  m ≫= f = Ok b ↔ ∃ a, m = Ok a ∧ f a = Ok b.
Proof.
  destruct m as [a|e]; simpl; split.
  - intros Hf. by exists a.
  - by intros (a' & [= <-] & Hf).
  - done.
  - by intros (a' & ? & _).
Qed.

Lemma mapM_result_Ok {A B} (f : A → result B) (l : list A) (l' : list B) :
  mapM_result f l = Ok l' ↔ Forall2 (λ x y, f x = Ok y) l l'.
Proof.
  revert l'. induction l as [|x l IH]; intros l'; simpl.
  - split; [intros [= <-]; constructor | by inversion 1].
  - rewrite bind_Ok. split.
    + intros (y & Hy & Hrest). apply bind_Ok in Hrest as (ys & Hys & [= <-]).
      constructor; [done | by apply IH].
    + inversion 1 as [|? y ? ys Hy Hys]; subst. exists y. split; [done|].
      apply bind_Ok. exists ys. split; [by apply IH | done].
Qed.

Lemma mapM_result_total {A B} (f : A → result B) (g : A → B) (l : list A) :
  Forall (λ x, f x = Ok (g x)) l → mapM_result f l = Ok (g <$> l).
Proof.
  intros Hl. apply mapM_result_Ok. induction Hl; constructor; auto.
Qed.

Lemma mapM_result_length {A B} (f : A → result B) (l : list A) (l' : list B) :
  mapM_result f l = Ok l' → length l' = length l.
Proof. intros Hl%mapM_result_Ok. symmetry. by eapply Forall2_length. Qed.

(** Closing a decidable goal on concrete data by evaluation. *)
Ltac by_evaluation := apply (bool_decide_unpack _); vm_compute; exact I.

Ltac inv_bind H :=
  repeat match type of H with
         | _ ≫= _ = Ok _ =>
             let a := fresh "a" in
             let Ha := fresh "Ha" in
             apply bind_Ok in H as (a & Ha & H)
         end.

(** ** Tables *)

Lemma has_column_true n t : has_column n t = true ↔ n ∈ names t.
Proof. unfold has_column. by rewrite bool_decide_eq_true. Qed.

Lemma has_column_false n t : has_column n t = false ↔ n ∉ names t.
Proof. unfold has_column. by rewrite bool_decide_eq_false. Qed.

Lemma column_Ok n t vs :
  pa.column n t = Ok vs ↔ n ∈ names t ∧ vs = get n <$> rows t.
Proof.
  unfold pa.column. destruct (has_column n t) eqn:Hn.
  - apply has_column_true in Hn. split; [by intros [= <-] | by intros [_ ->]].
  - apply has_column_false in Hn. split; [done | by intros [? _]].
Qed.


Lemma take_Ok idxs t t' :
  pa.take idxs t = Ok t' ↔
  names t' = names t ∧ Forall2 (λ i r, rows t !! i = Some r) idxs (rows t').
Proof.
  unfold pa.take. rewrite bind_Ok. split.
  - intros (rs & Hrs & [= <-]). split; [done|]. simpl.
    apply mapM_result_Ok in Hrs. eapply Forall2_impl; [exact Hrs|].
    intros i r. simpl. by destruct (rows t !! i); intros [= ->].
  - intros [Hn Hrs]. exists (rows t'). split.
    + apply mapM_result_Ok. eapply Forall2_impl; [exact Hrs|].
      intros i r ->. done.
    + destruct t'; simpl in *. by subst.
Qed.

(** Rows picked at pairwise distinct positions are a sub-multiset. *)
Lemma lookups_submseteq {A} (idxs : list nat) (l rs : list A) :
  NoDup idxs → Forall2 (λ i r, l !! i = Some r) idxs rs → rs ⊆+ l.
Proof.
  revert idxs l. induction rs as [|r rs IH]; intros idxs l Hnd Hrs.
  { apply submseteq_nil_l. }
  inversion Hrs as [|i ? is_ ? Hi His]; subst.
  apply NoDup_cons in Hnd as [Hnotin Hnd].
  rewrite (delete_Permutation l i r Hi). apply submseteq_skip.
  set (shift := λ j : nat, if decide (j < i)%nat then j else pred j).
  apply (IH (shift <$> is_)).
  - apply NoDup_fmap_2_strong; [|done].
    intros x y Hx Hy. unfold shift.
    assert (x ≠ i) by (intros ->; done). assert (y ≠ i) by (intros ->; done).
    repeat case_decide; lia.
  - apply Forall2_fmap_l.
    assert (Forall (λ j, j ≠ i) is_) as Hne.
    { apply Forall_forall. intros j Hj ->. done. }
    clear -His Hne. subst shift. induction His as [|j r' is_ rs Hj His IH]; [constructor|].
    apply Forall_cons in Hne as [Hji Hne]. constructor; [|by apply IH].
    simpl. destruct (decide (j < i)%nat).
    + by rewrite list_lookup_delete_lt.
    + rewrite list_lookup_delete_ge by lia. rewrite <-Hj. f_equal. lia.
Qed.

Lemma forallb_Forall {A} (f : A → bool) (l : list A) :
  Forall (λ x, f x = true) l → forallb f l = true.
Proof. induction 1 as [|x l Hx _ IH]; [done|]. simpl. by rewrite Hx, IH. Qed.

Lemma filter_rows_sublist mask (rs : list row) : pa.filter_rows mask rs `sublist_of` rs.
Proof.
  revert mask. induction rs as [|r rs IH]; intros [|[[]|] mask]; simpl;
    try apply sublist_nil_l; try (by apply sublist_cons); by apply sublist_skip.
Qed.

(** ** filters.py *)

Section filter_facts.

Variable cast_kernel : string → list value → list value → result (list (option bool)).
Variable select_k_impl : list value → nat → pc.sort_order → list nat.



(** Every filter that returns hands back a table whose rows are taken from
    the input's: by a mask for [Threshold] and [EqualTo], at the selected
    positions for [TopK]. *)
Lemma ChunkFilter_call_Ok f c c' :
  ChunkFilter_call cast_kernel select_k_impl f c = Ok c' →
  corpus c' = corpus c ∧ chunk_atoms c' = chunk_atoms c ∧
  names (chunks c') = names (chunks c) ∧
  ((∃ mask, rows (chunks c') = pa.filter_rows mask (rows (chunks c))) ∨
   (∃ attr k reverse, f = TopK attr k reverse ∧
      Forall2 (λ i r, rows (chunks c) !! i = Some r)
        (select_k_impl (get attr <$> rows (chunks c)) (Z.to_nat k)
           (if reverse then pc.Ascending else pc.Descending))
        (rows (chunks c')))).
Proof.
  destruct f as [attr k reverse|attr direction v|attr vs]; simpl.
  - unfold TopK_call. intros H. inv_bind H. injection H as <-. simpl.
    apply column_Ok in Ha as [_ ->].
    unfold select_k_unstable in Ha0. case_decide; [done|]. injection Ha0 as <-.
    apply take_Ok in Ha1 as [Hn Hrs]. repeat split; [done|].
    right. by exists attr, k, reverse.
  - unfold Threshold_call. intros H. inv_bind H. injection H as <-. simpl.
    repeat split. left. by eexists.
  - unfold EqualTo_call. intros H. inv_bind H. injection H as <-. simpl.
    repeat split. left. by eexists.
Qed.

End filter_facts.

(** C6.  Whatever a chunk filter returns has at most as many chunk rows as
    its input, these rows are a sub-multiset of the input's rows (a subset,
    possibly reordered), the column names are the input's, and [chunk_atoms]
    and the corpus reference are the input's. *)
Theorem filters_only_subset_rows
    (cast_kernel : string → list value → list value → result (list (option bool)))
    (select_k_impl : list value → nat → pc.sort_order → list nat)
    (f : ChunkFilter) (c c' : Chunks) :
  distinct_picks select_k_impl f c →
  ChunkFilter_call cast_kernel select_k_impl f c = Ok c' →
  (Chunks_len c' ≤ Chunks_len c)%nat ∧
  rows (chunks c') ⊆+ rows (chunks c) ∧
  names (chunks c') = names (chunks c) ∧
  chunk_atoms c' = chunk_atoms c ∧
  corpus c' = corpus c.
Proof.
  intros Hpicks Hcall.
  apply ChunkFilter_call_Ok in Hcall as (Hcorpus & Hatoms & Hnames & Hrows).
  assert (rows (chunks c') ⊆+ rows (chunks c)) as Hsub.
  { destruct Hrows as [[mask ->]|(attr & k & reverse & -> & Hrs)].
    - apply sublist_submseteq, filter_rows_sublist.
    - eapply lookups_submseteq; [exact Hpicks | exact Hrs]. }
  repeat split; try done.
  unfold Chunks_len, pa.len. by apply submseteq_length.
Qed.

Lemma filters_only_subset_rows_witness :
  (Chunks_len (mkChunks Example.self
                 (mkTable ["id"; "ordinal"; "width"]
                    [Example.line_row 2 200; Example.line_row 1 110])
                 (chunk_atoms Example.line)) ≤ Chunks_len Example.line)%nat ∧
  [Example.line_row 2 200; Example.line_row 1 110] ⊆+ rows (chunks Example.line) ∧
  ["id"; "ordinal"; "width"] = names (chunks Example.line) ∧
  chunk_atoms Example.line = chunk_atoms Example.line ∧
  Example.self = corpus Example.line.
Proof.
  apply (filters_only_subset_rows Example.cast_kernel Example.select_k (TopK "width" 2 false) Example.line
           (mkChunks Example.self
              (mkTable ["id"; "ordinal"; "width"]
                 [Example.line_row 2 200; Example.line_row 1 110])
              (chunk_atoms Example.line))).
  - unfold distinct_picks. by_evaluation.
  - vm_compute. reflexivity.
Defined.

(** *** The mask filters on typed columns *)








Section mask_filters.

Variable cast_kernel : string → list value → list value → result (list (option bool)).
Variable select_k_impl : list value → nat → pc.sort_order → list nat.




End mask_filters.








(** ** exprs.py on concrete chunk collections *)

(** C1 at failing inputs.  After [Threshold("ordinal", "<=", 2)] the lines
    have two chunk rows; [ChunkOverlap] aggregates over [chunk_atoms], which
    the filter left untouched, and returns four values, so that
    [Chunks.select] cannot append them.  [AtomData] joins the chunk rows with
    their atoms by inner joins and returns four values for five lines, of
    which one holds no atom: the values of the last two lines are shifted to
    rows 3 and 4. *)
Theorem attribute_exprs_lose_row_alignment :
  Chunks_filter Example.cast_kernel Example.select_k [Threshold "ordinal" "<=" (VInt 2)] Example.line
    = Ok Example.first_lines ∧
  Chunks_len Example.first_lines = 2%nat ∧
  ChunkOverlap_call Example.hash Example.finditer Example.keep_order
    (ByName "paragraph") "count" Example.store Example.first_lines
    = Ok [VInt 2; VInt 3; VInt 2; VInt 2] ∧
  Chunks_select Example.hash Example.finditer Example.keep_order Example.findall_len
    ["ordinal"] [("overlap", inr (ChunkOverlap (ByName "paragraph") "count"))]
    Example.store Example.first_lines
    = Err (ArrowInvalid "Added column's length must match table's length") ∧
  Chunks_len Example.lines_and_blank = 5%nat ∧
  AtomData_call Example.keep_order "text" Example.store Example.lines_and_blank
    = Ok [VList [VStr "The"; VStr "(quick)"];
          VList [VStr "[brown]"; VStr "fox"; VStr "jumps!"];
          VList [VStr "Over"; VStr "the"];
          VList [VStr "<lazy>"; VStr "dog"]].
Proof. repeat split; vm_compute; reflexivity. Qed.

(** C5 at a failing input.  The third of five lines holds no word.
    [SimpleStringify] gives a null for it where the claim promises the empty
    string; [ChunkDelimitedStringify] gives the empty string on the same
    chunks, and [RegexCount], which is documented to take a stringifier that
    returns one string per chunk, fails on the null. *)
Theorem SimpleStringify_blank_chunk_is_null :
  rows (chunks Example.lines_and_blank) !! 2%nat = Some (Example.line_row 5 0) ∧
  filter (λ r, get "chunk" r = VInt 5) (rows (chunk_atoms Example.lines_and_blank)) = [] ∧
  SimpleStringify_call Example.keep_order " " Example.store Example.lines_and_blank
  = Ok [VStr "The (quick)"; VStr "[brown] fox jumps!"; VNull;
        VStr "Over the"; VStr "<lazy> dog"] ∧
  ChunkDelimitedStringify_call Example.hash Example.finditer Example.keep_order
    [("line", "/")] " " Example.store Example.lines_and_blank
  = Ok [VStr "The (quick)"; VStr "[brown] fox jumps!"; VStr "";
        VStr "Over the"; VStr "<lazy> dog"] ∧
  AttrExpr_call Example.hash Example.finditer Example.keep_order Example.findall_len
    (RegexCount (SimpleStringify " ") "o" 0) Example.store Example.lines_and_blank
  = Err (TypeError "expected string or bytes-like object").
Proof. repeat split; vm_compute; reflexivity. Qed.

(** C9 at a failing input.  The chunk's members are listed as words 3, 1, 2.
    The delimiter after a word is chosen against the next row of the group,
    and the last row gets the empty string; the cells are put in reading
    order only afterwards.  Word 3, last in reading order and first in the
    table, is followed by the line delimiter, and nothing separates words 2
    and 3 although they lie on different lines. *)
Theorem ChunkDelimitedStringify_delimits_by_row_order :
  get "atom" <$> rows (chunk_atoms Example.unordered) = [VInt 103; VInt 101; VInt 102] ∧
  ChunkDelimitedStringify_call Example.hash Example.finditer Example.keep_order
    [("line", "/")] "?" Example.store Example.unordered
    = Ok [VStr "The?(quick)[brown]/"] ∧
  SimpleStringify_call Example.keep_order "?" Example.store Example.unordered
    = Ok [VStr "The?(quick)?[brown]"].
Proof. repeat split; vm_compute; reflexivity. Qed.

(** ** Corpus.merge and the chunkers on concrete corpora *)

(** C2 at a failing input.  Two corpora with the same columns; both
    register [document] and [paragraph], only the first registers [line].
    [merge] collects the union of the registered names and then looks each of
    them up in every input, so it raises [KeyError] where the claim promises
    a merged corpus whose [line] entry holds the lines of the first; and it
    does so in whatever order the names are visited. *)
Theorem merge_needs_every_name_everywhere (key_rank : string → nat) :
  Example.two_corpora !! 0%nat = Some Example.corpus_ ∧
  Example.two_corpora !! 1%nat = Some Example.other_corpus ∧
  names (atoms Example.other_corpus) = names (atoms Example.corpus_) ∧
  is_Some (registry Example.corpus_ !! "line") ∧
  registry Example.other_corpus !! "line" = None ∧
  is_Some (registry Example.other_corpus !! "document") ∧
  is_Some (registry Example.other_corpus !! "paragraph") ∧
  merge Example.same_types key_rank Example.two_corpora [0%nat; 1%nat]
  = Err (KeyError "line").
Proof.
  repeat split; try (vm_compute; reflexivity); try (by eexists).
  unfold merge.
  assert (mapM_result (deref Example.two_corpora) [0%nat; 1%nat]
          = Ok [Example.corpus_; Example.other_corpus]) as ->
    by (vm_compute; reflexivity).
  cbn [mbind result_bind].
  assert (pa.concat_tables Example.same_types
            (atoms <$> [Example.corpus_; Example.other_corpus])
          = Ok (mkTable ["id"; "ordinal"; "text"]
                  ((atoms <$> [Example.corpus_; Example.other_corpus]) ≫= rows))) as ->
    by reflexivity.
  cbn [mbind result_bind].
  set (keys := ⋃ ((λ corp, dom (registry corp))
                    <$> [Example.corpus_; Example.other_corpus]) : gset string).
  assert (∀ k, k ∈ iteration_order key_rank keys ↔
               k ∈ ["document"; "line"; "paragraph"]) as Hkeys.
  { intros k. unfold iteration_order. rewrite merge_sort_Permutation, elem_of_elements.
    assert (keys = list_to_set ["document"; "line"; "paragraph"]) as ->
      by (vm_compute; reflexivity).
    by rewrite elem_of_list_to_set. }
  assert ("line" ∈ iteration_order key_rank keys) as Hline
    by (apply Hkeys; by_evaluation).
  assert (Forall (λ k, k ∈ ["document"; "line"; "paragraph"])
            (iteration_order key_rank keys)) as Hall
    by (apply Forall_forall; intros k; apply Hkeys).
  set (step := λ (reg : gmap string Chunks) (k : string), _).
  enough (∀ ks reg, "line" ∈ ks →
            Forall (λ k, k ∈ ["document"; "line"; "paragraph"]) ks →
            foldM_result step reg ks = Err (KeyError "line")) as Hfold
    by by rewrite Hfold.
  clear. induction ks as [|k ks IH]; intros reg Hline Hall.
  { by apply elem_of_nil in Hline. }
  apply Forall_cons in Hall as [Hk Hall]. cbn [foldM_result].
  repeat (apply elem_of_cons in Hk as [->|Hk]); [| |  |by apply elem_of_nil in Hk].
  - assert (∃ ch, step reg "document" = Ok (<["document" := ch]> reg)) as [ch ->]
      by (eexists; reflexivity).
    cbn [mbind result_bind]. apply IH; [|done].
    by apply elem_of_cons in Hline as [?|?].
  - reflexivity.
  - assert (∃ ch, step reg "paragraph" = Ok (<["paragraph" := ch]> reg)) as [ch ->]
      by (eexists; reflexivity).
    cbn [mbind result_bind]. apply IH; [|done].
    by apply elem_of_cons in Hline as [?|?].
Qed.

(** C7, as the specification states it, fails: a bounding chunk of two atoms
    whose ordinals are 1 and 3 yields two chunks of one atom each for
    [size=2], where [ceil(2/2)] is one. *)
Lemma FixedSizeChunk_counts_ordinals_not_atoms :
  get "atom" <$> rows (chunk_atoms
                         (default Example.document
                            (registry Example.gapped_corpus !! "document")))
    = [VInt 101; VInt 103] ∧
  ∃ out, FixedSizeChunk_call Example.hash "document" 2 0 "left"
           Example.gapped_store Example.self = Ok out ∧
         Chunks_len out = 2%nat ∧
         get "chunk" <$> rows (chunk_atoms out)
           = [VList [VStr "abc123"; VInt 1]; VList [VStr "abc123"; VInt 3]].
Proof.
  split; [vm_compute; reflexivity|].
  eexists. split; [vm_compute; reflexivity|]. split; reflexivity.
Qed.

(** ** Rows and the order on cells *)

Lemma get_app n (a b : row) :
  get n (a ++ b) = if decide (n ∈ a.*1) then get n a else get n b.
Proof.
  induction a as [|[k v] a IH].
  - destruct (decide (n ∈ ([] : row).*1)) as [Hin|Hin]; [|done].
    by apply elem_of_nil in Hin.
  - change (((k, v) :: a) ++ b) with ((k, v) :: (a ++ b)).
    change (((k, v) :: a).*1) with (k :: a.*1).
    cbn [get]. destruct (decide (k = n)) as [->|Hk].
    + destruct (decide (n ∈ n :: a.*1)) as [Hin|Hin]; [done|].
      exfalso. apply Hin, list_elem_of_here.
    + rewrite IH. destruct (decide (n ∈ a.*1)) as [Hin|Hin];
        destruct (decide (n ∈ k :: a.*1)) as [Hin'|Hin']; try done.
      * exfalso. by apply Hin', list_elem_of_further.
      * apply elem_of_cons in Hin' as [?|?]; congruence.
Qed.

Lemma get_fmap (key : string → string) (cell : string → value) (ns : list string) n :
  n ∈ ns → (∀ m, m ∈ ns → key m = key n → m = n) →
  get (key n) ((λ m, (key m, cell m)) <$> ns) = cell n.
Proof.
  induction ns as [|m ns IH]; intros Hn Hinj; [by apply elem_of_nil in Hn|].
  simpl. destruct (decide (key m = key n)) as [Hm|Hm].
  - f_equal. apply Hinj; [apply list_elem_of_here | done].
  - apply elem_of_cons in Hn as [->|Hn]; [done|].
    apply IH; [done|]. intros m' Hm'. apply Hinj. by apply list_elem_of_further.
Qed.

Lemma get_fmap_None (key : string → string) (cell : string → value) (ns : list string) n :
  n ∉ key <$> ns → get n ((λ m, (key m, cell m)) <$> ns) = VNull.
Proof.
  induction ns as [|m ns IH]; intros Hn; [done|]. simpl.
  apply not_elem_of_cons in Hn as [Hm Hn]. rewrite decide_False by done. by apply IH.
Qed.

Lemma get_project ns r n : n ∈ ns → get n (project ns r) = get n r.
Proof.
  intros Hn. unfold project. by apply (get_fmap id (λ m, get m r)).
Qed.

Lemma project_keys ns r : (project ns r).*1 = ns.
Proof. unfold project. rewrite <-list_fmap_compose. apply list_fmap_id. Qed.

Lemma value_compare_antisym a b c :
  pc.value_compare a b = Some c → pc.value_compare b a = Some (CompOpp c).
Proof.
  destruct a, b; simpl; intros [= <-]; f_equal;
    first [ apply Z.compare_antisym | apply Qcompare_antisym
          | apply String.compare_antisym ].
Qed.

Lemma value_compare_None a b :
  pc.value_compare a b = None → pc.value_compare b a = None.
Proof. by destruct a, b. Qed.

#[global] Instance value_le_total : Total pl.value_le.
Proof.
  intros a b. unfold pl.value_le.
  destruct (pc.value_compare a b) as [c|] eqn:Hab.
  - rewrite (value_compare_antisym _ _ _ Hab). destruct c; simpl; auto.
  - rewrite (value_compare_None _ _ Hab). lia.
Qed.

Lemma string_compare_trans (a b c : string) :
  String.compare a b ≠ Gt → String.compare b c ≠ Gt → String.compare a c ≠ Gt.
Proof.
  revert b c. induction a as [|x a IH]; intros [|y b] [|z c]; simpl; try done.
  unfold Ascii.compare.
  destruct (N.compare_spec (N_of_ascii x) (N_of_ascii y)) as [Hxy|Hxy|Hxy];
    destruct (N.compare_spec (N_of_ascii y) (N_of_ascii z)) as [Hyz|Hyz|Hyz];
    try done.
  - rewrite Hxy, Hyz, N.compare_refl. apply IH.
  - rewrite Hxy. intros _ _. by rewrite (proj2 (N.compare_lt_iff _ _) Hyz).
  - rewrite <-Hyz. intros _ _. by rewrite (proj2 (N.compare_lt_iff _ _) Hxy).
  - intros _ _. by rewrite (proj2 (N.compare_lt_iff _ _) (N.lt_trans _ _ _ Hxy Hyz)).
Qed.

#[global] Instance value_le_trans : Transitive pl.value_le.
Proof.
  intros a b c. unfold pl.value_le.
  destruct a, b, c; simpl; try done; try lia;
    try apply string_compare_trans;
    rewrite ?Z.compare_le_iff, <-?Qle_alt, ?Zle_Qle;
    try (intros; eapply Qle_trans; eassumption).
Qed.

(** ** chunkers.py: the joined frame *)

Lemma registry_lookup_Ok corp name b :
  registry_lookup corp name = Ok b ↔ registry corp !! name = Some b.
Proof.
  unfold registry_lookup. destruct (registry corp !! name); split; congruence.
Qed.

Lemma joined_Ok corp constrain_to bounding :
  registry corp !! constrain_to = Some bounding →
  names (chunk_atoms bounding) = ["chunk"; "atom"] →
  "id" ∈ names (atoms corp) →
  joined corp constrain_to
  = Ok (mkTable (["constraint"; "atom"]
                 ++ (joined_name <$> filter (λ n, n ≠ "id") (names (atoms corp))))
          (joined_rows bounding corp)).
Proof.
  intros Hreg Hnames Hid. unfold joined.
  rewrite (proj2 (registry_lookup_Ok _ _ _) Hreg). simpl.
  destruct (chunk_atoms bounding) as [ns rs] eqn:Hca. simpl in Hnames. subst ns.
  unfold joined_rows. rewrite Hca. clear Hca. simpl.
  unfold pl.join. simpl.
  rewrite (proj2 (has_column_true _ _) Hid). simpl.
  f_equal. f_equal. induction rs as [|ca rs IH]; [done|].
  simpl. exact (f_equal2 app eq_refl IH).
Qed.

Lemma joined_name_neq n m :
  m ∈ ["ordinal"; "text"] → joined_name n = m → n = m.
Proof.
  unfold joined_name. case_bool_decide as Hn; [|done].
  intros Hm Heq. exfalso.
  repeat (apply elem_of_cons in Hn as [->|Hn]); [..|by apply elem_of_nil in Hn];
    repeat (apply elem_of_cons in Hm as [->|Hm]); try done;
    by apply elem_of_nil in Hm.
Qed.

Lemma joined_names_elem (atom_names : list string) m :
  m ∈ ["ordinal"; "text"] →
  m ∈ ["constraint"; "atom"] ++ (joined_name <$> filter (λ n, n ≠ "id") atom_names) ↔
  m ∈ atom_names.
Proof.
  intros Hm. rewrite elem_of_app, list_elem_of_fmap. split.
  - intros [Hin|(n & Hn & Hin)].
    + exfalso.
      repeat (apply elem_of_cons in Hm as [->|Hm]); [..|by apply elem_of_nil in Hm];
        repeat (apply elem_of_cons in Hin as [?|Hin]; [done|]);
        by apply elem_of_nil in Hin.
    + symmetry in Hn. apply (joined_name_neq _ _ Hm) in Hn as ->.
      by apply list_elem_of_filter in Hin as [_ ?].
  - intros Hin. right. exists m. split.
    + unfold joined_name. rewrite bool_decide_eq_false_2; [done|].
      intros Hc.
      repeat (apply elem_of_cons in Hm as [->|Hm]); [..|by apply elem_of_nil in Hm];
        repeat (apply elem_of_cons in Hc as [?|Hc]; [done|]);
        by apply elem_of_nil in Hc.
    + apply list_elem_of_filter. split; [|done]. intros ->.
      repeat (apply elem_of_cons in Hm as [?|Hm]; [done|]). by apply elem_of_nil in Hm.
Qed.

Lemma deref_Ok (h : heap) l corp : h !! l = Some corp → deref h l = Ok corp.
Proof. unfold deref. by intros ->. Qed.

Lemma sort_Ok by_ t :
  Forall (λ n, n ∈ names t) by_ →
  pl.sort by_ t = Ok (mkTable (names t) (pl.sort_rows by_ (rows t))).
Proof.
  intros Hby. unfold pl.sort.
  destruct (list_find _ by_) as [[i n]|] eqn:Hfind; [|done].
  apply list_find_Some in Hfind as (Hn & Hnot & _).
  rewrite Forall_forall in Hby. exfalso. apply Hnot, Hby.
  by eapply list_elem_of_lookup_2.
Qed.

Lemma indices_without_text sorted :
  "constraint" ∈ names sorted → "atom" ∈ names sorted → "text" ∉ names sorted →
  indices sorted = Err (ColumnNotFoundError "text").
Proof.
  intros Hc Ha Ht. unfold indices, pl.select. simpl.
  rewrite decide_False by (intros Hn; by apply Hn).
  rewrite decide_False by (intros Hn; by apply Hn).
  by rewrite decide_True.
Qed.

(** C3.  A chunk expression applied to a corpus whose atom table lacks a
    column it reads fails, so no chunk collection is produced.  When the
    column is [ordinal] the failure is the [KeyError] raised by the
    expression's own check; when it is [text] (for [RegexMatchChunk], on a
    corpus with [id] and [ordinal] columns and a registered bounding
    collection) it is Polars' [ColumnNotFoundError].  Either error names the
    missing column. *)
Theorem chunkers_fail_on_missing_column
    (hash : list value → value)
    (re_finditer : string → string → result (list (Z * Z)))
    (reorder : ∀ A : Type, list A → list A)
    (h : heap) (l : loc) (corp : Corpus) (e : ChunkExpr) (col : string) :
  h !! l = Some corp →
  normalized corp →
  col ∈ required_columns e →
  col ∉ names (atoms corp) →
  is_Err (ChunkExpr_call hash re_finditer reorder e h l) ∧
  names_column (missing_column_error e col) col ∧
  (col = "ordinal" ∨
   ("ordinal" ∈ names (atoms corp) ∧ "id" ∈ names (atoms corp) ∧
    is_Some (registry corp !! constraint_of e)) →
   ChunkExpr_call hash re_finditer reorder e h l = Err (missing_column_error e col)).
Proof.
  intros Hh Hnorm Hcol Hmissing.
  assert (col = "ordinal" →
          ChunkExpr_call hash re_finditer reorder e h l
          = Err (KeyError (ordinal_message e))) as Hordinal.
  { intros ->. apply has_column_false in Hmissing.
    destruct e; simpl; unfold FixedSizeChunk_call, RegexMatchChunk_call;
      rewrite (deref_Ok _ _ _ Hh); simpl; by rewrite Hmissing. }
  assert (names_column (missing_column_error e col) col) as Hnames.
  { destruct e; simpl in Hcol;
      repeat (apply elem_of_cons in Hcol as [->|Hcol]);
      try (by apply elem_of_nil in Hcol); vm_compute; by eexists. }
  destruct (decide (col = "ordinal")) as [->|Hne].
  { split; [|split; [done|]].
    - eexists. by apply Hordinal.
    - intros _. unfold missing_column_error. rewrite decide_True by done.
      by apply Hordinal. }
  destruct e as [constrain_to size offset closed|constrain_to pattern];
    simpl in Hcol.
  { apply list_elem_of_singleton in Hcol. done. }
  apply elem_of_cons in Hcol as [->|Hcol]; [done|].
  apply list_elem_of_singleton in Hcol as ->.
  assert (∀ bounding, "ordinal" ∈ names (atoms corp) → "id" ∈ names (atoms corp) →
            registry corp !! constrain_to = Some bounding →
            RegexMatchChunk_call hash re_finditer reorder constrain_to pattern h l
            = Err (ColumnNotFoundError "text")) as Htext.
  { intros bounding Hord Hid Hreg. unfold RegexMatchChunk_call.
    rewrite (deref_Ok _ _ _ Hh). simpl.
    rewrite (proj2 (has_column_true _ _) Hord). simpl.
    rewrite (joined_Ok _ _ _ Hreg (Hnorm _ _ Hreg) Hid).
    set (jn := ["constraint"; "atom"]
               ++ (joined_name <$> filter (λ n, n ≠ "id") (names (atoms corp)))).
    assert ("constraint" ∈ jn) as Hjc by (apply elem_of_app; left; by_evaluation).
    assert ("atom" ∈ jn) as Hja by (apply elem_of_app; left; by_evaluation).
    assert ("ordinal" ∈ jn) as Hjo
      by (apply joined_names_elem; [by_evaluation|done]).
    assert ("text" ∉ jn) as Hjt.
    { intros Hin. apply Hmissing.
      by apply (joined_names_elem (names (atoms corp)) "text"); [by_evaluation|]. }
    cbn [mbind result_bind].
    rewrite sort_Ok by (constructor; [exact Hjc|constructor; [exact Hjo|constructor]]).
    cbn [mbind result_bind].
    by rewrite indices_without_text. }
  split; [|split; [done|]].
  - unfold ChunkExpr_call, RegexMatchChunk_call. rewrite (deref_Ok _ _ _ Hh). simpl.
    destruct (has_column "ordinal" (atoms corp)) eqn:Hord; simpl; [|by eexists].
    apply has_column_true in Hord.
    destruct (registry corp !! constrain_to) as [bounding|] eqn:Hreg.
    + destruct (decide ("id" ∈ names (atoms corp))) as [Hid|Hid].
      * specialize (Htext bounding Hord Hid eq_refl).
        unfold RegexMatchChunk_call in Htext.
        rewrite (deref_Ok _ _ _ Hh) in Htext. simpl in Htext.
        rewrite (proj2 (has_column_true _ _) Hord) in Htext. simpl in Htext.
        rewrite Htext. by eexists.
      * unfold joined. rewrite (proj2 (registry_lookup_Ok _ _ _) Hreg). simpl.
        pose proof (Hnorm _ _ Hreg) as Hschema. simpl in Hschema. revert Hschema.
        destruct (chunk_atoms bounding) as [ns rs]. simpl. intros ->.
        simpl. unfold pl.join. simpl.
        rewrite (proj2 (has_column_false _ _) Hid). simpl. by eexists.
    + unfold joined, registry_lookup. rewrite Hreg. simpl. by eexists.
  - intros [?|(Hord & Hid & [bounding Hreg])]; [done|].
    simpl. unfold missing_column_error. rewrite decide_False by done.
    by eapply Htext.
Qed.

Lemma chunkers_fail_on_missing_column_witness :
  is_Err (ChunkExpr_call Example.hash Example.finditer Example.keep_order
            (RegexMatchChunk "document" "fox") Example.textless_store Example.self) ∧
  names_column (missing_column_error (RegexMatchChunk "document" "fox") "text") "text" ∧
  ("text" = "ordinal" ∨
   ("ordinal" ∈ names (atoms Example.textless_corpus) ∧
    "id" ∈ names (atoms Example.textless_corpus) ∧
    is_Some (registry Example.textless_corpus !! constraint_of (RegexMatchChunk "document" "fox"))) →
   ChunkExpr_call Example.hash Example.finditer Example.keep_order
     (RegexMatchChunk "document" "fox") Example.textless_store Example.self
   = Err (missing_column_error (RegexMatchChunk "document" "fox") "text")).
Proof.
  apply (chunkers_fail_on_missing_column Example.hash Example.finditer
           Example.keep_order Example.textless_store Example.self
           Example.textless_corpus (RegexMatchChunk "document" "fox") "text").
  - reflexivity.
  - unfold normalized. by_evaluation.
  - by_evaluation.
  - by_evaluation.
Defined.

(** ** exprs.py: SimpleStringify *)

Lemma str_join_Ok delimiter (vs : list value) :
  Forall is_text vs →
  pl.str_join delimiter vs = Ok (VStr (String.concat delimiter (texts_of vs))).
Proof.
  intros Hvs. unfold pl.str_join.
  assert (pl.strings_of vs = Ok (texts_of vs)) as ->; [|done].
  induction Hvs as [|v vs [->|[s ->]] _ IH]; simpl; [done|done|].
  by rewrite IH.
Qed.

Lemma filter_all {A} (P : A → Prop) `{!∀ x, Decision (P x)} (l : list A) :
  Forall P l → filter P l = l.
Proof.
  induction 1 as [|x l Hx _ IH]; [done|]. rewrite filter_cons_True by done.
  by rewrite IH.
Qed.

Lemma filter_none {A} (P : A → Prop) `{!∀ x, Decision (P x)} (l : list A) :
  Forall (λ x, ¬ P x) l → filter P l = [].
Proof.
  induction 1 as [|x l Hx _ IH]; [done|]. by rewrite filter_cons_False.
Qed.

Lemma filter_bind_key {A B} `{EqDecision K} (key : B → K) (kf : A → K)
    (E : A → list B) (k : K) (l : list A) :
  (∀ r e, e ∈ E r → key e = kf r) →
  filter (λ e, key e = k) (l ≫= E) = filter (λ r, kf r = k) l ≫= E.
Proof.
  intros Hkey. induction l as [|r l IH]; [done|].
  rewrite bind_cons, filter_app, IH, filter_cons.
  destruct (decide (kf r = k)) as [Hk|Hk].
  - rewrite bind_cons. f_equal. apply filter_all.
    apply Forall_forall. intros e He. by rewrite (Hkey r e He).
  - rewrite (filter_none _ (E r)); [done|].
    apply Forall_forall. intros e He. by rewrite (Hkey r e He).
Qed.

Lemma filter_NoDup_key {A} `{EqDecision K} (kf : A → K) (l : list A) (x : A) :
  NoDup (kf <$> l) → x ∈ l → filter (λ y, kf y = kf x) l = [x].
Proof.
  induction l as [|y l IH]; intros Hnd Hx; [by apply elem_of_nil in Hx|].
  rewrite fmap_cons in Hnd. apply NoDup_cons in Hnd as [Hy Hnd].
  rewrite filter_cons. apply elem_of_cons in Hx as [->|Hx].
  - rewrite decide_True by done. f_equal. apply filter_none.
    apply Forall_forall. intros z Hz Heq. apply Hy. rewrite <-Heq.
    apply list_elem_of_fmap. by exists z.
  - rewrite decide_False; [by apply IH|].
    intros Heq. apply Hy. rewrite Heq. apply list_elem_of_fmap. by exists x.
Qed.

Lemma filter_fmap {A B} (f : A → B) (P : B → Prop) `{!∀ y, Decision (P y)}
    (l : list A) :
  filter P (f <$> l) = f <$> filter (λ x, P (f x)) l.
Proof.
  induction l as [|x l IH]; [done|]. rewrite fmap_cons, !filter_cons, IH.
  by destruct (decide (P (f x))).
Qed.


Section SimpleStringify_frames.

Variable c : Chunks.
Variable corp : Corpus.
Hypothesis Hchunk_id : "id" ∈ names (chunks c).
Hypothesis Hmembers : names (chunk_atoms c) = ["chunk"; "atom"].
Hypothesis Hid : "id" ∈ names (atoms corp).
Hypothesis Hatom : "atom" ∉ names (atoms corp).






Lemma enriched_row_chunk r ca a :
  get "chunk" (enriched_row (names (atoms corp)) r ca a) = get "id" r.
Proof. reflexivity. Qed.



End SimpleStringify_frames.

(** ** Grouping and sorting *)

Lemma elem_of_unique x l : x ∈ pl.unique l ↔ x ∈ l.
Proof.
  induction l as [|a l IH]; [done|]. simpl.
  rewrite !elem_of_cons, list_elem_of_filter, IH.
  destruct (decide (x = a)) as [->|Hne]; [by split; left|].
  split; [intros [?|[_ ?]]; [done|by right] | intros [?|?]; [done|by right]].
Qed.

Lemma NoDup_unique l : NoDup (pl.unique l).
Proof.
  induction l as [|a l IH]; simpl; [constructor|].
  apply NoDup_cons. split; [|by apply NoDup_filter].
  rewrite list_elem_of_filter. by intros [? _].
Qed.

Lemma group_by_keys key rs : (pl.group_by key rs).*1 = pl.unique (key <$> rs).
Proof.
  unfold pl.group_by. rewrite <-list_fmap_compose. apply list_fmap_id.
Qed.

Lemma elem_of_group_by key rs (g : value * list row) :
  g ∈ pl.group_by key rs ↔
  g.1 ∈ key <$> rs ∧ g.2 = filter (λ r, key r = g.1) rs.
Proof.
  unfold pl.group_by. rewrite list_elem_of_fmap. split.
  - intros (k & -> & Hk). apply (proj1 (elem_of_unique _ _)) in Hk. by split.
  - intros [Hk Hg]. exists g.1. split; [|by apply elem_of_unique].
    destruct g; simpl in *. by subst.
Qed.

Lemma group_by_nonempty key rs (g : value * list row) :
  g ∈ pl.group_by key rs → g.2 ≠ [].
Proof.
  intros [Hk Hg]%elem_of_group_by. apply list_elem_of_fmap in Hk as (r & Hr & Hin).
  rewrite Hg. intros Hnil. eapply (filter_nil_not_elem_of _ _ r); [exact Hnil| |exact Hin].
  done.
Qed.








(** ** The order [sort] puts rows in *)

#[global] Instance value_le_refl : Reflexive pl.value_le.
Proof. intros a. by destruct (value_le_total a a). Qed.

Lemma keys_le_total ks1 ks2 : pl.keys_le ks1 ks2 ∨ pl.keys_le ks2 ks1.
Proof.
  revert ks2. induction ks1 as [|k1 ks1 IH]; intros [|k2 ks2]; simpl; auto.
  destruct (decide (pl.value_le k1 k2 ∧ pl.value_le k2 k1)) as [[H12 H21]|Hne].
  - rewrite decide_True by done. apply IH.
  - destruct (decide (pl.value_le k2 k1 ∧ pl.value_le k1 k2)) as [[? ?]|_];
      [by destruct Hne|]. apply value_le_total.
Qed.

Lemma keys_le_trans ks1 ks2 ks3 :
  length ks1 = length ks2 → length ks2 = length ks3 →
  pl.keys_le ks1 ks2 → pl.keys_le ks2 ks3 → pl.keys_le ks1 ks3.
Proof.
  revert ks2 ks3. induction ks1 as [|k1 ks1 IH]; intros [|k2 ks2] [|k3 ks3];
    simpl; try done.
  intros [= Hl12] [= Hl23].
  destruct (decide (pl.value_le k1 k2 ∧ pl.value_le k2 k1)) as [[H12 H21]|Hne12];
    destruct (decide (pl.value_le k2 k3 ∧ pl.value_le k3 k2)) as [[H23 H32]|Hne23].
  - rewrite decide_True; [by apply IH|].
    split; [by transitivity k2|by transitivity k2].
  - intros _ H23. rewrite decide_False.
    + by transitivity k2.
    + intros [_ H31]. apply Hne23. split; [done|]. by transitivity k1.
  - intros H12 _. rewrite decide_False.
    + by transitivity k2.
    + intros [_ H31]. apply Hne12. split; [done|]. by transitivity k3.
  - intros H12 H23. rewrite decide_False.
    + by transitivity k2.
    + intros [_ H31]. apply Hne12. split; [done|]. by transitivity k3.
Qed.

#[global] Instance row_le_total by_ : Total (pl.row_le by_).
Proof. intros r1 r2. apply keys_le_total. Qed.

#[global] Instance row_le_trans by_ : Transitive (pl.row_le by_).
Proof.
  intros r1 r2 r3. unfold pl.row_le.
  apply keys_le_trans; by rewrite !length_fmap.
Qed.

Lemma sort_rows_Permutation by_ rs : pl.sort_rows by_ rs ≡ₚ rs.
Proof. apply merge_sort_Permutation. Qed.

Lemma sort_rows_StronglySorted by_ rs :
  StronglySorted (pl.row_le by_) (pl.sort_rows by_ rs).
Proof. apply StronglySorted_merge_sort; apply _. Qed.

Lemma StronglySorted_filter {A} (R : relation A) (P : A → Prop)
    `{!∀ x, Decision (P x)} (l : list A) :
  StronglySorted R l → StronglySorted R (filter P l).
Proof.
  induction 1 as [|x l Hl IH Hx]; [constructor|].
  rewrite filter_cons. destruct (decide (P x)); [|done].
  constructor; [done|]. rewrite Forall_forall in Hx |- *.
  intros y Hy. apply Hx. by apply list_elem_of_filter in Hy as [_ ?].
Qed.

(** Within one bounding chunk the sorted rows are in the order of their
    ordinals. *)
Lemma row_le_same_constraint (r1 r2 : row) :
  get "constraint" r1 = get "constraint" r2 →
  pl.row_le ["constraint"; "ordinal"] r1 r2 →
  pl.value_le (get "ordinal" r1) (get "ordinal" r2).
Proof.
  unfold pl.row_le. simpl. intros ->.
  rewrite decide_True by (split; reflexivity).
  destruct (decide _) as [[? _]|]; done.
Qed.

(** ** chunkers.py: FixedSizeChunk *)

Lemma joined_row_get atom_names col ca a :
  col ∈ ["ordinal"; "text"] → col ∈ atom_names →
  get col (joined_row atom_names ca a) = get col a.
Proof.
  intros Hcol Hin. unfold joined_row.
  assert (col ≠ "constraint" ∧ col ≠ "atom" ∧ col ≠ "id") as (? & ? & ?).
  { repeat (apply elem_of_cons in Hcol as [->|Hcol]); [done..|].
    by apply elem_of_nil in Hcol. }
  rewrite get_app. rewrite decide_False.
  2:{ simpl. intros Hc. repeat (apply elem_of_cons in Hc as [?|Hc]; [done|]).
      by apply elem_of_nil in Hc. }
  assert (joined_name col = col) as Hname.
  { unfold joined_name. rewrite bool_decide_eq_false_2; [done|].
    intros Hc. repeat (apply elem_of_cons in Hc as [?|Hc]; [done|]).
    by apply elem_of_nil in Hc. }
  rewrite <-Hname at 1.
  apply (get_fmap joined_name (λ n, get n a)).
  - by apply list_elem_of_filter.
  - intros m _. rewrite Hname. by apply joined_name_neq.
Qed.

Lemma joined_rows_of_constraint bounding corp b :
  b ≠ VNull →
  filter (λ e, get "constraint" e = b) (joined_rows bounding corp)
  = ca ← filter (λ ca, pl.joins b (get "chunk" ca)) (rows (chunk_atoms bounding));
    joined_row (names (atoms corp)) ca <$>
      filter (λ a, pl.joins (get "atom" ca) (get "id" a)) (rows (atoms corp)).
Proof.
  intros Hb. unfold joined_rows.
  rewrite (filter_bind_key (get "constraint") (get "chunk")).
  - f_equal. apply list_filter_iff. intros ca. unfold pl.joins. split.
    + by intros ->.
    + by intros [_ ->].
  - intros ca e He. by apply list_elem_of_fmap in He as (a & -> & _).
Qed.

Lemma joined_rows_ordinals bounding corp b :
  b ≠ VNull → "ordinal" ∈ names (atoms corp) →
  get "ordinal" <$> filter (λ e, get "constraint" e = b) (joined_rows bounding corp)
  = get "ordinal" <$> member_atoms bounding corp b.
Proof.
  intros Hb Hord. rewrite (joined_rows_of_constraint _ _ _ Hb). unfold member_atoms.
  induction (filter _ (rows (chunk_atoms bounding))) as [|ca l IH]; [done|].
  rewrite !bind_cons, !fmap_app, IH. f_equal.
  rewrite <-list_fmap_compose. apply list_fmap_ext. intros _ a _. unfold compose.
  apply joined_row_get; [by_evaluation|done].
Qed.

Lemma last_seqZ m n d : 0 < n → List.last (seqZ m n) d = m + n - 1.
Proof.
  intros Hn. replace n with ((n - 1) + 1) at 1 by lia.
  rewrite seqZ_app by lia. change (seqZ (m + (n - 1)) 1) with [m + (n - 1)].
  rewrite last_last. lia.
Qed.

Lemma filter_seqZ_window (m n lo s : Z) :
  0 < s → m ≤ lo < m + n →
  filter (λ t, lo ≤ t < lo + s) (seqZ m n) = seqZ lo (s `min` (m + n - lo)).
Proof.
  intros Hs Hlo. set (k := s `min` (m + n - lo)).
  replace n with ((lo - m) + (k + (n - (lo - m) - k))) by lia.
  rewrite !seqZ_app by lia. rewrite !filter_app.
  rewrite (filter_none _ (seqZ m (lo - m))).
  2:{ apply Forall_forall. intros t Ht%elem_of_seqZ. lia. }
  rewrite (filter_all _ (seqZ (m + (lo - m)) k)).
  2:{ apply Forall_forall. intros t Ht%elem_of_seqZ. lia. }
  rewrite filter_none.
  2:{ apply Forall_forall. intros t Ht%elem_of_seqZ. lia. }
  rewrite app_nil_r. simpl. f_equal. lia.
Qed.

Lemma omap_total {A B} (f : A → option B) (g : A → B) (l : list A) :
  Forall (λ x, f x = Some (g x)) l → omap f l = g <$> l.
Proof.
  induction 1 as [|x l Hx _ IH]; [done|]. simpl. rewrite Hx. f_equal. exact IH.
Qed.

(** The windows of a group whose index values are [m, m+1, ..., m+n-1], for
    [every = period = s] and [closed="left"]: one window per multiple of [s],
    none of them empty. *)
Lemma dynamic_windows_contiguous (s m n : Z) (g : list (Z * row)) :
  0 < s → 0 < n → g.*1 = seqZ m n →
  dynamic_windows ClosedLeft s s g
  = (λ j, (m + j * s,
           snd <$> filter (λ tr, m + j * s ≤ tr.1 < m + j * s + s) g))
      <$> seqZ 0 ((n - 1) `div` s + 1).
Proof.
  intros Hs Hn Hg. unfold dynamic_windows.
  destruct g as [|[t0 r0] g'] eqn:Heq.
  { rewrite seqZ_cons in Hg by lia. done. }
  rewrite <-Heq in *.
  assert (t0 = m) as ->.
  { rewrite Heq in Hg. rewrite seqZ_cons in Hg by lia. by injection Hg. }
  rewrite Hg, (last_seqZ _ _ _ Hn). unfold window_starts.
  replace (m + n - 1 - m) with (n - 1) by lia.
  rewrite (omap_total _
             (λ lo, (lo, snd <$> filter (λ tr : Z * row, lo ≤ tr.1 < lo + s) g))).
  { rewrite <-list_fmap_compose. reflexivity. }
  apply Forall_forall. intros lo (j & -> & Hj%elem_of_seqZ)%list_elem_of_fmap.
  assert (0 ≤ (n - 1) `div` s) by (apply Z.div_pos; lia).
  assert (j * s ≤ n - 1).
  { transitivity ((n - 1) `div` s * s); [nia|].
    rewrite Z.mul_comm. apply Z.mul_div_le. lia. }
  assert (m + j * s ∈ g.*1) as (tr & Htr & Hin)%list_elem_of_fmap
    by (rewrite Hg; apply elem_of_seqZ; lia).
  simpl. destruct (filter _ g) as [|x l] eqn:Hfilter; [|done].
  exfalso. eapply (filter_nil_not_elem_of _ _ tr); [exact Hfilter| |exact Hin].
  simpl. lia.
Qed.

Lemma index_of_int r :
  is_int (get "ordinal" r) →
  index_of "ordinal" r = Ok (ordinal_of r, r) ∧ get "ordinal" r = VInt (ordinal_of r).
Proof.
  unfold index_of, ordinal_of. by destruct (get "ordinal" r).
Qed.

Section FixedSizeChunk_windows.

Variable corp : Corpus.
Variable constrain_to : string.
Variable bounding : Chunks.
Variable size : Z.
Hypothesis Hord : "ordinal" ∈ names (atoms corp).
Hypothesis Hid : "id" ∈ names (atoms corp).
Hypothesis Hreg : registry corp !! constrain_to = Some bounding.
Hypothesis Hschema : names (chunk_atoms bounding) = ["chunk"; "atom"].
Hypothesis Hints : Forall (λ a, is_int (get "ordinal" a)) (rows (atoms corp)).
Hypothesis Hsize : 0 < size.

Lemma joined_rows_int e : e ∈ joined_rows bounding corp → is_int (get "ordinal" e).
Proof.
  unfold joined_rows. intros (ca & He & _)%list_elem_of_bind.
  apply list_elem_of_fmap in He as (a & -> & Ha).
  rewrite joined_row_get; [|by_evaluation|done].
  apply list_elem_of_filter in Ha as [_ Ha].
  rewrite Forall_forall in Hints. by apply Hints.
Qed.

Lemma FixedSizeChunk_windows_Ok :
  FixedSizeChunk_windows constrain_to size 0 "left" corp
  = Ok (g ← pl.group_by (get "constraint")
              (pl.sort_rows ["constraint"; "ordinal"] (joined_rows bounding corp));
        (λ w, (g.1, w.1, w.2)) <$>
          dynamic_windows ClosedLeft size size ((λ r, (ordinal_of r, r)) <$> g.2)).
Proof.
  unfold FixedSizeChunk_windows.
  rewrite (joined_Ok _ _ _ Hreg Hschema Hid). cbn [mbind result_bind].
  rewrite sort_Ok.
  2:{ constructor; [apply elem_of_app; left; by_evaluation|].
      constructor; [|constructor].
      apply joined_names_elem; [by_evaluation|done]. }
  cbn [mbind result_bind]. unfold group_by_dynamic.
  change (parse_closed "left") with (Ok ClosedLeft). cbn [mbind result_bind].
  rewrite decide_False by lia. cbn [rows].
  rewrite (mapM_result_total _ (λ g, (g.1, (λ r, (ordinal_of r, r)) <$> g.2))).
  - cbn [mbind result_bind]. f_equal. rewrite list_fmap_bind.
    apply list_bind_ext; [|done]. intros g. simpl. by rewrite Z.add_0_r.
  - apply Forall_forall. intros g [_ Hg]%elem_of_group_by.
    rewrite (mapM_result_total _ (λ r, (ordinal_of r, r))); [done|].
    apply Forall_forall. intros r Hr. rewrite Hg in Hr.
    apply list_elem_of_filter in Hr as [_ Hr].
    rewrite sort_rows_Permutation in Hr. by apply index_of_int, joined_rows_int.
Qed.

End FixedSizeChunk_windows.

Lemma StronglySorted_seqZ m n : StronglySorted Z.le (seqZ m n).
Proof.
  destruct (decide (0 < n)) as [Hn|Hn].
  2:{ unfold seqZ. replace (Z.to_nat n) with 0%nat by lia. constructor. }
  remember (Z.to_nat n) as k eqn:Hk. revert m n Hn Hk.
  induction k as [|k IH]; intros m n Hn Hk; [lia|].
  rewrite seqZ_cons by done. constructor.
  - destruct (decide (0 < Z.pred n)) as [Hn'|Hn'].
    + apply IH; lia.
    + unfold seqZ. replace (Z.to_nat (Z.pred n)) with 0%nat by lia. constructor.
  - apply Forall_forall. intros t Ht%elem_of_seqZ. lia.
Qed.

Lemma StronglySorted_fmap_Forall {A B} (R : relation A) (R' : relation B)
    (P : A → Prop) (f : A → B) (l : list A) :
  (∀ x y, P x → P y → R x y → R' (f x) (f y)) →
  Forall P l → StronglySorted R l → StronglySorted R' (f <$> l).
Proof.
  intros HR HP Hl. induction Hl as [|x l Hl IH Hx]; [constructor|].
  apply Forall_cons in HP as [HPx HP]. rewrite fmap_cons. constructor; [by apply IH|].
  rewrite Forall_fmap. rewrite Forall_forall in Hx, HP |- *.
  intros y Hy. apply HR; auto.
Qed.

(** C7, as the code has it.  For a corpus whose atoms have integer
    ordinals, and a bounding chunk whose [n] member atoms have the ordinals
    [m, m+1, ..., m+n-1], [FixedSizeChunk(constrain_to, size=s, offset=0,
    closed="left")] emits exactly [ceil(n/s)] chunks for that bounding chunk;
    the [j]-th starts at ordinal [m + j*s] and holds the atoms with ordinals
    [m + j*s, ..., m + j*s + min(s, n - j*s) - 1], that is [s] atoms except
    possibly in the last chunk. *)
Theorem FixedSizeChunk_windows_of_consecutive_ordinals
    (hash : list value → value) (constrain_to : string) (size : Z)
    (h : heap) (l : loc) (corp : Corpus) (bounding : Chunks) (b : value) (m : Z) :
  let n := Z.of_nat (length (member_atoms bounding corp b)) in
  h !! l = Some corp →
  "ordinal" ∈ names (atoms corp) →
  "id" ∈ names (atoms corp) →
  registry corp !! constrain_to = Some bounding →
  names (chunk_atoms bounding) = ["chunk"; "atom"] →
  Forall (λ a, is_int (get "ordinal" a)) (rows (atoms corp)) →
  0 < size →
  b ≠ VNull →
  get "ordinal" <$> member_atoms bounding corp b ≡ₚ VInt <$> seqZ m n →
  ∃ ws,
    FixedSizeChunk_windows constrain_to size 0 "left" corp = Ok ws ∧
    FixedSizeChunk_call hash constrain_to size 0 "left" h l
    = Ok (to_Chunks l (window_chunks hash ws)) ∧
    Z.of_nat (length (filter (λ w, w.1.1 = b) ws)) = (n + size - 1) `div` size ∧
    ∀ (j : nat) w, filter (λ w, w.1.1 = b) ws !! j = Some w →
      w.1.2 = m + Z.of_nat j * size ∧
      get "ordinal" <$> w.2
      = VInt <$> seqZ (m + Z.of_nat j * size) (size `min` (n - Z.of_nat j * size)).
Proof.
  intros n Hh Hord Hid Hreg Hschema Hints Hsize Hb Hperm.
  pose proof (FixedSizeChunk_windows_Ok corp constrain_to bounding size
                Hord Hid Hreg Hschema Hints Hsize) as Hws.
  eexists. split; [exact Hws|]. split.
  { unfold FixedSizeChunk_call. rewrite (deref_Ok _ _ _ Hh). cbn [mbind result_bind].
    rewrite (proj2 (has_column_true _ _) Hord). cbn [negb].
    rewrite Hws. reflexivity. }
  clear Hws.
  set (Srt := pl.sort_rows ["constraint"; "ordinal"] (joined_rows bounding corp)).
  set (Rb := filter (λ e, get "constraint" e = b) Srt).
  set (F := λ g : value * list row,
         (λ w : Z * list row, (g.1, w.1, w.2)) <$>
           dynamic_windows ClosedLeft size size ((λ r, (ordinal_of r, r)) <$> g.2)).
  assert (Forall (λ r, get "constraint" r = b ∧ is_int (get "ordinal" r)) Rb) as HRb.
  { apply Forall_forall. intros r [Hc Hr]%list_elem_of_filter. split; [done|].
    unfold Srt in Hr. rewrite sort_rows_Permutation in Hr.
    by eapply joined_rows_int. }
  assert (ordinal_of <$> Rb = seqZ m n) as Hordinals.
  { apply (StronglySorted_unique Z.le).
    - apply (StronglySorted_fmap_Forall (pl.row_le ["constraint"; "ordinal"]) Z.le
               (λ r, get "constraint" r = b ∧ is_int (get "ordinal" r))); [|done|].
      + intros x y [Hx Hix] [Hy Hiy] Hle.
        apply row_le_same_constraint in Hle; [|congruence].
        unfold ordinal_of. destruct (get "ordinal" x), (get "ordinal" y); done.
      + unfold Rb. apply StronglySorted_filter, sort_rows_StronglySorted.
    - apply StronglySorted_seqZ.
    - assert (get "ordinal" <$> Rb ≡ₚ VInt <$> seqZ m n) as Hp.
      { rewrite <-Hperm, <-(joined_rows_ordinals _ _ _ Hb Hord).
        unfold Rb, Srt. by rewrite sort_rows_Permutation. }
      apply (fmap_Permutation int_of) in Hp.
      rewrite <-!list_fmap_compose in Hp.
      rewrite (list_fmap_ext (int_of ∘ VInt) id (seqZ m n)), list_fmap_id in Hp; done. }
  assert (filter (λ w : value * Z * list row, w.1.1 = b)
            (pl.group_by (get "constraint") Srt ≫= F)
          = filter (λ g, g.1 = b) (pl.group_by (get "constraint") Srt) ≫= F) as ->.
  { apply (filter_bind_key (λ w : value * Z * list row, w.1.1) fst).
    intros g w Hw. unfold F in Hw. by apply list_elem_of_fmap in Hw as (? & -> & _). }
  assert (length Rb = Z.to_nat n) as Hlen.
  { rewrite <-(length_fmap ordinal_of), Hordinals. apply length_seqZ. }
  destruct (decide (n = 0)) as [Hn|Hn].
  - assert (Rb = []) as HRbnil by (apply nil_length_inv; lia).
    rewrite filter_none.
    2:{ apply Forall_forall. intros g Hg Hkey.
        pose proof (group_by_nonempty _ _ _ Hg) as Hne.
        apply elem_of_group_by in Hg as [_ Hg]. rewrite Hkey in Hg.
        fold Rb in Hg. congruence. }
    split; [|done]. simpl. rewrite Hn. symmetry. apply Z.div_small. lia.
  - assert (0 < n) as Hpos by lia.
    assert ((b, Rb) ∈ pl.group_by (get "constraint") Srt) as Hg.
    { apply elem_of_group_by. simpl. split; [|done].
      destruct Rb as [|r Rb'] eqn:HeqRb; [simpl in Hlen; lia|].
      assert (r ∈ filter (λ e, get "constraint" e = b) Srt) as Hr
        by (fold Rb; rewrite HeqRb; apply list_elem_of_here).
      apply list_elem_of_filter in Hr as [Hc Hr].
      apply list_elem_of_fmap. by exists r. }
    rewrite (filter_NoDup_key fst _ (b, Rb)); [|by rewrite group_by_keys; apply NoDup_unique|done].
    rewrite bind_singleton. unfold F. simpl.
    rewrite (dynamic_windows_contiguous size m n); [|done|done|].
    2:{ rewrite <-list_fmap_compose. exact Hordinals. }
    rewrite <-list_fmap_compose. split.
    + rewrite length_fmap, length_seqZ.
      assert (0 ≤ (n - 1) `div` size) by (apply Z.div_pos; lia).
      replace (n + size - 1) with ((n - 1) + 1 * size) by lia.
      rewrite Z.div_add by lia. lia.
    + intros j w Hj. rewrite list_lookup_fmap in Hj.
      destruct (seqZ 0 ((n - 1) `div` size + 1) !! j) as [j'|] eqn:Hj'; [|done].
      apply lookup_seqZ in Hj' as [-> Hjlt]. injection Hj as <-. simpl.
      split; [lia|].
      assert (0 ≤ (n - 1) `div` size) by (apply Z.div_pos; lia).
      assert (Z.of_nat j * size ≤ n - 1).
      { transitivity ((n - 1) `div` size * size); [nia|].
        rewrite Z.mul_comm. apply Z.mul_div_le. lia. }
      set (lo := m + (0 + Z.of_nat j) * size).
      rewrite filter_fmap. cbn [fst]. rewrite <-!list_fmap_compose.
      transitivity (VInt <$> (ordinal_of <$> filter (λ r, lo ≤ ordinal_of r < lo + size) Rb)).
      { rewrite <-list_fmap_compose. apply list_fmap_ext.
        intros _ r Hr%list_elem_of_lookup_2. apply list_elem_of_filter in Hr as [_ Hr].
        rewrite Forall_forall in HRb. destruct (HRb r Hr) as [_ Hint].
        simpl. unfold ordinal_of. by destruct (get "ordinal" r). }
      f_equal.
      pose proof (filter_fmap ordinal_of (λ t, lo ≤ t < lo + size) Rb) as Hcommute.
      etransitivity; [symmetry; exact Hcommute|].
      rewrite Hordinals.
      unfold lo. rewrite filter_seqZ_window by lia. f_equal; lia.
Qed.

Lemma FixedSizeChunk_windows_of_consecutive_ordinals_witness :
  ∃ ws,
    FixedSizeChunk_windows "line" 2 0 "left" Example.corpus_ = Ok ws ∧
    FixedSizeChunk_call Example.hash "line" 2 0 "left" Example.store Example.self
    = Ok (to_Chunks Example.self (window_chunks Example.hash ws)) ∧
    Z.of_nat (length (filter (λ w, w.1.1 = VInt 2) ws)) = (3 + 2 - 1) `div` 2 ∧
    ∀ (j : nat) w, filter (λ w, w.1.1 = VInt 2) ws !! j = Some w →
      w.1.2 = 3 + Z.of_nat j * 2 ∧
      get "ordinal" <$> w.2
      = VInt <$> seqZ (3 + Z.of_nat j * 2) (2 `min` (3 - Z.of_nat j * 2)).
Proof.
  apply (FixedSizeChunk_windows_of_consecutive_ordinals Example.hash "line" 2
           Example.store Example.self Example.corpus_ Example.line (VInt 2) 3).
  - reflexivity.
  - by_evaluation.
  - by_evaluation.
  - reflexivity.
  - reflexivity.
  - by_evaluation.
  - lia.
  - done.
  - vm_compute. reflexivity.
Defined.

(** ** chunkers.py: RegexMatchChunk *)

Lemma pl_select_Ok cols t :
  Forall (λ c : string * string, c.2 ∈ names t) cols →
  pl.select cols t
  = Ok (mkTable (fst <$> cols) ((λ r, (λ c, (c.1, get c.2 r)) <$> cols) <$> rows t)).
Proof.
  intros Hcols. unfold pl.select.
  destruct (list_find _ cols) as [[i c]|] eqn:Hfind; [|done].
  apply list_find_Some in Hfind as (Hc & Hnot & _).
  rewrite Forall_forall in Hcols. exfalso. apply Hnot, Hcols.
  by eapply list_elem_of_lookup_2.
Qed.

Lemma len_chars_text v : is_text v → pl.len_chars v = Ok (text_len v).
Proof. by intros [->|[s ->]]. Qed.

Lemma indices_Ok sorted :
  "constraint" ∈ names sorted → "atom" ∈ names sorted → "text" ∈ names sorted →
  Forall (λ r, is_text (get "text" r)) (rows sorted) →
  indices sorted
  = Ok (mkTable ["constraint"; "atom"; "start_index"]
          (imap (index_row (rows sorted)) (rows sorted))).
Proof.
  intros Hc Ha Ht Htexts. unfold indices.
  rewrite pl_select_Ok by (repeat constructor; done).
  cbn [mbind result_bind].
  rewrite (mapM_result_total _ (text_len ∘ get "text")).
  2:{ eapply Forall_impl; [exact Htexts|]. intros r Hr. by apply len_chars_text. }
  reflexivity.
Qed.

Section RegexMatchChunk_frames.

Variable hash : list value → value.
Variable re_finditer : string → string → result (list (Z * Z)).
Variable reorder : ∀ A : Type, list A → list A.
Variable spans : string → list (Z * Z).
Variable pattern : string.

Hypothesis reorder_Permutation : ∀ A (l : list A), reorder A l ≡ₚ l.
Hypothesis re_finditer_Ok : ∀ x, re_finditer pattern x = Ok (spans x).

Lemma matches_Ok sorted :
  Forall (λ r, is_text (get "text" r)) (rows sorted) →
  matches re_finditer reorder pattern sorted
  = Ok (mkTable ["constraint"; "start"; "end"]
          (reorder _ (pl.group_by (get "constraint") (rows sorted))
             ≫= group_matches spans)).
Proof.
  intros Htexts. unfold matches.
  rewrite (mapM_result_total _ (group_matches spans)).
  - cbn [mbind result_bind]. do 2 f_equal.
    generalize (reorder _ (pl.group_by (get "constraint") (rows sorted))).
    intros gs. induction gs as [|g gs IH]; [done|].
    rewrite fmap_cons, bind_cons. simpl. by rewrite IH.
  - apply Forall_forall. intros g Hg. rewrite reorder_Permutation in Hg.
    apply elem_of_group_by in Hg as [_ Hg].
    unfold search_string. rewrite str_join_Ok.
    + cbn [mbind result_bind]. by rewrite re_finditer_Ok.
    + rewrite Forall_fmap, Hg. apply Forall_forall.
      intros r [_ Hr]%list_elem_of_filter.
      rewrite Forall_forall in Htexts. by apply Htexts.
Qed.

Variables (h : heap) (l : loc) (corp : Corpus) (bounding : Chunks).
Variable constrain_to : string.

Hypothesis Hh : h !! l = Some corp.
Hypothesis Hord : "ordinal" ∈ names (atoms corp).
Hypothesis Htext : "text" ∈ names (atoms corp).
Hypothesis Hid : "id" ∈ names (atoms corp).
Hypothesis Hreg : registry corp !! constrain_to = Some bounding.
Hypothesis Hschema : names (chunk_atoms bounding) = ["chunk"; "atom"].
Hypothesis Htexts : Forall (λ a, is_text (get "text" a)) (rows (atoms corp)).

Lemma sorted_rows_text r : r ∈ sorted_rows bounding corp → is_text (get "text" r).
Proof.
  unfold sorted_rows. rewrite sort_rows_Permutation. unfold joined_rows.
  intros (ca & Hr & _)%list_elem_of_bind.
  apply list_elem_of_fmap in Hr as (a & -> & Ha).
  apply list_elem_of_filter in Ha as [_ Ha].
  rewrite joined_row_get; [|by_evaluation|done].
  rewrite Forall_forall in Htexts. by apply Htexts.
Qed.

Lemma RegexMatchChunk_call_Ok :
  RegexMatchChunk_call hash re_finditer reorder constrain_to pattern h l
  = Ok (to_Chunks l (regex_chunks hash reorder spans (sorted_rows bounding corp))).
Proof.
  unfold RegexMatchChunk_call. rewrite (deref_Ok _ _ _ Hh). cbn [mbind result_bind].
  rewrite (proj2 (has_column_true _ _) Hord). cbn [negb].
  rewrite (joined_Ok _ _ _ Hreg Hschema Hid). cbn [mbind result_bind].
  rewrite sort_Ok.
  2:{ constructor; [apply elem_of_app; left; by_evaluation|].
      constructor; [|constructor].
      apply joined_names_elem; [by_evaluation|done]. }
  cbn [mbind result_bind names rows]. fold (sorted_rows bounding corp).
  rewrite indices_Ok; cbn [names rows].
  2,3: apply elem_of_app; left; by_evaluation.
  2:{ apply joined_names_elem; [by_evaluation|done]. }
  2:{ apply Forall_forall. apply sorted_rows_text. }
  cbn [mbind result_bind].
  rewrite matches_Ok by (apply Forall_forall; apply sorted_rows_text).
  cbn [mbind result_bind rows]. reflexivity.
Qed.


End RegexMatchChunk_frames.





Lemma elem_of_to_Chunks_atoms l (cs : list (value * list value)) (r : row) :
  Forall (λ c, c.2 ≠ []) cs →
  r ∈ rows (chunk_atoms (to_Chunks l cs)) ↔
  ∃ c a, c ∈ cs ∧ a ∈ c.2 ∧ r = membership c.1 a.
Proof.
  intros Hne. unfold to_Chunks. cbn [chunk_atoms rows].
  rewrite list_elem_of_bind. rewrite Forall_forall in Hne. split.
  - intros ([id atoms_] & Hr & Hc). pose proof (Hne _ Hc) as Hnil.
    cbn [fst snd] in *. destruct atoms_ as [|a0 atoms_]; [done|].
    apply list_elem_of_fmap in Hr as (a & -> & Ha). by exists (id, a0 :: atoms_), a.
  - intros ([id atoms_] & a & Hc & Ha & ->). exists (id, atoms_). split; [|done].
    cbn [fst snd] in *. destruct atoms_ as [|a0 atoms_]; [by apply elem_of_nil in Ha|].
    apply list_elem_of_fmap. by exists a.
Qed.

Lemma elem_of_regex_chunks (hash : list value → value)
    (reorder : ∀ A : Type, list A → list A) (spans : string → list (Z * Z))
    (sorted : list row) (c : value * list value) :
  (∀ A (l : list A), reorder A l ≡ₚ l) →
  c ∈ regex_chunks hash reorder spans sorted ↔
  (∃ r, r ∈ filter within (located_rows reorder spans sorted) ∧ match_id hash r = c.1) ∧
  c.2 = get "atom" <$> filter (λ r, match_id hash r = c.1)
                         (filter within (located_rows reorder spans sorted)).
Proof.
  intros Hperm. unfold regex_chunks. rewrite list_elem_of_fmap. split.
  - intros (g & -> & Hg). rewrite Hperm in Hg.
    apply elem_of_group_by in Hg as [Hk Hg]. simpl. split; [|by rewrite Hg].
    apply list_elem_of_fmap in Hk as (r & Hr & Hin). by exists r.
  - intros [(r & Hr & Hid) Hc2]. destruct c as [id atoms_]. simpl in *.
    eexists (id, _). split; [simpl; by rewrite Hc2|].
    rewrite Hperm. apply elem_of_group_by. simpl. split; [|done].
    apply list_elem_of_fmap. by exists r.
Qed.

Lemma regex_chunks_nonempty (hash : list value → value)
    (reorder : ∀ A : Type, list A → list A) (spans : string → list (Z * Z))
    (sorted : list row) :
  (∀ A (l : list A), reorder A l ≡ₚ l) →
  Forall (λ c, c.2 ≠ []) (regex_chunks hash reorder spans sorted).
Proof.
  intros Hperm. apply Forall_forall. intros c Hc.
  apply elem_of_regex_chunks in Hc as [(r & Hr & Hid) ->]; [|done].
  intros Hnil%fmap_nil_inv.
  eapply (filter_nil_not_elem_of _ _ r); [exact Hnil|exact Hid|exact Hr].
Qed.


(** *** The start offset is a position in the search string *)







Lemma last_cons {A} (a d : A) (l : list A) : List.last (a :: l) d = List.last l a.
Proof.
  revert a d. induction l as [|b l IH]; intros a d; [done|].
  change (List.last (a :: b :: l) d) with (List.last (b :: l) d).
  by rewrite (IH b d), (IH b a).
Qed.






Lemma to_Chunks_ids (l : loc) (cs : list (value * list value)) :
  get "id" <$> rows (chunks (to_Chunks l cs)) = cs.*1.
Proof.
  unfold to_Chunks. cbn [chunks rows]. rewrite <-list_fmap_compose.
  by apply list_fmap_ext.
Qed.

Lemma to_Chunks_member_ids (l : loc) (cs : list (value * list value)) (id : value) :
  Forall (λ c, c.2 ≠ []) cs →
  id ∈ cs.*1 ↔ ∃ a, membership id a ∈ rows (chunk_atoms (to_Chunks l cs)).
Proof.
  intros Hne. split.
  - intros ([id' atoms_] & -> & Hc)%list_elem_of_fmap.
    rewrite Forall_forall in Hne. pose proof (Hne _ Hc) as Hnil. cbn [fst snd] in *.
    destruct atoms_ as [|a atoms_]; [done|]. exists a.
    apply elem_of_to_Chunks_atoms; [by apply Forall_forall|].
    exists (id', a :: atoms_), a. split; [done|]. split; [apply list_elem_of_here|done].
  - intros (a & (c & a' & Hc & _ & [= -> _])%elem_of_to_Chunks_atoms); [|done].
    apply list_elem_of_fmap. by exists c.
Qed.






(** * Further properties of the code *)

(** ** core.py: the registry *)

Lemma set_chunk_Ok h self name ch h' :
  set_chunk h self name ch = Ok h' ↔
  ∃ c, h !! self = Some c ∧ corpus ch = self ∧
       h' = <[self := mkCorpus (atoms c) (<[name := ch]> (registry c))]> h.
Proof.
  unfold set_chunk, deref. destruct (h !! self) as [c|]; simpl.
  - destruct (decide (corpus ch = self)) as [Heq|Hne]; split.
    + intros [= <-]. by exists c.
    + by intros (c' & [= <-] & _ & ->).
    + done.
    + by intros (c' & _ & ? & _).
  - split; [done|]. by intros (c & ? & _).
Qed.

(** X1.  What [set_chunk] stores under a name is what [Corpus.chunk] hands
    back for that name; the chunks registered under other names, the atom
    table and the other corpora are as before. *)
Theorem set_chunk_then_chunk
    (hash : list value → value)
    (re_finditer : string → string → result (list (Z * Z)))
    (reorder : ∀ A : Type, list A → list A)
    (h h' : heap) (self : loc) (name : string) (ch : Chunks) :
  set_chunk h self name ch = Ok h' →
  Corpus_chunk hash re_finditer reorder h' self (ByName name) = Ok ch ∧
  (∀ name', name' ≠ name →
     Corpus_chunk hash re_finditer reorder h' self (ByName name')
     = Corpus_chunk hash re_finditer reorder h self (ByName name')) ∧
  (atoms <$> h' !! self) = (atoms <$> h !! self) ∧
  (∀ l, l ≠ self → h' !! l = h !! l).
Proof.
  intros (c & Hc & Hself & ->)%set_chunk_Ok. repeat split.
  - simpl. unfold deref. rewrite lookup_insert_eq. simpl.
    unfold registry_lookup. simpl. by rewrite lookup_insert_eq.
  - intros name' Hne. simpl. unfold deref. rewrite lookup_insert_eq, Hc. simpl.
    unfold registry_lookup. simpl. by rewrite lookup_insert_ne.
  - by rewrite lookup_insert_eq, Hc.
  - intros l Hl. by rewrite lookup_insert_ne.
Qed.

Lemma set_chunk_then_chunk_witness :
  Corpus_chunk Example.hash Example.finditer Example.keep_order
    (<[Example.self := mkCorpus (atoms Example.corpus_)
                         (<["row" := Example.ties]> (registry Example.corpus_))]>
       Example.store)
    Example.self (ByName "row") = Ok Example.ties ∧
  (∀ name', name' ≠ "row" →
     Corpus_chunk Example.hash Example.finditer Example.keep_order
       (<[Example.self := mkCorpus (atoms Example.corpus_)
                            (<["row" := Example.ties]> (registry Example.corpus_))]>
          Example.store)
       Example.self (ByName name')
     = Corpus_chunk Example.hash Example.finditer Example.keep_order
         Example.store Example.self (ByName name')) ∧
  (atoms <$> (<[Example.self := mkCorpus (atoms Example.corpus_)
                                  (<["row" := Example.ties]> (registry Example.corpus_))]>
                Example.store) !! Example.self)
  = (atoms <$> Example.store !! Example.self) ∧
  (∀ l, l ≠ Example.self →
     (<[Example.self := mkCorpus (atoms Example.corpus_)
                          (<["row" := Example.ties]> (registry Example.corpus_))]>
        Example.store) !! l = Example.store !! l).
Proof.
  apply (set_chunk_then_chunk Example.hash Example.finditer Example.keep_order
           Example.store _ Example.self "row" Example.ties).
  reflexivity.
Defined.

(** X2.  [set_chunk] on an existing corpus succeeds exactly when the chunks
    refer to that corpus, and then every registered chunk collection of the
    store still refers to the corpus that registers it. *)
Theorem set_chunk_keeps_registry_closed
    (h : heap) (self : loc) (name : string) (ch : Chunks) :
  is_Some (h !! self) →
  registry_closed h →
  (is_Ok (set_chunk h self name ch) ↔ corpus ch = self) ∧
  (∀ h', set_chunk h self name ch = Ok h' → registry_closed h').
Proof.
  intros [c Hc] Hclosed. split.
  - split.
    + by intros [h' (c' & _ & Hself & _)%set_chunk_Ok].
    + intros Hself. eexists. apply set_chunk_Ok. by exists c.
  - intros h' (c' & Hc' & Hself & ->)%set_chunk_Ok.
    rewrite Hc in Hc'. injection Hc' as <-.
    apply map_Forall_insert_2; [|done]. simpl.
    apply map_Forall_insert_2; [done|]. by apply (Hclosed self c).
Qed.

Lemma set_chunk_keeps_registry_closed_witness :
  (is_Ok (set_chunk Example.store Example.self "row" Example.ties)
   ↔ corpus Example.ties = Example.self) ∧
  (∀ h', set_chunk Example.store Example.self "row" Example.ties = Ok h' →
         registry_closed h').
Proof.
  apply (set_chunk_keeps_registry_closed Example.store Example.self "row" Example.ties).
  - by_evaluation.
  - unfold registry_closed. by_evaluation.
Defined.

(** ** core.py: Corpus.merge *)

Lemma forallb_true_Forall {A} (f : A → bool) (l : list A) :
  forallb f l = true → Forall (λ x, f x = true) l.
Proof.
  induction l as [|x l IH]; [constructor|]. simpl.
  intros [Hx Hl]%andb_prop. constructor; auto.
Qed.

Lemma foldM_result_ext {A B} (f g : B → A → result B) (b : B) (l : list A) :
  (∀ b x, f b x = g b x) → foldM_result f b l = foldM_result g b l.
Proof.
  intros Hfg. revert b. induction l as [|x l IH]; intros b; [done|].
  cbn [foldM_result]. rewrite Hfg. destruct (g b x) as [b1|]; [|done].
  cbn [mbind result_bind]. apply IH.
Qed.

Section merge_facts.

Variable same_types : Table → Table → bool.
Variable key_rank : string → nat.

Lemma iteration_order_elem_of (keys : gset string) (k : string) :
  k ∈ iteration_order key_rank keys ↔ k ∈ keys.
Proof. unfold iteration_order. by rewrite merge_sort_Permutation, elem_of_elements. Qed.

Lemma concat_tables_inv (ts : list Table) (t : Table) :
  pa.concat_tables same_types ts = Ok t →
  ∃ t0, head ts = Some t0 ∧ Forall (λ t', names t' = names t0) ts ∧
        t = mkTable (names t0) (ts ≫= rows).
Proof.
  unfold pa.concat_tables. destruct ts as [|t0 ts]; [done|].
  destruct (forallb _ (t0 :: ts)) eqn:Hall; [|done]. intros [= <-].
  exists t0. split; [done|]. split; [|done].
  apply forallb_true_Forall in Hall. eapply Forall_impl; [exact Hall|].
  intros t' [Hn _]%andb_prop. by apply bool_decide_eq_true in Hn.
Qed.

Lemma foldM_result_invariant {A B} (f : B → A → result B) (P : B → Prop)
    (l : list A) (b b' : B) :
  (∀ b1 x b2, x ∈ l → P b1 → f b1 x = Ok b2 → P b2) →
  P b → foldM_result f b l = Ok b' → P b'.
Proof.
  revert b. induction l as [|x l IH]; intros b Hstep Hb; simpl.
  - by intros [= <-].
  - intros (b1 & Hb1 & Hfold)%bind_Ok. apply (IH b1); [|by eauto using list_elem_of_here|done].
    intros b2 y b3 Hy. apply Hstep. by apply list_elem_of_further.
Qed.

Lemma foldM_result_steps {A B} (f : B → A → result B) (l : list A) (b b' : B) :
  foldM_result f b l = Ok b' → Forall (λ x, ∃ b1 b2, f b1 x = Ok b2) l.
Proof.
  revert b. induction l as [|x l IH]; intros b; simpl; [constructor|].
  intros (b1 & Hb1 & Hfold)%bind_Ok. constructor; [by exists b, b1|by eapply IH].
Qed.

Lemma mapM_deref_Ok (h : heap) (corpora : list loc) (corps : list Corpus) :
  mapM_result (deref h) corpora = Ok corps ↔
  Forall2 (λ l corp, h !! l = Some corp) corpora corps.
Proof.
  rewrite mapM_result_Ok.
  split; intros H; (eapply Forall2_impl; [exact H|]); intros l corp;
    unfold deref; destruct (h !! l); congruence.
Qed.

(** What a successful [merge] went through. *)
Lemma merge_Ok (h h' : heap) (corpora : list loc) (l : loc) :
  merge same_types key_rank h corpora = Ok (l, h') →
  ∃ corps merged_atoms reg,
    Forall2 (λ l corp, h !! l = Some corp) corpora corps ∧
    pa.concat_tables same_types (atoms <$> corps) = Ok merged_atoms ∧
    foldM_result
      (λ (reg : gmap string Chunks) k,
         k_chunks ← mapM_result (λ corp, registry_lookup corp k) corps;
         cs ← pa.concat_tables same_types (chunks <$> k_chunks);
         cas ← pa.concat_tables same_types (chunk_atoms <$> k_chunks);
         Ok (<[k := mkChunks (fresh (dom h)) cs cas]> reg))
      ∅ (iteration_order key_rank (⋃ ((λ corp, dom (registry corp)) <$> corps)))
    = Ok reg ∧
    l = fresh (dom h) ∧
    h' = <[fresh (dom h) := mkCorpus merged_atoms reg]> h.
Proof.
  unfold merge. intros H.
  apply bind_Ok in H as (corps & Hcorps & H).
  apply bind_Ok in H as (merged_atoms & Hatoms & H).
  apply bind_Ok in H as (reg & Hreg & H). injection H as <- <-.
  exists corps, merged_atoms, reg. by rewrite <-mapM_deref_Ok.
Qed.

(** X3.  A successful [merge] puts the merged corpus at a location the store
    did not use; the corpora already in the store, the inputs among them,
    are left as they were; and when every registered chunk collection
    referred to its own corpus before, this is so afterwards, for the merged
    corpus too. *)
Theorem merge_leaves_inputs_alone (h h' : heap) (corpora : list loc) (l : loc) :
  merge same_types key_rank h corpora = Ok (l, h') →
  h !! l = None ∧ is_Some (h' !! l) ∧
  (∀ l0, is_Some (h !! l0) → h' !! l0 = h !! l0) ∧
  (registry_closed h → registry_closed h').
Proof.
  intros (corps & merged_atoms & reg & _ & _ & Hreg & -> & ->)%merge_Ok.
  assert (h !! fresh (dom h) = None) as Hfresh by apply not_elem_of_dom, is_fresh.
  repeat split.
  - done.
  - rewrite lookup_insert_eq. by eexists.
  - intros l0 [c Hc]. rewrite lookup_insert_ne; [done|]. intros <-. congruence.
  - intros Hclosed. apply map_Forall_insert_2; [|done]. simpl.
    eapply (foldM_result_invariant _
              (map_Forall (λ (_ : string) ch, corpus ch = fresh (dom h))));
      [|apply map_Forall_empty|exact Hreg].
    intros reg1 k reg2 _ Hreg1 Hstep. cbv beta in Hstep.
    apply bind_Ok in Hstep as (k_chunks & _ & Hstep).
    apply bind_Ok in Hstep as (cs & _ & Hstep).
    apply bind_Ok in Hstep as (cas & _ & Hstep). injection Hstep as <-.
    by apply map_Forall_insert_2.
Qed.

Lemma mapM_registry_lookup_Ok (k : string) (corps : list Corpus) (k_chunks : list Chunks) :
  mapM_result (λ corp, registry_lookup corp k) corps = Ok k_chunks ↔
  Forall2 (λ corp ch, registry corp !! k = Some ch) corps k_chunks.
Proof.
  rewrite mapM_result_Ok.
  split; intros H; (eapply Forall2_impl; [exact H|]); intros corp ch;
    by rewrite registry_lookup_Ok.
Qed.

(** X4.  [merge] succeeds only on a non-empty collection of corpora of the
    store that register the same chunk names, with the same columns for the
    atom tables and for the tables registered under each name. *)
Theorem merge_succeeds_only_on_compatible
    (h h' : heap) (corpora : list loc) (l : loc) :
  merge same_types key_rank h corpora = Ok (l, h') →
  ∃ c0 corps,
    Forall2 (λ l corp, h !! l = Some corp) corpora corps ∧
    head corps = Some c0 ∧
    Forall (compatible c0) corps.
Proof.
  intros (corps & merged_atoms & reg & Hderef & Hatoms & Hreg & _ & _)%merge_Ok.
  apply concat_tables_inv in Hatoms as (t0 & Hhead & Hnames & _).
  destruct corps as [|c0 corps']; [done|]. injection Hhead as <-.
  set (corps := c0 :: corps') in *.
  exists c0, corps. split; [done|]. split; [done|].
  assert (∀ k corp, corp ∈ corps → is_Some (registry corp !! k) →
            ∃ ch0, registry c0 !! k = Some ch0 ∧
              ∀ corp', corp' ∈ corps →
                ∃ ch, registry corp' !! k = Some ch ∧
                      names (chunks ch) = names (chunks ch0) ∧
                      names (chunk_atoms ch) = names (chunk_atoms ch0)) as Hall.
  { intros k corp Hcorp Hk.
    apply foldM_result_steps in Hreg. rewrite Forall_forall in Hreg.
    destruct (Hreg k) as (reg1 & reg2 & Hstep).
    { apply iteration_order_elem_of, elem_of_union_list. exists (dom (registry corp)).
      split; [|by apply elem_of_dom]. apply list_elem_of_fmap. by exists corp. }
    cbv beta in Hstep.
    apply bind_Ok in Hstep as (k_chunks & Hlookup & Hstep).
    apply bind_Ok in Hstep as (cs & Hcs & Hstep).
    apply bind_Ok in Hstep as (cas & Hcas & _).
    apply mapM_registry_lookup_Ok in Hlookup.
    apply concat_tables_inv in Hcs as (t1 & Hhead1 & Hnames1 & _).
    apply concat_tables_inv in Hcas as (t2 & Hhead2 & Hnames2 & _).
    inversion Hlookup as [|? ch0 ? k_chunks' Hch0 Hrest]; subst.
    injection Hhead1 as <-. injection Hhead2 as <-.
    exists ch0. split; [done|]. intros corp' Hcorp'.
    apply list_elem_of_lookup in Hcorp' as [i Hi].
    destruct (Forall2_lookup_l _ _ _ _ _ Hlookup Hi) as (ch & Hch & Hk').
    exists ch. split; [done|].
    rewrite Forall_fmap in Hnames1, Hnames2. rewrite Forall_forall in Hnames1, Hnames2.
    apply list_elem_of_lookup_2 in Hch. split; [by apply Hnames1|by apply Hnames2]. }
  assert (c0 ∈ corps) as Hc0 by apply list_elem_of_here.
  apply Forall_forall. intros corp Hcorp. split; [|split].
  - rewrite Forall_fmap in Hnames. rewrite Forall_forall in Hnames. by apply Hnames.
  - apply set_eq. intros k. rewrite !elem_of_dom. split.
    + intros Hk. by destruct (Hall k corp Hcorp Hk) as (ch0 & -> & _).
    + intros Hk. destruct (Hall k c0 Hc0 Hk) as (ch0 & _ & Hevery).
      by destruct (Hevery corp Hcorp) as (ch & -> & _).
  - intros k ch0 Hch0. cbv beta.
    destruct (Hall k c0 Hc0) as (ch0' & Hch0' & Hevery); [by eexists|].
    rewrite Hch0 in Hch0'. injection Hch0' as <-.
    by destruct (Hevery corp Hcorp) as (ch & -> & ?).
Qed.

Lemma bind_Forall2_ext {A B C} (f : B → list C) (g : A → list C)
    (l : list A) (l' : list B) :
  Forall2 (λ x y, f y = g x) l l' → l' ≫= f = l ≫= g.
Proof.
  induction 1 as [|x y l l' Hxy _ IH]; [done|]. rewrite !bind_cons. by rewrite Hxy, IH.
Qed.

(** A loop that stores one computed value per key. *)
Lemma foldM_insert_inv {V} (F : string → result V) (ks : list string)
    (reg0 reg : gmap string V) :
  foldM_result (λ reg k, v ← F k; Ok (<[k := v]> reg)) reg0 ks = Ok reg →
  ∀ k, if decide (k ∈ ks) then ∃ v, F k = Ok v ∧ reg !! k = Some v
       else reg !! k = reg0 !! k.
Proof.
  revert reg0. induction ks as [|k0 ks IH]; intros reg0; cbn [foldM_result].
  - intros [= <-] k. rewrite decide_False; [done|]. by intros ?%elem_of_nil.
  - intros (reg1 & Hstep & Hfold)%bind_Ok k.
    apply bind_Ok in Hstep as (v0 & Hv0 & [= <-]).
    specialize (IH _ Hfold k).
    destruct (decide (k ∈ ks)) as [Hin|Hnotin].
    + rewrite decide_True; [done|]. by apply list_elem_of_further.
    + destruct (decide (k = k0)) as [->|Hne].
      * rewrite decide_True by apply list_elem_of_here.
        exists v0. split; [done|]. by rewrite IH, lookup_insert_eq.
      * rewrite decide_False by (by intros [?|?]%elem_of_cons).
        by rewrite IH, lookup_insert_ne.
Qed.

(** X22.  What a successful [merge] returns: a corpus whose atom table is
    the concatenation of the inputs' atom tables, in the order of the inputs,
    and whose registry has an entry for exactly the chunk names the inputs
    register; an entry refers to the merged corpus, and its [chunks] and
    [chunk_atoms] tables are the concatenations of that name's tables across
    the inputs. *)
Theorem merge_concatenates (h h' : heap) (corpora : list loc) (l : loc) :
  merge same_types key_rank h corpora = Ok (l, h') →
  ∃ corps c0 merged,
    Forall2 (λ l corp, h !! l = Some corp) corpora corps ∧
    head corps = Some c0 ∧
    h' !! l = Some merged ∧
    atoms merged = mkTable (names (atoms c0)) (corps ≫= (λ corp, rows (atoms corp))) ∧
    (∀ k, is_Some (registry merged !! k) ↔
          ∃ corp, corp ∈ corps ∧ is_Some (registry corp !! k)) ∧
    (∀ k ch, registry merged !! k = Some ch →
       corpus ch = l ∧
       rows (chunks ch) = corps ≫= chunk_rows_of k ∧
       rows (chunk_atoms ch) = corps ≫= chunk_atom_rows_of k).
Proof.
  intros (corps & merged_atoms & reg & Hderef & Hatoms & Hreg & -> & ->)%merge_Ok.
  apply concat_tables_inv in Hatoms as (t0 & Hhead & _ & ->).
  destruct corps as [|c0 corps']; [done|]. injection Hhead as <-.
  set (corps := c0 :: corps') in *.
  set (keys := ⋃ ((λ corp, dom (registry corp)) <$> corps) : gset string) in *.
  set (F := λ k : string,
         k_chunks ← mapM_result (λ corp, registry_lookup corp k) corps;
         cs ← pa.concat_tables same_types (chunks <$> k_chunks);
         cas ← pa.concat_tables same_types (chunk_atoms <$> k_chunks);
         Ok (mkChunks (fresh (dom h)) cs cas)).
  rewrite (foldM_result_ext _ (λ reg k, v ← F k; Ok (<[k := v]> reg))) in Hreg.
  2:{ intros reg1 k. unfold F.
      destruct (mapM_result _ corps) as [k_chunks|]; [|done]. cbn [mbind result_bind].
      destruct (pa.concat_tables _ (chunks <$> _)); [|done]. cbn [mbind result_bind].
      by destruct (pa.concat_tables _ (chunk_atoms <$> _)). }
  pose proof (foldM_insert_inv F _ _ _ Hreg) as Hentries.
  assert (∀ k, k ∈ iteration_order key_rank keys ↔
               ∃ corp, corp ∈ corps ∧ is_Some (registry corp !! k)) as Hkeys.
  { intros k. rewrite iteration_order_elem_of. unfold keys.
    rewrite elem_of_union_list. split.
    - intros (X & HX & Hk). apply list_elem_of_fmap in HX as (corp & -> & Hcorp).
      exists corp. split; [done|]. by apply elem_of_dom.
    - intros (corp & Hcorp & Hk). exists (dom (registry corp)).
      split; [|by apply elem_of_dom]. apply list_elem_of_fmap. by exists corp. }
  exists corps, c0, (mkCorpus (mkTable (names (atoms c0)) ((atoms <$> corps) ≫= rows)) reg).
  split; [done|]. split; [done|]. split; [by rewrite lookup_insert_eq|].
  cbn [atoms registry]. split; [|split].
  - f_equal. apply bind_Forall2_ext, Forall2_fmap_r, Forall_Forall2_diag.
    by apply Forall_true.
  - intros k. rewrite <-Hkeys. specialize (Hentries k).
    destruct (decide (k ∈ iteration_order key_rank keys)) as [Hin|Hnotin].
    + destruct Hentries as (v & _ & ->). split; [done|by eexists].
    + rewrite Hentries, lookup_empty. split; [by intros [? ?]|done].
  - intros k ch Hch. specialize (Hentries k).
    destruct (decide (k ∈ iteration_order key_rank keys)) as [Hin|Hnotin].
    2:{ by rewrite Hentries, lookup_empty in Hch. }
    destruct Hentries as (v & Hv & Hlookup). rewrite Hlookup in Hch. injection Hch as ->.
    unfold F in Hv.
    apply bind_Ok in Hv as (k_chunks & Hlook & Hv).
    apply bind_Ok in Hv as (cs & Hcs & Hv).
    apply bind_Ok in Hv as (cas & Hcas & [= <-]).
    apply mapM_registry_lookup_Ok in Hlook.
    apply concat_tables_inv in Hcs as (t1 & _ & _ & ->).
    apply concat_tables_inv in Hcas as (t2 & _ & _ & ->).
    cbn [corpus chunks chunk_atoms rows]. split; [done|]. split.
    + apply bind_Forall2_ext, Forall2_fmap_r.
      eapply Forall2_impl; [exact Hlook|]. intros corp ch' Hk.
      unfold chunk_rows_of. by rewrite Hk.
    + apply bind_Forall2_ext, Forall2_fmap_r.
      eapply Forall2_impl; [exact Hlook|]. intros corp ch' Hk.
      unfold chunk_atom_rows_of. by rewrite Hk.
Qed.

End merge_facts.

Lemma merge_concatenates_witness :
  ∃ l h',
    merge Example.same_types Example.key_rank Example.copies [Example.self; 1%nat]
    = Ok (l, h') ∧
    ∃ corps c0 merged,
      Forall2 (λ l corp, Example.copies !! l = Some corp) [Example.self; 1%nat] corps ∧
      head corps = Some c0 ∧
      h' !! l = Some merged ∧
      atoms merged = mkTable (names (atoms c0)) (corps ≫= (λ corp, rows (atoms corp))) ∧
      (∀ k, is_Some (registry merged !! k) ↔
            ∃ corp, corp ∈ corps ∧ is_Some (registry corp !! k)) ∧
      (∀ k ch, registry merged !! k = Some ch →
         corpus ch = l ∧
         rows (chunks ch) = corps ≫= chunk_rows_of k ∧
         rows (chunk_atoms ch) = corps ≫= chunk_atom_rows_of k).
Proof.
  eexists _, _. split; [vm_compute; reflexivity|].
  apply (merge_concatenates Example.same_types Example.key_rank
           Example.copies _ [Example.self; 1%nat]).
  vm_compute. reflexivity.
Defined.

Lemma merge_leaves_inputs_alone_witness :
  ∃ l h',
    merge Example.same_types Example.key_rank Example.copies [Example.self; 1%nat] = Ok (l, h') ∧
    Example.copies !! l = None ∧ is_Some (h' !! l) ∧
    (∀ l0, is_Some (Example.copies !! l0) → h' !! l0 = Example.copies !! l0) ∧
    (registry_closed Example.copies → registry_closed h').
Proof.
  eexists _, _. split; [vm_compute; reflexivity|].
  apply (merge_leaves_inputs_alone Example.same_types Example.key_rank Example.copies _ [Example.self; 1%nat]).
  vm_compute. reflexivity.
Defined.

Lemma merge_succeeds_only_on_compatible_witness :
  ∃ c0 corps,
    Forall2 (λ l corp, Example.copies !! l = Some corp) [Example.self; 1%nat] corps ∧
    head corps = Some c0 ∧
    Forall (compatible c0) corps.
Proof.
  eapply (merge_succeeds_only_on_compatible Example.same_types Example.key_rank Example.copies _ [Example.self; 1%nat]).
  vm_compute. reflexivity.
Defined.

(** ** core.py and filters.py: chains of filters *)

Section filter_chains.

Variable cast_kernel : string → list value → list value → result (list (option bool)).
Variable select_k_impl : list value → nat → pc.sort_order → list nat.

(** X5.  [chunks.filter(f1, .., fn, g1, .., gm)] is
    [chunks.filter(f1, .., fn).filter(g1, .., gm)], failures included. *)
Theorem Chunks_filter_app (fs1 fs2 : list ChunkFilter) (c : Chunks) :
  Chunks_filter cast_kernel select_k_impl (fs1 ++ fs2) c
  = Chunks_filter cast_kernel select_k_impl fs1 c ≫= Chunks_filter cast_kernel select_k_impl fs2.
Proof.
  revert c. induction fs1 as [|f fs1 IH]; intros c; [done|].
  change ((f :: fs1) ++ fs2) with (f :: (fs1 ++ fs2)). cbn [Chunks_filter].
  destruct (ChunkFilter_call cast_kernel select_k_impl f c) as [c1|e]; [|done].
  cbn [mbind result_bind]. apply IH.
Qed.






End filter_chains.


(** ** filters.py: Threshold *)







(** ** core.py: enrich and select *)

Lemma get_zip_with_old (ns : list string) (n m : string) (rs : list row) (vs : list value) :
  m ∈ ns → length vs = length rs →
  get m <$> zip_with (λ r v, project ns r ++ [(n, v)]) rs vs = get m <$> rs.
Proof.
  intros Hm. revert vs. induction rs as [|r rs IH]; intros [|v vs] Hlen; try done.
  cbn [zip_with]. rewrite !fmap_cons. f_equal; [|apply IH; by simplify_eq/=].
  rewrite get_app, decide_True by by rewrite project_keys. by apply get_project.
Qed.

Lemma get_zip_with_new (ns : list string) (n : string) (rs : list row) (vs : list value) :
  n ∉ ns → length vs = length rs →
  get n <$> zip_with (λ r v, project ns r ++ [(n, v)]) rs vs = vs.
Proof.
  intros Hn. revert vs. induction rs as [|r rs IH]; intros [|v vs] Hlen; try done.
  cbn [zip_with]. rewrite !fmap_cons. f_equal; [|apply IH; by simplify_eq/=].
  rewrite get_app, decide_False by by rewrite project_keys.
  simpl. by rewrite decide_True.
Qed.

Lemma append_column_Ok (n : string) (vs : list value) (t t1 : Table) :
  pa.append_column n vs t = Ok t1 →
  length vs = length (rows t) ∧
  names t1 = names t ++ [n] ∧
  length (rows t1) = length (rows t) ∧
  (∀ m, m ∈ names t → get m <$> rows t1 = get m <$> rows t) ∧
  (n ∉ names t → get n <$> rows t1 = vs).
Proof.
  unfold pa.append_column. case_decide as Hlen; [|done]. intros [= <-].
  cbn [names rows]. repeat split; try done.
  - rewrite length_zip_with. lia.
  - intros m Hm. by apply get_zip_with_old.
  - intros Hn. by apply get_zip_with_new.
Qed.

(** Appending the columns of a list of named computations, as [enrich] and
    [select] do. *)
Lemma append_columns_Ok {A} (vals : A → result (list value)) (name : A → string)
    (es : list A) (t t' : Table) :
  foldM_result (λ t e, vs ← vals e; pa.append_column (name e) vs t) t es = Ok t' →
  names t' = names t ++ (name <$> es) ∧
  length (rows t') = length (rows t) ∧
  (∀ m, m ∈ names t → get m <$> rows t' = get m <$> rows t) ∧
  (NoDup (names t ++ (name <$> es)) →
   Forall (λ e, vals e = Ok (get (name e) <$> rows t')) es).
Proof.
  revert t. induction es as [|e es IH]; intros t; cbn [foldM_result].
  - intros [= <-]. rewrite app_nil_r. by repeat split.
  - intros (t1 & Ht1 & Hfold)%bind_Ok.
    apply bind_Ok in Ht1 as (vs & Hvs & Ht1).
    apply append_column_Ok in Ht1 as (Hlen & Hnames1 & Hlen1 & Hold1 & Hnew1).
    destruct (IH t1 Hfold) as (Hnames & Hlen' & Hold & Hnew).
    rewrite Hnames1 in Hnames, Hold, Hnew. rewrite <-app_assoc in Hnames, Hnew.
    split; [done|]. split; [congruence|]. split.
    + intros m Hm. rewrite Hold by (apply elem_of_app; by left). by apply Hold1.
    + intros Hnd. rewrite fmap_cons in Hnd. constructor; [|by apply Hnew].
      rewrite Hvs. f_equal. rewrite Hold by (apply elem_of_app; right; apply list_elem_of_here).
      symmetry. apply Hnew1. apply NoDup_app in Hnd as (_ & Hdisjoint & _).
      intros Hin. apply (Hdisjoint _ Hin). apply list_elem_of_here.
Qed.

Lemma foldM_result_app {A B} (f : B → A → result B) (b : B) (l1 l2 : list A) :
  foldM_result f b (l1 ++ l2) = foldM_result f b l1 ≫= (λ b1, foldM_result f b1 l2).
Proof.
  revert b. induction l1 as [|x l1 IH]; intros b; [done|].
  change ((x :: l1) ++ l2) with (x :: (l1 ++ l2)). cbn [foldM_result].
  destruct (f b x) as [b1|]; [|done]. cbn [mbind result_bind]. apply IH.
Qed.

Lemma pa_select_Ok (ns : list string) (t t' : Table) :
  pa.select ns t = Ok t' ↔
  Forall (λ n, n ∈ names t) ns ∧ t' = mkTable ns (project ns <$> rows t).
Proof.
  unfold pa.select. destruct (list_find _ ns) as [[i n]|] eqn:Hfind.
  - apply list_find_Some in Hfind as (Hi & Hn & _). split; [done|].
    intros [Hall _]. rewrite Forall_forall in Hall.
    exfalso. apply Hn, Hall. by eapply list_elem_of_lookup_2.
  - split.
    + intros [= <-]. split; [|done]. apply Forall_forall. intros n Hn.
      eapply list_find_None in Hfind. rewrite Forall_forall in Hfind.
      specialize (Hfind n Hn). cbv beta in Hfind.
      destruct (decide (n ∈ names t)); tauto.
    + by intros [_ ->].
Qed.


Lemma project_app_old (attrs ns : list string) (r x : row) :
  Forall (λ m, m ∈ ns) attrs → project attrs (project ns r ++ x) = project attrs r.
Proof.
  intros Hattrs. unfold project at 1 3. apply list_fmap_ext.
  intros _ m Hm%list_elem_of_lookup_2. f_equal. rewrite Forall_forall in Hattrs.
  rewrite get_app, decide_True by (rewrite project_keys; by apply Hattrs).
  apply get_project. by apply Hattrs.
Qed.

Lemma get_app_new (ns : list string) (n : string) (r : row) (v : value) :
  n ∉ ns → get n (project ns r ++ [(n, v)]) = v.
Proof.
  intros Hn. rewrite get_app, decide_False by by rewrite project_keys.
  simpl. by rewrite decide_True.
Qed.

Lemma project_idem (attrs : list string) (r : row) :
  project attrs (project attrs r) = project attrs r.
Proof.
  rewrite <-(app_nil_r (project attrs r)) at 1. apply project_app_old.
  by apply Forall_forall.
Qed.

Section enrich_and_select.

Variable hash : list value → value.
Variable re_finditer : string → string → result (list (Z * Z)).
Variable reorder : ∀ A : Type, list A → list A.
Variable re_findall_len : string → string → Z → result nat.

(** X9.  [enrich] keeps the corpus, the membership table, the number of
    chunks and every column the chunks had, and appends one column per
    expression; when the new names are distinct from each other and from the
    old ones, the column named for an expression holds the values of that
    expression on the chunks as they were before the call. *)
Theorem enrich_appends_columns
    (exprs : list (string * AttrExpr)) (h : heap) (c c' : Chunks) :
  Chunks_enrich hash re_finditer reorder re_findall_len exprs h c = Ok c' →
  corpus c' = corpus c ∧ chunk_atoms c' = chunk_atoms c ∧
  names (chunks c') = names (chunks c) ++ exprs.*1 ∧
  Chunks_len c' = Chunks_len c ∧
  (∀ m, m ∈ names (chunks c) →
        get m <$> rows (chunks c') = get m <$> rows (chunks c)) ∧
  (NoDup (names (chunks c) ++ exprs.*1) →
   Forall (λ ne, AttrExpr_call hash re_finditer reorder re_findall_len ne.2 h c
                 = Ok (get ne.1 <$> rows (chunks c'))) exprs).
Proof.
  unfold Chunks_enrich. intros (t' & Hfold & [= <-])%bind_Ok. cbn [corpus chunks chunk_atoms].
  apply (append_columns_Ok (λ ne : string * AttrExpr,
            AttrExpr_call hash re_finditer reorder re_findall_len ne.2 h c) fst) in Hfold
    as (Hnames & Hlen & Hold & Hnew).
  by repeat split.
Qed.

Lemma pl_select_id_ext (new : string) (t1 t2 : Table) :
  ("id" ∈ names t1 ↔ "id" ∈ names t2) →
  get "id" <$> rows t1 = get "id" <$> rows t2 →
  pl.select [(new, "id")] t1 = pl.select [(new, "id")] t2.
Proof.
  intros Hiff Hrows. destruct (decide ("id" ∈ names t1)) as [H1|H1].
  - rewrite !pl_select_Ok by (repeat constructor; tauto). do 2 f_equal.
    change (λ r : row, (λ c : string * string, (c.1, get c.2 r)) <$> [(new, "id")])
      with ((λ v : value, [(new, v)]) ∘ get "id").
    by rewrite !list_fmap_compose, Hrows.
  - assert ("id" ∉ names t2) as H2 by tauto.
    unfold pl.select. cbn [list_find snd]. by rewrite !decide_True.
Qed.

(** An attribute expression reads the chunks' [id] column, their membership
    table and their corpus, and nothing else of the chunks. *)
Lemma AttrExpr_call_same_ids (e : AttrExpr) (h : heap) (c1 c2 : Chunks) :
  same_ids c1 c2 →
  AttrExpr_call hash re_finditer reorder re_findall_len e h c1
  = AttrExpr_call hash re_finditer reorder re_findall_len e h c2.
Proof.
  destruct c1 as [l1 t1 ca1], c2 as [l2 t2 ca2]. unfold same_ids.
  cbn [corpus chunks chunk_atoms]. intros (-> & -> & Hiff & Hrows).
  induction e as [attr|stringifier IH pattern flags|chunk_b agg|delimiter
                 |chunk_delimiters atom_delimiter]; cbn [AttrExpr_call].
  - unfold AtomData_call. cbn [corpus chunks chunk_atoms].
    by rewrite (pl_select_id_ext "chunk" t1 t2).
  - by rewrite IH.
  - reflexivity.
  - unfold SimpleStringify_call. cbn [corpus chunks chunk_atoms].
    by rewrite (pl_select_id_ext "id" t1 t2).
  - unfold ChunkDelimitedStringify_call. cbn [corpus chunks chunk_atoms].
    by rewrite (pl_select_id_ext "id" t1 t2).
Qed.

Lemma enrich_same_ids (exprs : list (string * AttrExpr)) (h : heap) (c c' : Chunks) :
  "id" ∈ names (chunks c) →
  Chunks_enrich hash re_finditer reorder re_findall_len exprs h c = Ok c' →
  same_ids c' c.
Proof.
  intros Hid. unfold Chunks_enrich. intros (t' & Hfold & [= <-])%bind_Ok.
  apply (append_columns_Ok
           (λ ne : string * AttrExpr,
              AttrExpr_call hash re_finditer reorder re_findall_len ne.2 h c) fst)
    in Hfold as (Hnames & _ & Hold & _).
  unfold same_ids. cbn [corpus chunks chunk_atoms]. repeat split; try done.
  - intros _. rewrite Hnames. apply elem_of_app. by left.
  - by apply Hold.
Qed.

(** X10.  When the names given to the expressions [es1] are new, distinct
    from each other and from the columns the chunks have (themselves
    distinct), enriching with [es1] followed by [es2] in one call is
    enriching with [es1] and then enriching the result with [es2], failures
    included: the values of an expression do not depend on the attributes
    added before it.  (With a repeated column name the intermediate table
    is not one Polars reads.) *)
Theorem enrich_in_steps
    (es1 es2 : list (string * AttrExpr)) (h : heap) (c : Chunks) :
  "id" ∈ names (chunks c) →
  NoDup (names (chunks c) ++ es1.*1) →
  Chunks_enrich hash re_finditer reorder re_findall_len (es1 ++ es2) h c
  = Chunks_enrich hash re_finditer reorder re_findall_len es1 h c
      ≫= Chunks_enrich hash re_finditer reorder re_findall_len es2 h.
Proof.
  intros Hid _.
  assert (∀ t1, foldM_result
            (λ enriched (ne : string * AttrExpr),
               vs ← AttrExpr_call hash re_finditer reorder re_findall_len ne.2 h c;
               pa.append_column ne.1 vs enriched) (chunks c) es1 = Ok t1 →
          same_ids (mkChunks (corpus c) t1 (chunk_atoms c)) c) as Hsame.
  { intros t1 Hfold1. apply (enrich_same_ids es1 h); [done|].
    unfold Chunks_enrich. by rewrite Hfold1. }
  unfold Chunks_enrich. rewrite foldM_result_app.
  destruct (foldM_result _ (chunks c) es1) as [t1|err]; cbn [mbind result_bind]; [|done].
  specialize (Hsame t1 eq_refl). cbn [corpus chunks chunk_atoms].
  f_equal. apply foldM_result_ext. intros t ne.
  by rewrite (AttrExpr_call_same_ids ne.2 h _ c Hsame).
Qed.

(** X11.  Materializing an expression with [select] gives the table that
    enriching with it and then selecting the new attribute by name gives:
    [chunks.select(attrs, n=e)] is [chunks.enrich(n=e).select(attrs, n)]
    when [n] is a new name and [attrs] are attributes of the chunks. *)
Theorem enrich_then_select
    (attrs : list string) (n : string) (e : AttrExpr) (h : heap) (c c' : Chunks) :
  n ∉ names (chunks c) →
  Forall (λ m, m ∈ names (chunks c)) attrs →
  Chunks_enrich hash re_finditer reorder re_findall_len [(n, e)] h c = Ok c' →
  Chunks_select hash re_finditer reorder re_findall_len (attrs ++ [n]) [] h c'
  = Chunks_select hash re_finditer reorder re_findall_len attrs [(n, inr e)] h c.
Proof.
  intros Hn Hattrs. unfold Chunks_enrich, Chunks_select. cbn [foldM_result fst snd].
  intros (t1 & Ht1 & [= <-])%bind_Ok.
  apply bind_Ok in Ht1 as (t1' & Ht1 & [= ->]).
  apply bind_Ok in Ht1 as (vs & Hvs & Ht1).
  unfold pa.append_column in Ht1. case_decide as Hlen; [|done]. injection Ht1 as <-.
  cbn [chunks]. rewrite Hvs.
  rewrite (proj2 (pa_select_Ok attrs (chunks c) _) (conj Hattrs eq_refl)).
  assert (Forall (λ m, m ∈ names (chunks c) ++ [n]) (attrs ++ [n])) as Hall.
  { apply Forall_app. split.
    - eapply Forall_impl; [exact Hattrs|]. intros m Hm. apply elem_of_app. by left.
    - repeat constructor. apply elem_of_app. right. apply list_elem_of_here. }
  rewrite (proj2 (pa_select_Ok (attrs ++ [n])
                    (mkTable (names (chunks c) ++ [n])
                       (zip_with (λ r v, project (names (chunks c)) r ++ [(n, v)])
                          (rows (chunks c)) vs)) _) (conj Hall eq_refl)).
  assert (∀ rs : list row,
            project (attrs ++ [n]) <$>
              zip_with (λ r v, project (names (chunks c)) r ++ [(n, v)]) rs vs
            = zip_with (λ r v, project attrs r ++ [(n, v)]) (project attrs <$> rs) vs)
    as Hrows.
  { clear Hlen Hvs Hall. intros rs. revert vs.
    induction rs as [|r rs IH]; intros [|v vs]; try done.
    rewrite fmap_cons. cbn [zip_with]. rewrite fmap_cons. f_equal; [|apply IH].
    unfold project at 1. rewrite fmap_app.
    fold (project attrs (project (names (chunks c)) r ++ [(n, v)])).
    rewrite project_app_old by done. rewrite project_idem. f_equal.
    simpl. by rewrite get_app_new. }
  cbn [mbind result_bind]. unfold pa.append_column. cbn [names rows].
  rewrite decide_True by by rewrite length_fmap.
  cbn [mbind result_bind]. by rewrite Hrows.
Qed.


End enrich_and_select.

Lemma enrich_appends_columns_witness :
  ∃ c',
    Chunks_enrich Example.hash Example.finditer Example.keep_order Example.findall_len
      [("text", SimpleStringify " ")] Example.store Example.line = Ok c' ∧
    corpus c' = corpus Example.line ∧ chunk_atoms c' = chunk_atoms Example.line ∧
    names (chunks c') = names (chunks Example.line) ++ ["text"] ∧
    Chunks_len c' = Chunks_len Example.line ∧
    (∀ m, m ∈ names (chunks Example.line) →
          get m <$> rows (chunks c') = get m <$> rows (chunks Example.line)) ∧
    (NoDup (names (chunks Example.line) ++ ["text"]) →
     Forall (λ ne : string * AttrExpr,
               AttrExpr_call Example.hash Example.finditer Example.keep_order
                 Example.findall_len ne.2 Example.store Example.line
               = Ok (get ne.1 <$> rows (chunks c')))
       [("text", SimpleStringify " ")]).
Proof.
  eexists. split; [vm_compute; reflexivity|].
  apply (enrich_appends_columns Example.hash Example.finditer Example.keep_order
           Example.findall_len [("text", SimpleStringify " ")] Example.store
           Example.line).
  vm_compute. reflexivity.
Defined.

Lemma enrich_in_steps_witness :
  Chunks_enrich Example.hash Example.finditer Example.keep_order Example.findall_len
    ([("text", SimpleStringify " ")] ++ [("the", RegexCount (SimpleStringify " ") "the" 0)])
    Example.store Example.line
  = Chunks_enrich Example.hash Example.finditer Example.keep_order Example.findall_len
      [("text", SimpleStringify " ")] Example.store Example.line
      ≫= Chunks_enrich Example.hash Example.finditer Example.keep_order
           Example.findall_len [("the", RegexCount (SimpleStringify " ") "the" 0)]
           Example.store.
Proof.
  apply (enrich_in_steps Example.hash Example.finditer Example.keep_order
           Example.findall_len); by_evaluation.
Defined.

Lemma enrich_then_select_witness :
  ∃ c',
    Chunks_enrich Example.hash Example.finditer Example.keep_order Example.findall_len
      [("text", SimpleStringify " ")] Example.store Example.line = Ok c' ∧
    Chunks_select Example.hash Example.finditer Example.keep_order Example.findall_len
      (["ordinal"] ++ ["text"]) [] Example.store c'
    = Chunks_select Example.hash Example.finditer Example.keep_order Example.findall_len
        ["ordinal"] [("text", inr (SimpleStringify " "))] Example.store Example.line.
Proof.
  eexists. split; [vm_compute; reflexivity|].
  apply (enrich_then_select Example.hash Example.finditer Example.keep_order
           Example.findall_len ["ordinal"] "text" (SimpleStringify " ")
           Example.store Example.line).
  - by_evaluation.
  - by_evaluation.
  - vm_compute. reflexivity.
Defined.


(** ** chunkers.py: the tables of the chunks made *)

(** X13.  The chunk collection [RegexMatchChunk] returns refers to the corpus
    it was made from, its chunk ids are pairwise distinct, and its two tables
    agree: an id is a row of [chunks] exactly when a membership row names
    it. *)
Theorem RegexMatchChunk_tables_agree
    (hash : list value → value)
    (re_finditer : string → string → result (list (Z * Z)))
    (reorder : ∀ A : Type, list A → list A)
    (spans : string → list (Z * Z))
    (constrain_to pattern : string) (h : heap) (l : loc)
    (corp : Corpus) (bounding : Chunks) :
  (∀ A (l : list A), reorder A l ≡ₚ l) →
  (∀ x, re_finditer pattern x = Ok (spans x)) →
  h !! l = Some corp →
  "ordinal" ∈ names (atoms corp) →
  "text" ∈ names (atoms corp) →
  "id" ∈ names (atoms corp) →
  registry corp !! constrain_to = Some bounding →
  names (chunk_atoms bounding) = ["chunk"; "atom"] →
  Forall (λ a, is_text (get "text" a)) (rows (atoms corp)) →
  ∃ out,
    RegexMatchChunk_call hash re_finditer reorder constrain_to pattern h l = Ok out ∧
    corpus out = l ∧
    names (chunks out) = ["id"] ∧ names (chunk_atoms out) = ["chunk"; "atom"] ∧
    NoDup (get "id" <$> rows (chunks out)) ∧
    (∀ id, id ∈ get "id" <$> rows (chunks out) ↔
           ∃ a, membership id a ∈ rows (chunk_atoms out)).
Proof.
  intros Hperm Hre Hh Hord Htext Hid Hreg Hschema Htexts.
  eexists. split.
  { exact (RegexMatchChunk_call_Ok hash re_finditer reorder spans pattern Hperm Hre
             h l corp bounding constrain_to Hh Hord Htext Hid Hreg Hschema Htexts). }
  split; [done|]. split; [done|]. split; [done|].
  set (sorted := sorted_rows bounding corp).
  pose proof (regex_chunks_nonempty hash reorder spans sorted Hperm) as Hne.
  rewrite to_Chunks_ids. split.
  - unfold regex_chunks. rewrite <-list_fmap_compose.
    change (fst ∘ (λ g : value * list row, (g.1, get "atom" <$> g.2)))
      with (fst : value * list row → value).
    rewrite (Hperm _ (pl.group_by _ _)), group_by_keys. apply NoDup_unique.
  - intros id. by apply to_Chunks_member_ids.
Qed.

Lemma RegexMatchChunk_tables_agree_witness :
  ∃ out,
    RegexMatchChunk_call Example.hash Example.finditer Example.reversed
      "line" "the" Example.store Example.self = Ok out ∧
    corpus out = Example.self ∧
    names (chunks out) = ["id"] ∧ names (chunk_atoms out) = ["chunk"; "atom"] ∧
    NoDup (get "id" <$> rows (chunks out)) ∧
    (∀ id, id ∈ get "id" <$> rows (chunks out) ↔
           ∃ a, membership id a ∈ rows (chunk_atoms out)).
Proof.
  apply (RegexMatchChunk_tables_agree Example.hash Example.finditer Example.reversed
           (λ x, Example.literal_spans "the" x 0)
           "line" "the" Example.store Example.self Example.corpus_ Example.line).
  - intros A l. apply reverse_Permutation.
  - intros x. reflexivity.
  - reflexivity.
  - by_evaluation.
  - by_evaluation.
  - by_evaluation.
  - reflexivity.
  - reflexivity.
  - by_evaluation.
Defined.

(** ** chunkers.py: FixedSizeChunk with an offset *)

Lemma elem_of_dynamic_windows cw every period (g : list (Z * row)) (w : Z * list row) :
  w ∈ dynamic_windows cw every period g ↔
  ∃ t0, head g.*1 = Some t0 ∧
        w.1 ∈ window_starts every t0 (List.last g.*1 t0) ∧
        w.2 = snd <$> filter (λ tr, is_member cw w.1 (w.1 + period) tr.1) g ∧
        w.2 ≠ [].
Proof.
  unfold dynamic_windows. destruct g as [|[t0 r0] g'].
  { split; [by intros ?%elem_of_nil|by intros (t0 & ? & _)]. }
  set (g := (t0, r0) :: g'). rewrite list_elem_of_omap. split.
  - intros (lo & Hlo & Hw). exists t0. split; [done|].
    destruct (filter _ g) as [|x ms] eqn:Hfilter; [done|]. injection Hw as <-.
    cbn [fst snd]. rewrite Hfilter. by repeat split.
  - intros (t0' & [= <-] & Hlo & Hw & Hne). exists w.1. split; [done|].
    destruct (filter _ g) as [|x ms] eqn:Hfilter; [by rewrite Hw in Hne|].
    destruct w as [lo rs]. cbn [fst snd] in *. by rewrite Hw.
Qed.

Lemma elem_of_window_starts every t0 last lo :
  lo ∈ window_starts every t0 last ↔
  ∃ j, 0 ≤ j ≤ (last - t0) `div` every ∧ lo = t0 + j * every.
Proof.
  unfold window_starts. rewrite list_elem_of_fmap. split.
  - intros (j & -> & Hj%elem_of_seqZ). exists j. split; [lia|done].
  - intros (j & Hj & ->). exists j. split; [done|]. apply elem_of_seqZ. lia.
Qed.

Lemma StronglySorted_head_le (t0 : Z) (l : list Z) (t : Z) :
  StronglySorted Z.le (t0 :: l) → t ∈ t0 :: l → t0 ≤ t.
Proof.
  intros Hs%StronglySorted_inv [->|Ht]%elem_of_cons; [lia|].
  destruct Hs as [_ Hall]. rewrite Forall_forall in Hall. by apply Hall.
Qed.

Lemma StronglySorted_le_last (l : list Z) (d t : Z) :
  StronglySorted Z.le l → t ∈ l → t ≤ List.last l d.
Proof.
  induction 1 as [|x l Hl IH Hx]; [by intros ?%elem_of_nil|].
  rewrite last_cons. intros [->|Ht]%elem_of_cons.
  - destruct l as [|y l']; [simpl; lia|].
    rewrite Forall_forall in Hx. apply Hx.
    destruct (exists_last (l := y :: l')) as (l0 & z & Heq); [done|].
    rewrite Heq, last_last. apply elem_of_app. right. apply list_elem_of_here.
  - assert (List.last l x = List.last l d) as ->; [|by apply IH].
    destruct l as [|y l']; [by apply elem_of_nil in Ht|]. by rewrite !last_cons.
Qed.

Section FixedSizeChunk_left.

Variable corp : Corpus.
Variable constrain_to : string.
Variable bounding : Chunks.
Variables size offset : Z.
Hypothesis Hord : "ordinal" ∈ names (atoms corp).
Hypothesis Hid : "id" ∈ names (atoms corp).
Hypothesis Hreg : registry corp !! constrain_to = Some bounding.
Hypothesis Hschema : names (chunk_atoms bounding) = ["chunk"; "atom"].
Hypothesis Hints : Forall (λ a, is_int (get "ordinal" a)) (rows (atoms corp)).
Hypothesis Hevery : 0 < size + offset.

Lemma sorted_rows_int r : r ∈ sorted_rows bounding corp → is_int (get "ordinal" r).
Proof.
  unfold sorted_rows. rewrite sort_rows_Permutation.
  by apply (joined_rows_int corp bounding Hord Hints).
Qed.

Lemma FixedSizeChunk_windows_left :
  FixedSizeChunk_windows constrain_to size offset "left" corp
  = Ok (g ← pl.group_by (get "constraint") (sorted_rows bounding corp);
        (λ w, (g.1, w.1, w.2)) <$>
          dynamic_windows ClosedLeft (size + offset) size
            ((λ r, (ordinal_of r, r)) <$> g.2)).
Proof.
  unfold FixedSizeChunk_windows.
  rewrite (joined_Ok _ _ _ Hreg Hschema Hid). cbn [mbind result_bind].
  rewrite sort_Ok.
  2:{ constructor; [apply elem_of_app; left; by_evaluation|].
      constructor; [|constructor].
      apply joined_names_elem; [by_evaluation|done]. }
  cbn [mbind result_bind]. unfold group_by_dynamic.
  change (parse_closed "left") with (Ok ClosedLeft). cbn [mbind result_bind].
  rewrite decide_False by lia. cbn [rows]. fold (sorted_rows bounding corp).
  rewrite (mapM_result_total _ (λ g, (g.1, (λ r, (ordinal_of r, r)) <$> g.2))).
  - cbn [mbind result_bind]. f_equal. rewrite list_fmap_bind.
    by apply list_bind_ext.
  - apply Forall_forall. intros g [_ Hg]%elem_of_group_by.
    rewrite (mapM_result_total _ (λ r, (ordinal_of r, r))); [done|].
    apply Forall_forall. intros r Hr. rewrite Hg in Hr.
    apply list_elem_of_filter in Hr as [_ Hr].
    by apply index_of_int, sorted_rows_int.
Qed.

(** The ordinals of a bounding chunk's rows ascend in the sorted frame. *)
Lemma group_ordinals_sorted (b : value) :
  StronglySorted Z.le
    (ordinal_of <$> filter (λ r, get "constraint" r = b) (sorted_rows bounding corp)).
Proof.
  apply (StronglySorted_fmap_Forall (pl.row_le ["constraint"; "ordinal"]) Z.le
           (λ r, get "constraint" r = b ∧ is_int (get "ordinal" r))).
  - intros x y [Hx Hix] [Hy Hiy] Hle.
    apply row_le_same_constraint in Hle; [|congruence].
    unfold ordinal_of. destruct (get "ordinal" x), (get "ordinal" y); done.
  - apply Forall_forall. intros r [Hc Hr]%list_elem_of_filter. split; [done|].
    by apply sorted_rows_int.
  - apply StronglySorted_filter, sort_rows_StronglySorted.
Qed.

End FixedSizeChunk_left.

Lemma elem_of_bounding_rows bounding corp b r :
  r ∈ filter (λ r, get "constraint" r = b) (sorted_rows bounding corp) ↔
  r ∈ bounding_rows bounding corp b.
Proof.
  unfold bounding_rows, sorted_rows. rewrite !list_elem_of_filter.
  by rewrite sort_rows_Permutation.
Qed.

(** X14.  On a corpus with integer ordinals, [FixedSizeChunk(constrain_to,
    size, offset)] with the default [closed="left"] and [size + offset > 0]
    returns chunks none of which is empty and none of which crosses a
    bounding chunk: a window holds exactly the rows of one bounding chunk
    whose ordinal lies in [[start, start + size)], and its start is the least
    ordinal of that bounding chunk plus a multiple of [size + offset]. *)
Theorem FixedSizeChunk_windows_stay_in_bounds
    (hash : list value → value) (constrain_to : string) (size offset : Z)
    (h : heap) (l : loc) (corp : Corpus) (bounding : Chunks) :
  h !! l = Some corp →
  "ordinal" ∈ names (atoms corp) →
  "id" ∈ names (atoms corp) →
  registry corp !! constrain_to = Some bounding →
  names (chunk_atoms bounding) = ["chunk"; "atom"] →
  Forall (λ a, is_int (get "ordinal" a)) (rows (atoms corp)) →
  0 < size + offset →
  ∃ ws,
    FixedSizeChunk_windows constrain_to size offset "left" corp = Ok ws ∧
    FixedSizeChunk_call hash constrain_to size offset "left" h l
    = Ok (to_Chunks l (window_chunks hash ws)) ∧
    ∀ w, w ∈ ws →
      w.2 ≠ [] ∧
      (∀ r, r ∈ w.2 ↔
            r ∈ bounding_rows bounding corp w.1.1 ∧
            w.1.2 ≤ ordinal_of r < w.1.2 + size) ∧
      ∃ r0 j, r0 ∈ bounding_rows bounding corp w.1.1 ∧
              (∀ r, r ∈ bounding_rows bounding corp w.1.1 →
                    ordinal_of r0 ≤ ordinal_of r) ∧
              0 ≤ j ∧ w.1.2 = ordinal_of r0 + j * (size + offset).
Proof.
  intros Hh Hord Hid Hreg Hschema Hints Hevery.
  pose proof (FixedSizeChunk_windows_left corp constrain_to bounding size offset
                Hord Hid Hreg Hschema Hints Hevery) as Hws.
  eexists. split; [exact Hws|]. split.
  { unfold FixedSizeChunk_call. rewrite (deref_Ok _ _ _ Hh). cbn [mbind result_bind].
    rewrite (proj2 (has_column_true _ _) Hord). cbn [negb].
    rewrite Hws. reflexivity. }
  clear Hws. intros w (g & Hw & Hg)%list_elem_of_bind.
  apply list_elem_of_fmap in Hw as (w' & -> & Hw').
  apply elem_of_group_by in Hg as [_ Hg]. cbn [fst snd].
  apply elem_of_dynamic_windows in Hw' as (t0 & Ht0 & Hlo & Hrows & Hne).
  split; [done|].
  pose proof (group_ordinals_sorted corp bounding Hord Hints g.1) as Hsorted.
  rewrite <-Hg in Hsorted.
  rewrite <-list_fmap_compose in Ht0, Hlo.
  change (fst ∘ (λ r : row, (ordinal_of r, r))) with ordinal_of in Ht0, Hlo.
  split.
  - intros r. rewrite Hrows, filter_fmap, <-list_fmap_compose.
    change (snd ∘ (λ r : row, (ordinal_of r, r))) with (id : row → row).
    rewrite list_fmap_id, list_elem_of_filter. cbn [fst is_member].
    rewrite Hg, elem_of_bounding_rows. tauto.
  - destruct g.2 as [|r0 rs] eqn:Hg2; [done|]. injection Ht0 as <-.
    apply elem_of_window_starts in Hlo as (j & Hj & Hlo).
    assert (∀ r, r ∈ bounding_rows bounding corp g.1 → r ∈ r0 :: rs) as Hin.
    { intros r Hr. rewrite Hg. by apply elem_of_bounding_rows. }
    exists r0, j. split; [|split; [|split; [lia|done]]].
    + apply elem_of_bounding_rows. rewrite <-Hg. apply list_elem_of_here.
    + intros r Hr%Hin. apply (StronglySorted_head_le _ (ordinal_of <$> rs)); [done|].
      rewrite <-fmap_cons. apply list_elem_of_fmap. by exists r.
Qed.

Lemma FixedSizeChunk_windows_stay_in_bounds_witness :
  ∃ ws,
    FixedSizeChunk_windows "line" 3 (-1) "left" Example.corpus_ = Ok ws ∧
    FixedSizeChunk_call Example.hash "line" 3 (-1) "left" Example.store Example.self
    = Ok (to_Chunks Example.self (window_chunks Example.hash ws)) ∧
    ∀ w, w ∈ ws →
      w.2 ≠ [] ∧
      (∀ r, r ∈ w.2 ↔
            r ∈ bounding_rows Example.line Example.corpus_ w.1.1 ∧
            w.1.2 ≤ ordinal_of r < w.1.2 + 3) ∧
      ∃ r0 j, r0 ∈ bounding_rows Example.line Example.corpus_ w.1.1 ∧
              (∀ r, r ∈ bounding_rows Example.line Example.corpus_ w.1.1 →
                    ordinal_of r0 ≤ ordinal_of r) ∧
              0 ≤ j ∧ w.1.2 = ordinal_of r0 + j * (3 + -1).
Proof.
  apply (FixedSizeChunk_windows_stay_in_bounds Example.hash "line" 3 (-1)
           Example.store Example.self Example.corpus_ Example.line).
  - reflexivity.
  - by_evaluation.
  - by_evaluation.
  - reflexivity.
  - reflexivity.
  - by_evaluation.
  - lia.
Defined.

(** *** Windows without offset share out the rows *)

Lemma bind_filter_one {A J} (P : J → A → Prop) `{!∀ j x, Decision (P j x)}
    (js : list J) (j0 : J) (x : A) (l : list A) :
  NoDup js → j0 ∈ js → (∀ j, j ∈ js → P j x ↔ j = j0) →
  js ≫= (λ j, filter (P j) (x :: l)) ≡ₚ x :: (js ≫= (λ j, filter (P j) l)).
Proof.
  induction js as [|j js IH]; intros Hnd Hj0 Hone; [by apply elem_of_nil in Hj0|].
  apply NoDup_cons in Hnd as [Hj Hnd]. rewrite !bind_cons, filter_cons.
  destruct (decide (P j x)) as [HP|HP].
  - apply Hone in HP as ->; [|apply list_elem_of_here].
    simpl. do 2 f_equiv.
    enough (js ≫= (λ j, filter (P j) (x :: l)) = js ≫= (λ j, filter (P j) l)) as -> by done.
    apply Forall_bind_ext, Forall_forall. intros j' Hj'.
    rewrite filter_cons, decide_False; [done|].
    intros HP. apply Hone in HP; [|by apply list_elem_of_further]. by subst.
  - assert (j ≠ j0) as Hne.
    { intros ->. apply HP, Hone; [apply list_elem_of_here|done]. }
    apply elem_of_cons in Hj0 as [?|Hj0]; [done|].
    rewrite IH; [|done|done|].
    + by rewrite Permutation_middle.
    + intros j' Hj'. apply Hone. by apply list_elem_of_further.
Qed.

(** Filtering a list on predicates of which every element satisfies exactly
    one shares the list out. *)
Lemma bind_filter_partition {A J} (P : J → A → Prop) `{!∀ j x, Decision (P j x)}
    (js : list J) (l : list A) :
  NoDup js →
  (∀ x, x ∈ l → ∃ j0, j0 ∈ js ∧ ∀ j, j ∈ js → P j x ↔ j = j0) →
  js ≫= (λ j, filter (P j) l) ≡ₚ l.
Proof.
  intros Hnd. induction l as [|x l IH]; intros Hone.
  - clear Hone Hnd. induction js as [|j js IHjs]; [done|]. by rewrite bind_cons.
  - destruct (Hone x (list_elem_of_here _ _)) as (j0 & Hj0 & Hx).
    rewrite (bind_filter_one P js j0 x l Hnd Hj0 Hx). f_equiv. apply IH.
    intros y Hy. apply Hone. by apply list_elem_of_further.
Qed.

Lemma group_by_partition (key : row → value) (rs : list row) :
  pl.group_by key rs ≫= snd ≡ₚ rs.
Proof.
  unfold pl.group_by. rewrite list_fmap_bind.
  change (snd ∘ (λ k : value, (k, filter (λ r : row, key r = k) rs)))
    with (λ k : value, filter (λ r : row, key r = k) rs).
  apply (bind_filter_partition (λ k r, key r = k)); [apply NoDup_unique|].
  intros r Hr. exists (key r). split.
  - apply elem_of_unique, list_elem_of_fmap. by exists r.
  - intros k _. split; congruence.
Qed.

Lemma bind_Permutation_pointwise {A B} (f g : A → list B) (l : list A) :
  (∀ x, x ∈ l → f x ≡ₚ g x) → l ≫= f ≡ₚ l ≫= g.
Proof.
  induction l as [|x l IH]; intros Hfg; [done|]. rewrite !bind_cons.
  f_equiv; [apply Hfg, list_elem_of_here|]. apply IH.
  intros y Hy. by apply Hfg, list_elem_of_further.
Qed.

Lemma dynamic_windows_rows cw every period (t0 : Z) (g : list (Z * row)) :
  head g.*1 = Some t0 →
  dynamic_windows cw every period g ≫= snd
  = window_starts every t0 (List.last g.*1 t0)
      ≫= (λ lo, snd <$> filter (λ tr, is_member cw lo (lo + period) tr.1) g).
Proof.
  unfold dynamic_windows. destruct g as [|[t0' r0] g']; [done|]. intros [= ->].
  set (g := (t0, r0) :: g').
  generalize (window_starts every t0 (List.last g.*1 t0)). intros starts.
  induction starts as [|lo starts IH]; [done|].
  cbn [omap list_omap]. rewrite bind_cons, <-IH.
  destruct (filter _ g) as [|x ms]; [done|]. by rewrite bind_cons.
Qed.

Lemma window_starts_NoDup every t0 last : 0 < every → NoDup (window_starts every t0 last).
Proof.
  intros Hevery. unfold window_starts. apply NoDup_fmap_2_strong; [|apply NoDup_seqZ].
  intros j j' _ _ Heq. nia.
Qed.

(** Windows of width [s] laid every [s] over ascending index values share
    out the rows. *)
Lemma dynamic_windows_partition (s : Z) (g : list (Z * row)) :
  0 < s → StronglySorted Z.le g.*1 →
  dynamic_windows ClosedLeft s s g ≫= snd ≡ₚ g.*2.
Proof.
  intros Hs Hsorted. destruct g as [|[t0 r0] g'] eqn:Heq; [done|]. rewrite <-Heq in *.
  assert (head g.*1 = Some t0) as Hhead by by rewrite Heq.
  rewrite (dynamic_windows_rows _ _ _ t0 g Hhead).
  set (last := List.last g.*1 t0).
  transitivity (snd <$> (window_starts s t0 last
                           ≫= (λ lo, filter (λ tr : Z * row, lo ≤ tr.1 < lo + s) g))).
  { generalize (window_starts s t0 last). intros starts.
    induction starts as [|lo starts IH]; [done|].
    rewrite !bind_cons, fmap_app. by f_equiv. }
  f_equiv. apply (bind_filter_partition (λ lo (tr : Z * row), lo ≤ tr.1 < lo + s));
    [by apply window_starts_NoDup|].
  intros tr Htr.
  assert (tr.1 ∈ g.*1) as Hin by (apply list_elem_of_fmap; by exists tr).
  assert (t0 ≤ tr.1) as Hlow.
  { rewrite Heq in Hsorted, Hin. by eapply StronglySorted_head_le. }
  assert (tr.1 ≤ last) as Hhigh by by apply StronglySorted_le_last.
  exists (t0 + (tr.1 - t0) `div` s * s). split.
  - apply elem_of_window_starts. exists ((tr.1 - t0) `div` s). split; [|done].
    split; [apply Z.div_pos; lia|]. apply Z.div_le_mono; lia.
  - intros lo (j & Hj & ->)%elem_of_window_starts.
    pose proof (Z.div_mod (tr.1 - t0) s ltac:(lia)) as Hdiv.
    pose proof (Z.mod_pos_bound (tr.1 - t0) s Hs) as Hmod.
    set (q := (tr.1 - t0) `div` s) in *. set (m := (tr.1 - t0) `mod` s) in *.
    split.
    + intros Hlo. assert (j = q) as -> by (apply Z.le_antisymm; nia). done.
    + intros Heq'. assert (j = q) as -> by nia. lia.
Qed.

Lemma bind_bind {A B C} (f : A → list B) (g : B → list C) (l : list A) :
  (l ≫= f) ≫= g = l ≫= (λ x, f x ≫= g).
Proof.
  induction l as [|x l IH]; [done|]. by rewrite !bind_cons, bind_app, IH.
Qed.

Lemma fmap_bind_list {A B C} (f : B → C) (g : A → list B) (l : list A) :
  f <$> (l ≫= g) = l ≫= (λ x, f <$> g x).
Proof.
  induction l as [|x l IH]; [done|]. by rewrite !bind_cons, fmap_app, IH.
Qed.

Lemma to_Chunks_atoms (l : loc) (cs : list (value * list value)) :
  Forall (λ c, c.2 ≠ []) cs →
  get "atom" <$> rows (chunk_atoms (to_Chunks l cs)) = cs ≫= snd.
Proof.
  unfold to_Chunks. cbn [chunk_atoms rows]. rewrite fmap_bind_list.
  intros Hne. apply Forall_bind_ext. eapply Forall_impl; [exact Hne|].
  intros [id [|a atoms_]] Hnil; [done|]. cbn [fst snd].
  rewrite <-list_fmap_compose. rewrite <-(list_fmap_id (a :: atoms_)) at 2.
  by apply list_fmap_ext.
Qed.

(** X15.  With [offset=0] and the default [closed="left"], on a corpus with
    integer ordinals, the windows of [FixedSizeChunk] share out the rows of
    the joined frame, whatever gaps or repeats the ordinals have: every pair
    of a bounding chunk and one of its atoms lands in exactly one chunk, so
    the membership table of the result lists the atoms of the joined frame,
    each as often as the frame has it. *)
Theorem FixedSizeChunk_without_offset_shares_out_atoms
    (hash : list value → value) (constrain_to : string) (size : Z)
    (h : heap) (l : loc) (corp : Corpus) (bounding : Chunks) :
  h !! l = Some corp →
  "ordinal" ∈ names (atoms corp) →
  "id" ∈ names (atoms corp) →
  registry corp !! constrain_to = Some bounding →
  names (chunk_atoms bounding) = ["chunk"; "atom"] →
  Forall (λ a, is_int (get "ordinal" a)) (rows (atoms corp)) →
  0 < size →
  ∃ ws out,
    FixedSizeChunk_windows constrain_to size 0 "left" corp = Ok ws ∧
    FixedSizeChunk_call hash constrain_to size 0 "left" h l = Ok out ∧
    ws ≫= (λ w, w.2) ≡ₚ joined_rows bounding corp ∧
    get "atom" <$> rows (chunk_atoms out) ≡ₚ get "atom" <$> joined_rows bounding corp.
Proof.
  intros Hh Hord Hid Hreg Hschema Hints Hsize.
  assert (0 < size + 0) as Hevery by lia.
  pose proof (FixedSizeChunk_windows_left corp constrain_to bounding size 0
                Hord Hid Hreg Hschema Hints Hevery) as Hws.
  rewrite Z.add_0_r in Hws.
  eexists _, _. split; [exact Hws|]. split.
  { unfold FixedSizeChunk_call. rewrite (deref_Ok _ _ _ Hh). cbn [mbind result_bind].
    rewrite (proj2 (has_column_true _ _) Hord). cbn [negb].
    rewrite Hws. reflexivity. }
  clear Hws.
  set (G := pl.group_by (get "constraint") (sorted_rows bounding corp)).
  set (F := λ g : value * list row,
         (λ w : Z * list row, (g.1, w.1, w.2)) <$>
           dynamic_windows ClosedLeft size size ((λ r, (ordinal_of r, r)) <$> g.2)).
  assert ((G ≫= F) ≫= (λ w, w.2) ≡ₚ joined_rows bounding corp) as Hshare.
  { rewrite bind_bind.
    transitivity (G ≫= snd); [|unfold G, sorted_rows;
                                 by rewrite group_by_partition, sort_rows_Permutation].
    apply bind_Permutation_pointwise. intros g [_ Hg]%elem_of_group_by.
    unfold F. rewrite list_fmap_bind.
    change ((λ w : value * Z * list row, w.2) ∘ (λ w : Z * list row, (g.1, w.1, w.2)))
      with (snd : Z * list row → list row).
    rewrite dynamic_windows_partition; [| done |].
    - rewrite <-list_fmap_compose. apply reflexive_eq, list_fmap_id.
    - rewrite <-list_fmap_compose, Hg.
      apply (group_ordinals_sorted corp bounding Hord Hints). }
  split; [exact Hshare|].
  rewrite to_Chunks_atoms.
  - unfold window_chunks. rewrite list_fmap_bind.
    change (snd ∘ (λ w : value * Z * list row,
                     (hash [w.1.1; VInt w.1.2], get "atom" <$> w.2)))
      with (λ w : value * Z * list row, get "atom" <$> w.2).
    by rewrite <-fmap_bind_list, Hshare.
  - unfold window_chunks. rewrite Forall_fmap. apply Forall_forall.
    intros w (g & Hw & _)%list_elem_of_bind.
    apply list_elem_of_fmap in Hw as (w' & -> & Hw'). cbn [snd].
    apply elem_of_dynamic_windows in Hw' as (_ & _ & _ & _ & Hne).
    by intros Hnil%fmap_nil_inv.
Qed.

Lemma FixedSizeChunk_without_offset_shares_out_atoms_witness :
  ∃ ws out,
    FixedSizeChunk_windows "document" 2 0 "left" Example.gapped_corpus = Ok ws ∧
    FixedSizeChunk_call Example.hash "document" 2 0 "left"
      Example.gapped_store Example.self = Ok out ∧
    ws ≫= (λ w, w.2)
    ≡ₚ joined_rows
         (default Example.document (registry Example.gapped_corpus !! "document"))
         Example.gapped_corpus ∧
    get "atom" <$> rows (chunk_atoms out)
    ≡ₚ get "atom" <$>
         joined_rows
           (default Example.document (registry Example.gapped_corpus !! "document"))
           Example.gapped_corpus.
Proof.
  apply (FixedSizeChunk_without_offset_shares_out_atoms Example.hash "document" 2
           Example.gapped_store Example.self Example.gapped_corpus).
  - reflexivity.
  - by_evaluation.
  - by_evaluation.
  - reflexivity.
  - reflexivity.
  - by_evaluation.
  - lia.
Defined.

(** *** The ids of the windows *)

Lemma dynamic_windows_starts_NoDup cw every period (g : list (Z * row)) :
  0 < every → NoDup (dynamic_windows cw every period g).*1.
Proof.
  intros Hevery. unfold dynamic_windows. destruct g as [|[t0 r0] g']; [constructor|].
  set (g := (t0, r0) :: g').
  pose proof (window_starts_NoDup every t0 (List.last g.*1 t0) Hevery) as Hnd.
  revert Hnd. generalize (window_starts every t0 (List.last g.*1 t0)). intros starts.
  induction 1 as [|lo starts Hlo Hnd IH]; [constructor|].
  cbn [omap list_omap]. destruct (filter _ g) as [|x ms]; [exact IH|].
  rewrite fmap_cons. constructor; [|exact IH]. cbn [fst].
  intros (w & Hw & (lo' & Hlo' & Hsome)%list_elem_of_omap)%list_elem_of_fmap.
  destruct (filter _ g) as [|x' ms']; [done|]. injection Hsome as <-.
  cbn [fst] in Hw. by subst.
Qed.

Lemma group_by_NoDup (key : row → value) (rs : list row) : NoDup (pl.group_by key rs).
Proof. apply (NoDup_fmap_1 fst). rewrite group_by_keys. apply NoDup_unique. Qed.

Lemma group_by_same_key (key : row → value) (rs : list row) (g1 g2 : value * list row) :
  g1 ∈ pl.group_by key rs → g2 ∈ pl.group_by key rs → g1.1 = g2.1 → g1 = g2.
Proof.
  intros [_ H1]%elem_of_group_by [_ H2]%elem_of_group_by Heq.
  destruct g1, g2; simpl in *. by subst.
Qed.

(** X16.  With the default [closed="left"] and [size + offset > 0], on a
    corpus with integer ordinals, the chunk collection [FixedSizeChunk]
    returns refers to the corpus it was made from and its two tables agree:
    an id is a row of [chunks] exactly when a membership row names it.  When
    the hash of (bounding chunk, window start) does not collide, the chunk
    ids are pairwise distinct. *)
Theorem FixedSizeChunk_tables_agree
    (hash : list value → value) (constrain_to : string) (size offset : Z)
    (h : heap) (l : loc) (corp : Corpus) (bounding : Chunks) :
  h !! l = Some corp →
  "ordinal" ∈ names (atoms corp) →
  "id" ∈ names (atoms corp) →
  registry corp !! constrain_to = Some bounding →
  names (chunk_atoms bounding) = ["chunk"; "atom"] →
  Forall (λ a, is_int (get "ordinal" a)) (rows (atoms corp)) →
  0 < size + offset →
  ∃ out,
    FixedSizeChunk_call hash constrain_to size offset "left" h l = Ok out ∧
    corpus out = l ∧
    names (chunks out) = ["id"] ∧ names (chunk_atoms out) = ["chunk"; "atom"] ∧
    (∀ id, id ∈ get "id" <$> rows (chunks out) ↔
           ∃ a, membership id a ∈ rows (chunk_atoms out)) ∧
    (window_hash_injective hash → NoDup (get "id" <$> rows (chunks out))).
Proof.
  intros Hh Hord Hid Hreg Hschema Hints Hevery.
  pose proof (FixedSizeChunk_windows_left corp constrain_to bounding size offset
                Hord Hid Hreg Hschema Hints Hevery) as Hws.
  eexists. split.
  { unfold FixedSizeChunk_call. rewrite (deref_Ok _ _ _ Hh). cbn [mbind result_bind].
    rewrite (proj2 (has_column_true _ _) Hord). cbn [negb].
    rewrite Hws. reflexivity. }
  clear Hws. split; [done|]. split; [done|]. split; [done|].
  set (G := pl.group_by (get "constraint") (sorted_rows bounding corp)).
  set (D := λ g : value * list row,
         dynamic_windows ClosedLeft (size + offset) size
           ((λ r, (ordinal_of r, r)) <$> g.2)).
  set (ws := G ≫= (λ g, (λ w : Z * list row, (g.1, w.1, w.2)) <$> D g)).
  fold (window_chunks hash ws). rewrite to_Chunks_ids. split.
  - intros id. apply to_Chunks_member_ids.
    unfold window_chunks. rewrite Forall_fmap. apply Forall_forall.
    intros w (g & Hw & _)%list_elem_of_bind.
    apply list_elem_of_fmap in Hw as (w' & -> & Hw'). cbn [snd].
    apply elem_of_dynamic_windows in Hw' as (_ & _ & _ & _ & Hne).
    by intros Hnil%fmap_nil_inv.
  - intros Hinj. unfold window_chunks. rewrite <-list_fmap_compose.
    change (fst ∘ (λ w : value * Z * list row,
                     (hash [w.1.1; VInt w.1.2], get "atom" <$> w.2)))
      with ((λ p : value * Z, hash [p.1; VInt p.2]) ∘ (fst : value * Z * list row → value * Z)).
    rewrite list_fmap_compose. apply NoDup_fmap_2_strong.
    { intros [b lo] [b' lo'] _ _ Heq. cbn [fst snd] in Heq.
      apply Hinj in Heq as [-> ->]. done. }
    unfold ws. rewrite fmap_bind_list. apply NoDup_bind.
    + intros g1 g2 p Hg1 Hg2 Hp1 Hp2.
      apply list_elem_of_fmap in Hp1 as (w1 & -> & Hw1).
      apply list_elem_of_fmap in Hw1 as (w1' & -> & _).
      apply list_elem_of_fmap in Hp2 as (w2 & Heq & Hw2).
      apply list_elem_of_fmap in Hw2 as (w2' & -> & _).
      cbn [fst] in Heq. injection Heq as Hkey _.
      by apply (group_by_same_key (get "constraint") (sorted_rows bounding corp)).
    + intros g _. rewrite <-list_fmap_compose.
      change (fst ∘ (λ w : Z * list row, (g.1, w.1, w.2)))
        with ((λ lo : Z, (g.1, lo)) ∘ (fst : Z * list row → Z)).
      rewrite list_fmap_compose. apply NoDup_fmap_2_strong.
      * by intros lo lo' _ _ [= ->].
      * by apply dynamic_windows_starts_NoDup.
    + apply group_by_NoDup.
Qed.

Lemma FixedSizeChunk_tables_agree_witness :
  ∃ out,
    FixedSizeChunk_call Example.hash "line" 3 (-1) "left" Example.store Example.self
    = Ok out ∧
    corpus out = Example.self ∧
    names (chunks out) = ["id"] ∧ names (chunk_atoms out) = ["chunk"; "atom"] ∧
    (∀ id, id ∈ get "id" <$> rows (chunks out) ↔
           ∃ a, membership id a ∈ rows (chunk_atoms out)) ∧
    (window_hash_injective Example.hash → NoDup (get "id" <$> rows (chunks out))).
Proof.
  apply (FixedSizeChunk_tables_agree Example.hash "line" 3 (-1)
           Example.store Example.self Example.corpus_ Example.line).
  - reflexivity.
  - by_evaluation.
  - by_evaluation.
  - reflexivity.
  - reflexivity.
  - by_evaluation.
  - lia.
Defined.

(** ** core.py: what a pipeline returns can be registered *)

Section pipelines.

Variable hash : list value → value.
Variable re_finditer : string → string → result (list (Z * Z)).
Variable reorder : ∀ A : Type, list A → list A.
Variable re_findall_len : string → string → Z → result nat.
Variable cast_kernel : string → list value → list value → result (list (option bool)).
Variable select_k_impl : list value → nat → pc.sort_order → list nat.

Lemma ChunkExpr_call_corpus (e : ChunkExpr) (h : heap) (l : loc) (out : Chunks) :
  ChunkExpr_call hash re_finditer reorder e h l = Ok out →
  corpus out = l ∧ is_Some (h !! l).
Proof.
  destruct e as [constrain_to size offset closed|constrain_to pattern];
    cbn [ChunkExpr_call].
  - unfold FixedSizeChunk_call. intros (corp & Hcorp & H)%bind_Ok.
    assert (is_Some (h !! l)) as Hl.
    { unfold deref in Hcorp. destruct (h !! l); [by eexists|done]. }
    destruct (negb _); [done|]. apply bind_Ok in H as (ws & _ & [= <-]). done.
  - unfold RegexMatchChunk_call. intros (corp & Hcorp & H)%bind_Ok.
    assert (is_Some (h !! l)) as Hl.
    { unfold deref in Hcorp. destruct (h !! l); [by eexists|done]. }
    destruct (negb _); [done|]. inv_bind H. injection H as <-. done.
Qed.

Lemma Corpus_chunk_corpus (h : heap) (l : loc) (ref : chunk_ref) (out : Chunks) :
  registry_closed h →
  Corpus_chunk hash re_finditer reorder h l ref = Ok out →
  corpus out = l ∧ is_Some (h !! l).
Proof.
  intros Hclosed. destruct ref as [name|e]; cbn [Corpus_chunk].
  - intros (corp & Hcorp & Hname)%bind_Ok. unfold deref in Hcorp.
    destruct (h !! l) as [corp'|] eqn:Hl; [|done]. injection Hcorp as ->.
    apply registry_lookup_Ok in Hname. split; [|by eexists].
    by apply (Hclosed l corp Hl name out).
  - apply ChunkExpr_call_corpus.
Qed.

Lemma Chunks_filter_corpus (fs : list ChunkFilter) (c c' : Chunks) :
  Chunks_filter cast_kernel select_k_impl fs c = Ok c' → corpus c' = corpus c.
Proof.
  revert c. induction fs as [|f fs IH]; intros c; cbn [Chunks_filter].
  - by intros [= <-].
  - intros (c1 & Hf & Hfs)%bind_Ok.
    apply ChunkFilter_call_Ok in Hf as (Hcorpus & _).
    rewrite <-Hcorpus. by apply IH.
Qed.

(** X17.  In a store whose registered chunks refer to their own corpus, what
    a pipeline [corpus.chunk(ref).filter(fs).enrich(es)] returns can
    always be registered on that corpus under any name: [set_chunk] does not
    raise, [Corpus.chunk] then hands the result back, and the registered
    chunks of the store still refer to their own corpus. *)
Theorem pipeline_result_can_be_registered
    (h : heap) (l : loc) (ref : chunk_ref) (fs : list ChunkFilter)
    (es : list (string * AttrExpr)) (name : string) (c0 c1 c2 : Chunks) :
  registry_closed h →
  Corpus_chunk hash re_finditer reorder h l ref = Ok c0 →
  Chunks_filter cast_kernel select_k_impl fs c0 = Ok c1 →
  Chunks_enrich hash re_finditer reorder re_findall_len es h c1 = Ok c2 →
  ∃ h',
    set_chunk h l name c2 = Ok h' ∧
    registry_closed h' ∧
    Corpus_chunk hash re_finditer reorder h' l (ByName name) = Ok c2.
Proof.
  intros Hclosed Hc0 Hc1 Hc2.
  apply (Corpus_chunk_corpus _ _ _ _ Hclosed) in Hc0 as [Hl0 [corp Hcorp]].
  apply Chunks_filter_corpus in Hc1.
  unfold Chunks_enrich in Hc2. apply bind_Ok in Hc2 as (t & _ & [= <-]).
  assert (corpus (mkChunks (corpus c1) t (chunk_atoms c1)) = l) as Hl
    by (cbn [corpus]; congruence).
  eexists. split; [|split].
  - apply set_chunk_Ok. by exists corp.
  - apply map_Forall_insert_2; [|done]. cbn [registry].
    apply map_Forall_insert_2; [done|]. by apply (Hclosed l corp).
  - cbn [Corpus_chunk]. unfold deref. rewrite lookup_insert_eq. cbn [mbind result_bind].
    unfold registry_lookup. cbn [registry]. by rewrite lookup_insert_eq.
Qed.

End pipelines.

Lemma pipeline_result_can_be_registered_witness :
  ∃ h',
    set_chunk Example.store Example.self "pairs" Example2.pairs_text = Ok h' ∧
    registry_closed h' ∧
    Corpus_chunk Example.hash Example.finditer Example.keep_order h' Example.self
      (ByName "pairs") = Ok Example2.pairs_text.
Proof.
  apply (pipeline_result_can_be_registered Example.hash Example.finditer
           Example.keep_order Example.findall_len Example.cast_kernel Example.select_k
           Example.store Example.self (ByExpr (FixedSizeChunk "line" 2 0 "left"))
           [] [("text", SimpleStringify " ")] "pairs"
           Example2.pairs Example2.pairs Example2.pairs_text).
  - unfold registry_closed. by_evaluation.
  - vm_compute. reflexivity.
  - reflexivity.
  - vm_compute. reflexivity.
Defined.

(** ** exprs.py: RegexCount *)

Section RegexCount_facts.

Variable hash : list value → value.
Variable re_finditer : string → string → result (list (Z * Z)).
Variable reorder : ∀ A : Type, list A → list A.
Variable re_findall_len : string → string → Z → result nat.

(** X18.  For a pattern on which [re.findall] returns, [RegexCount] succeeds
    exactly when its stringifier returns nothing but strings; it then returns
    one count per string, in the stringifier's order.  A null among the
    stringifier's values, as [SimpleStringify] gives for a chunk without
    atoms, makes the whole expression fail. *)
Theorem RegexCount_counts_every_string
    (stringifier : AttrExpr) (pattern : string) (flags : Z) (count : string → nat)
    (h : heap) (c : Chunks) (strings : list value) :
  (∀ s, re_findall_len pattern s flags = Ok (count s)) →
  AttrExpr_call hash re_finditer reorder re_findall_len stringifier h c = Ok strings →
  (is_Ok (AttrExpr_call hash re_finditer reorder re_findall_len
            (RegexCount stringifier pattern flags) h c) ↔ Forall is_str strings) ∧
  (Forall is_str strings →
   AttrExpr_call hash re_finditer reorder re_findall_len
     (RegexCount stringifier pattern flags) h c
   = Ok ((λ v, match v with VStr s => VInt (Z.of_nat (count s)) | _ => VNull end)
           <$> strings)).
Proof.
  intros Hcount Hstrings. cbn [AttrExpr_call]. rewrite Hstrings. cbn [mbind result_bind].
  clear Hstrings.
  assert (Forall is_str strings →
          mapM_result
            (λ text, match text with
                     | VStr s => n ← re_findall_len pattern s flags; Ok (VInt (Z.of_nat n))
                     | _ => Err (TypeError "expected string or bytes-like object")
                     end) strings
          = Ok ((λ v, match v with VStr s => VInt (Z.of_nat (count s)) | _ => VNull end)
                  <$> strings)) as Htotal.
  { intros Hstr. apply mapM_result_total. eapply Forall_impl; [exact Hstr|].
    intros [| | | |s|] Hv; try done. by rewrite Hcount. }
  split; [|exact Htotal]. split; [|intros Hstr; rewrite (Htotal Hstr); by eexists].
  intros [counts Hcounts]. apply mapM_result_Ok in Hcounts.
  clear Htotal. induction Hcounts as [|v n vs ns Hv _ IH]; constructor; [|exact IH].
  by destruct v.
Qed.

End RegexCount_facts.

Lemma RegexCount_counts_every_string_witness :
  (is_Ok (AttrExpr_call Example.hash Example.finditer Example.keep_order
            Example.findall_len (RegexCount (SimpleStringify " ") "the" 0)
            Example.store Example.lines_and_blank)
   ↔ Forall is_str [VStr "The (quick)"; VStr "[brown] fox jumps!"; VNull;
                    VStr "Over the"; VStr "<lazy> dog"]) ∧
  (Forall is_str [VStr "The (quick)"; VStr "[brown] fox jumps!"; VNull;
                  VStr "Over the"; VStr "<lazy> dog"] →
   AttrExpr_call Example.hash Example.finditer Example.keep_order
     Example.findall_len (RegexCount (SimpleStringify " ") "the" 0)
     Example.store Example.lines_and_blank
   = Ok ((λ v, match v with
               | VStr s => VInt (Z.of_nat (length (Example.literal_spans "the" s 0)))
               | _ => VNull
               end)
           <$> [VStr "The (quick)"; VStr "[brown] fox jumps!"; VNull;
                VStr "Over the"; VStr "<lazy> dog"])).
Proof.
  apply (RegexCount_counts_every_string Example.hash Example.finditer Example.keep_order
           Example.findall_len (SimpleStringify " ") "the" 0
           (λ s, length (Example.literal_spans "the" s 0))
           Example.store Example.lines_and_blank).
  - intros s. reflexivity.
  - vm_compute. reflexivity.
Defined.

(** ** exprs.py: ChunkOverlap *)

Lemma filter_bind_list {A B} (P : B → Prop) `{!∀ y, Decision (P y)}
    (f : A → list B) (l : list A) :
  filter P (l ≫= f) = l ≫= (λ x, filter P (f x)).
Proof.
  induction l as [|x l IH]; [done|]. by rewrite !bind_cons, filter_app, IH.
Qed.

Lemma length_bind_ext {A B C} (f : A → list B) (g : A → list C) (l : list A) :
  (∀ x, x ∈ l → length (f x) = length (g x)) → length (l ≫= f) = length (l ≫= g).
Proof.
  induction l as [|x l IH]; intros Hfg; [done|].
  rewrite !bind_cons, !length_app, (Hfg x) by apply list_elem_of_here.
  f_equal. apply IH. intros y Hy. by apply Hfg, list_elem_of_further.
Qed.

(** The [chunk_b] cells one membership row contributes to the left join of
    [ChunkOverlap]: null when no membership row of [b] names its atom. *)
Lemma overlap_cells (rs : list row) (b : Chunks) (lr : row) :
  get "chunk_b" <$>
    pl.join_row pl.Left "atom" "atom" (mkTable ["chunk"; "atom"] rs)
      (mkTable ["chunk_b"; "atom"]
         ((λ r, [("chunk_b", get "chunk" r); ("atom", get "atom" r)])
            <$> rows (chunk_atoms b))) lr
  = match filter (λ cb, pl.joins (get "atom" lr) (get "atom" cb))
            (rows (chunk_atoms b)) with
    | [] => [VNull]
    | ms => get "chunk" <$> ms
    end.
Proof.
  unfold pl.join_row, pl.matching. cbn [rows names].
  rewrite (filter_fmap (λ r : row, [("chunk_b", get "chunk" r); ("atom", get "atom" r)])
             (λ rr, pl.joins (get "atom" lr) (get "atom" rr))).
  change (filter _ (rows (chunk_atoms b)))
    with (filter (λ cb, pl.joins (get "atom" lr) (get "atom" cb)) (rows (chunk_atoms b))).
  destruct (filter _ (rows (chunk_atoms b))) as [|m ms]; [done|].
  rewrite fmap_cons. cbv iota beta.
  rewrite <-(fmap_cons (λ r : row, [("chunk_b", get "chunk" r); ("atom", get "atom" r)])).
  rewrite <-!list_fmap_compose. by apply list_fmap_ext.
Qed.

Lemma overlap_hits (rs : list row) (b : Chunks) (lr : row) :
  length (filter (λ v, v ≠ VNull)
            (get "chunk_b" <$>
               pl.join_row pl.Left "atom" "atom" (mkTable ["chunk"; "atom"] rs)
                 (mkTable ["chunk_b"; "atom"]
                    ((λ r, [("chunk_b", get "chunk" r); ("atom", get "atom" r)])
                       <$> rows (chunk_atoms b))) lr))
  = length (filter (λ cb, pl.joins (get "atom" lr) (get "atom" cb) ∧
                           get "chunk" cb ≠ VNull) (rows (chunk_atoms b))).
Proof.
  rewrite overlap_cells.
  assert (filter (λ cb, pl.joins (get "atom" lr) (get "atom" cb) ∧ get "chunk" cb ≠ VNull)
            (rows (chunk_atoms b))
          = filter (λ cb, get "chunk" cb ≠ VNull)
              (filter (λ cb, pl.joins (get "atom" lr) (get "atom" cb))
                 (rows (chunk_atoms b)))) as ->.
  { rewrite list_filter_filter. apply list_filter_iff. intros cb. tauto. }
  destruct (filter _ (rows (chunk_atoms b))) as [|m ms]; [done|].
  by rewrite (filter_fmap (get "chunk") (λ v, v ≠ VNull)), length_fmap.
Qed.

Lemma filter_idemp {A} (P : A → Prop) `{!∀ x, Decision (P x)} (l : list A) :
  filter P (filter P l) = filter P l.
Proof. rewrite list_filter_filter. apply list_filter_iff. intros x. tauto. Qed.

Lemma unique_block (blk : list value) (k : value) (rest : list value) :
  blk ≠ [] → Forall (λ v, v = k) blk →
  pl.unique (blk ++ rest) = pl.unique (k :: rest).
Proof.
  induction blk as [|v blk IH]; [done|]. intros _ [-> Hblk]%Forall_cons.
  destruct blk as [|v' blk']; [done|].
  change ((k :: v' :: blk') ++ rest) with (k :: ((v' :: blk') ++ rest)).
  cbn [pl.unique]. rewrite IH by done. cbn [pl.unique].
  rewrite filter_cons, decide_False by (intros H; by apply H).
  by rewrite filter_idemp.
Qed.

Lemma unique_bind_blocks {A} (kf : A → value) (E : A → list row) (key : row → value)
    (l : list A) :
  (∀ x, x ∈ l → E x ≠ [] ∧ Forall (λ e, key e = kf x) (E x)) →
  pl.unique (key <$> (l ≫= E)) = pl.unique (kf <$> l).
Proof.
  induction l as [|x l IH]; intros HE; [done|].
  rewrite bind_cons, fmap_app, fmap_cons.
  destruct (HE x (list_elem_of_here _ _)) as [Hne Hkey].
  rewrite (unique_block (key <$> E x) (kf x)).
  - cbn [pl.unique]. rewrite IH; [done|]. intros y Hy. by apply HE, list_elem_of_further.
  - by intros ?%fmap_nil_inv.
  - by rewrite Forall_fmap.
Qed.

Lemma overlap_agg_count (cells : list value) :
  overlap_agg "count" cells
  = Ok (VInt (Z.of_nat (length (filter (λ v, v ≠ VNull) cells)))).
Proof. reflexivity. Qed.

Lemma overlap_agg_bool (cells : list value) :
  overlap_agg "bool" cells
  = Ok (VBool (bool_decide (0 < length (filter (λ v, v ≠ VNull) cells))%nat)).
Proof. reflexivity. Qed.

Lemma overlap_agg_frac (cells : list value) :
  cells ≠ [] →
  ∃ q, overlap_agg "frac" cells = Ok (VFrac q) ∧ (0 <= q)%Q ∧ (q <= 1)%Q ∧
       ((0 < q)%Q ↔ (0 < length (filter (λ v, v ≠ VNull) cells))%nat).
Proof.
  intros Hne. destruct cells as [|v cells'] eqn:Heq; [done|]. rewrite <-Heq in *.
  assert (length (filter (λ v, v ≠ VNull) cells) ≤ length cells)%nat as Hle
    by apply length_filter.
  assert (0 < length cells)%nat as Hpos by (rewrite Heq; simpl; lia).
  exists (Qmake (Z.of_nat (length (filter (λ v, v ≠ VNull) cells)))
            (Pos.of_nat (length cells))).
  split; [by rewrite Heq|].
  assert (Z.pos (Pos.of_nat (length cells)) = Z.of_nat (length cells)) as Hden.
  { rewrite <-positive_nat_Z, Nat2Pos.id by lia. done. }
  unfold Qle, Qlt. cbn [Qnum Qden]. rewrite Hden. repeat split; lia.
Qed.

Section ChunkOverlap_frames.

Variable hash : list value → value.
Variable re_finditer : string → string → result (list (Z * Z)).
Variable reorder : ∀ A : Type, list A → list A.

Variables (h : heap) (c : Chunks) (corp : Corpus) (bn : string) (b : Chunks).

Hypothesis Hcorp : h !! corpus c = Some corp.
Hypothesis Hb : registry corp !! bn = Some b.
Hypothesis Hschema : names (chunk_atoms c) = ["chunk"; "atom"].
Hypothesis Hchunk : "chunk" ∈ names (chunk_atoms b).
Hypothesis Hatom : "atom" ∈ names (chunk_atoms b).

Lemma ChunkOverlap_call_groups (agg : string) :
  ChunkOverlap_call hash re_finditer reorder (ByName bn) agg h c
  = mapM_result (λ g, overlap_agg agg (get "chunk_b" <$> g.2))
      (pl.group_by (get "chunk")
         (rows (chunk_atoms c)
            ≫= pl.join_row pl.Left "atom" "atom"
                 (mkTable ["chunk"; "atom"] (rows (chunk_atoms c)))
                 (mkTable ["chunk_b"; "atom"]
                    ((λ r, [("chunk_b", get "chunk" r); ("atom", get "atom" r)])
                       <$> rows (chunk_atoms b))))).
Proof.
  unfold ChunkOverlap_call. cbn [Corpus_chunk].
  rewrite (deref_Ok _ _ _ Hcorp). cbn [mbind result_bind].
  rewrite (proj2 (registry_lookup_Ok _ _ _) Hb). cbn [mbind result_bind].
  rewrite pl_select_Ok by (repeat constructor; done). cbn [mbind result_bind].
  destruct (chunk_atoms c) as [ns rs]. cbn [names rows] in *. subst ns.
  reflexivity.
Qed.

Lemma overlap_groups :
  pl.group_by (get "chunk")
    (rows (chunk_atoms c)
       ≫= pl.join_row pl.Left "atom" "atom"
            (mkTable ["chunk"; "atom"] (rows (chunk_atoms c)))
            (mkTable ["chunk_b"; "atom"]
               ((λ r, [("chunk_b", get "chunk" r); ("atom", get "atom" r)])
                  <$> rows (chunk_atoms b))))
  = (λ k, (k, filter (λ ca, get "chunk" ca = k) (rows (chunk_atoms c))
                ≫= pl.join_row pl.Left "atom" "atom"
                     (mkTable ["chunk"; "atom"] (rows (chunk_atoms c)))
                     (mkTable ["chunk_b"; "atom"]
                        ((λ r, [("chunk_b", get "chunk" r); ("atom", get "atom" r)])
                           <$> rows (chunk_atoms b)))))
      <$> pl.unique (get "chunk" <$> rows (chunk_atoms c)).
Proof.
  set (E := pl.join_row pl.Left "atom" "atom"
              (mkTable ["chunk"; "atom"] (rows (chunk_atoms c)))
              (mkTable ["chunk_b"; "atom"]
                 ((λ r, [("chunk_b", get "chunk" r); ("atom", get "atom" r)])
                    <$> rows (chunk_atoms b)))).
  assert (∀ lr, E lr ≠ [] ∧ Forall (λ e, get "chunk" e = get "chunk" lr) (E lr)) as HE.
  { intros lr. unfold E, pl.join_row. cbn [names rows].
    destruct (pl.matching _ _ _ lr) as [|m ms].
    - split; [done|]. by repeat constructor.
    - split; [done|]. rewrite Forall_fmap. apply Forall_forall. by intros rr _. }
  unfold pl.group_by.
  rewrite (unique_bind_blocks (get "chunk") E (get "chunk")) by (intros x _; apply HE).
  apply list_fmap_ext. intros _ k _. f_equal.
  apply (filter_bind_key (get "chunk") (get "chunk")).
  intros r e He. destruct (HE r) as [_ Hkey]. rewrite Forall_forall in Hkey. by apply Hkey.
Qed.

Lemma overlap_group_hits (k : value) :
  length (filter (λ v, v ≠ VNull)
            (get "chunk_b" <$>
               (filter (λ ca, get "chunk" ca = k) (rows (chunk_atoms c))
                  ≫= pl.join_row pl.Left "atom" "atom"
                       (mkTable ["chunk"; "atom"] (rows (chunk_atoms c)))
                       (mkTable ["chunk_b"; "atom"]
                          ((λ r, [("chunk_b", get "chunk" r); ("atom", get "atom" r)])
                             <$> rows (chunk_atoms b))))))
  = length (shared_pairs c b k).
Proof.
  rewrite fmap_bind_list, filter_bind_list. unfold shared_pairs.
  apply length_bind_ext. intros lr _. by rewrite overlap_hits, length_fmap.
Qed.

End ChunkOverlap_frames.

Lemma overlap_group_nonempty (c b : Chunks) (k : value) :
  k ∈ get "chunk" <$> rows (chunk_atoms c) →
  get "chunk_b" <$>
    (filter (λ ca, get "chunk" ca = k) (rows (chunk_atoms c))
       ≫= pl.join_row pl.Left "atom" "atom"
            (mkTable ["chunk"; "atom"] (rows (chunk_atoms c)))
            (mkTable ["chunk_b"; "atom"]
               ((λ r, [("chunk_b", get "chunk" r); ("atom", get "atom" r)])
                  <$> rows (chunk_atoms b)))) ≠ [].
Proof.
  intros (ca & Hk & Hca)%list_elem_of_fmap Hnil%fmap_nil_inv.
  assert (ca ∈ filter (λ ca, get "chunk" ca = k) (rows (chunk_atoms c))) as Hin
    by by apply list_elem_of_filter.
  destruct (filter _ (rows (chunk_atoms c))) as [|r rs]; [by apply elem_of_nil in Hin|].
  rewrite bind_cons in Hnil. apply app_eq_nil in Hnil as [Hnil _].
  unfold pl.join_row in Hnil. by destruct (pl.matching _ _ _ r).
Qed.

(** X19.  [ChunkOverlap] against a registered chunk collection [b] returns
    one value per chunk id of the membership table, in the order in which
    the ids first appear there.  With [agg="count"] the value is the number
    of pairs of a membership row of the chunk and a membership row of [b]
    that name the same atom, so an atom that lies in two chunks of [b] counts
    twice; with [agg="bool"] it tells whether there is such a pair; with
    [agg="frac"] it is a fraction between 0 and 1 that is positive exactly
    when there is such a pair. *)
Theorem ChunkOverlap_counts_shared_pairs
    (hash : list value → value)
    (re_finditer : string → string → result (list (Z * Z)))
    (reorder : ∀ A : Type, list A → list A)
    (h : heap) (c : Chunks) (corp : Corpus) (bn : string) (b : Chunks) :
  h !! corpus c = Some corp →
  registry corp !! bn = Some b →
  names (chunk_atoms c) = ["chunk"; "atom"] →
  "chunk" ∈ names (chunk_atoms b) →
  "atom" ∈ names (chunk_atoms b) →
  ChunkOverlap_call hash re_finditer reorder (ByName bn) "count" h c
  = Ok ((λ k, VInt (Z.of_nat (length (shared_pairs c b k))))
          <$> pl.unique (get "chunk" <$> rows (chunk_atoms c))) ∧
  ChunkOverlap_call hash re_finditer reorder (ByName bn) "bool" h c
  = Ok ((λ k, VBool (bool_decide (shared_pairs c b k ≠ [])))
          <$> pl.unique (get "chunk" <$> rows (chunk_atoms c))) ∧
  ∃ fracs,
    ChunkOverlap_call hash re_finditer reorder (ByName bn) "frac" h c = Ok fracs ∧
    Forall2 (λ k f, ∃ q, f = VFrac q ∧ (0 <= q)%Q ∧ (q <= 1)%Q ∧
                         ((0 < q)%Q ↔ shared_pairs c b k ≠ []))
      (pl.unique (get "chunk" <$> rows (chunk_atoms c))) fracs.
Proof.
  intros Hcorp Hb Hschema Hchunk Hatom.
  pose proof (ChunkOverlap_call_groups hash re_finditer reorder h c corp bn b
                Hcorp Hb Hschema Hchunk Hatom) as Hcall.
  pose proof (overlap_group_hits c b) as Hhits.
  assert (∀ k, shared_pairs c b k ≠ [] ↔ (0 < length (shared_pairs c b k))%nat) as Hne.
  { intros k. destruct (shared_pairs c b k); simpl; split; try done; lia. }
  rewrite !Hcall, (overlap_groups c b). clear Hcall.
  split; [|split].
  - rewrite (mapM_result_total _ (λ g, VInt (Z.of_nat (length
               (filter (λ v, v ≠ VNull) (get "chunk_b" <$> g.2)))))).
    + f_equal. rewrite <-list_fmap_compose. apply list_fmap_ext.
      intros _ k _. cbn [compose snd]. by rewrite Hhits.
    + apply Forall_forall. intros g _. apply overlap_agg_count.
  - rewrite (mapM_result_total _ (λ g, VBool (bool_decide
               (0 < length (filter (λ v, v ≠ VNull) (get "chunk_b" <$> g.2)))%nat))).
    + f_equal. rewrite <-list_fmap_compose. apply list_fmap_ext.
      intros _ k _. cbn [compose snd]. rewrite Hhits. f_equal.
      apply bool_decide_ext. by rewrite Hne.
    + apply Forall_forall. intros g _. apply overlap_agg_bool.
  - assert (Forall (λ k, k ∈ get "chunk" <$> rows (chunk_atoms c))
              (pl.unique (get "chunk" <$> rows (chunk_atoms c)))) as Hids.
    { apply Forall_forall. intros k. apply elem_of_unique. }
    revert Hids. generalize (pl.unique (get "chunk" <$> rows (chunk_atoms c))).
    intros ids Hids. induction Hids as [|k ids Hk _ (fracs & Hfracs & Hall)].
    { exists []. split; [done|constructor]. }
    rewrite fmap_cons. cbn [mapM_result snd].
    destruct (overlap_agg_frac _ (overlap_group_nonempty c b k Hk))
      as (q & Hq & Hq0 & Hq1 & Hpos).
    rewrite Hq, Hfracs. cbn [mbind result_bind]. eexists. split; [done|].
    constructor; [|exact Hall]. exists q. repeat split; try done.
    + intros H0. apply Hne. rewrite <-Hhits. by apply Hpos.
    + intros H0. apply Hpos. rewrite Hhits. by apply Hne.
Qed.

Lemma ChunkOverlap_counts_shared_pairs_witness :
  ChunkOverlap_call Example.hash Example.finditer Example.keep_order
    (ByName "paragraph") "count" Example.store Example.line
  = Ok ((λ k, VInt (Z.of_nat (length (shared_pairs Example.line Example.paragraph k))))
          <$> pl.unique (get "chunk" <$> rows (chunk_atoms Example.line))) ∧
  ChunkOverlap_call Example.hash Example.finditer Example.keep_order
    (ByName "paragraph") "bool" Example.store Example.line
  = Ok ((λ k, VBool (bool_decide (shared_pairs Example.line Example.paragraph k ≠ [])))
          <$> pl.unique (get "chunk" <$> rows (chunk_atoms Example.line))) ∧
  ∃ fracs,
    ChunkOverlap_call Example.hash Example.finditer Example.keep_order
      (ByName "paragraph") "frac" Example.store Example.line = Ok fracs ∧
    Forall2 (λ k f, ∃ q, f = VFrac q ∧ (0 <= q)%Q ∧ (q <= 1)%Q ∧
                         ((0 < q)%Q ↔ shared_pairs Example.line Example.paragraph k ≠ []))
      (pl.unique (get "chunk" <$> rows (chunk_atoms Example.line))) fracs.
Proof.
  apply (ChunkOverlap_counts_shared_pairs Example.hash Example.finditer
           Example.keep_order Example.store Example.line Example.corpus_
           "paragraph" Example.paragraph).
  - reflexivity.
  - reflexivity.
  - reflexivity.
  - by_evaluation.
  - by_evaluation.
Defined.

(** ** exprs.py: AtomData *)


Section AtomData_frames.

Variable c : Chunks.
Variable corp : Corpus.
Hypothesis Hchunk_id : "id" ∈ names (chunks c).
Hypothesis Hmembers : names (chunk_atoms c) = ["chunk"; "atom"].
Hypothesis Hid : "id" ∈ names (atoms corp).
Hypothesis Hnochunk : "chunk" ∉ names (atoms corp).
Hypothesis Hnoatom : "atom" ∉ names (atoms corp).







End AtomData_frames.



(** ** core.py: [Chunks.filter] on a chain *)

Lemma ChunkFilter_call_attr
    (cast_kernel : string → list value → list value → result (list (option bool)))
    (select_k_impl : list value → nat → pc.sort_order → list nat)
    (f : ChunkFilter) (c c' : Chunks) :
  ChunkFilter_call cast_kernel select_k_impl f c = Ok c' → filter_attr f ∈ names (chunks c).
Proof.
  destruct f as [attr k reverse|attr direction v|attr vs];
    cbn [ChunkFilter_call filter_attr];
    unfold TopK_call, Threshold_call, EqualTo_call, pa.column;
    (destruct (has_column attr (chunks c)) eqn:Hcol;
     [intros _; by apply has_column_true | done]).
Qed.

(** X21.  A chain of filters that returns has found the attribute of every
    one of its filters among the columns of the chunk table it was given, and
    what it returns has these same columns, the same membership table and the
    same corpus.  So a chain that names a column the chunks do not carry never
    returns chunks, wherever in the chain the filter stands. *)
Theorem Chunks_filter_reads_only_given_columns
    (cast_kernel : string → list value → list value → result (list (option bool)))
    (select_k_impl : list value → nat → pc.sort_order → list nat)
    (fs : list ChunkFilter) (c c' : Chunks) :
  Chunks_filter cast_kernel select_k_impl fs c = Ok c' →
  Forall (λ f, filter_attr f ∈ names (chunks c)) fs ∧
  names (chunks c') = names (chunks c) ∧
  chunk_atoms c' = chunk_atoms c ∧
  corpus c' = corpus c.
Proof.
  revert c. induction fs as [|f fs IH]; intros c; cbn [Chunks_filter].
  - intros [= <-]. by split; [constructor|].
  - intros (c1 & Hf & Hfs)%bind_Ok.
    pose proof (ChunkFilter_call_attr _ _ _ _ _ Hf) as Hattr.
    apply ChunkFilter_call_Ok in Hf as (Hcorpus & Hatoms & Hnames & _).
    destruct (IH c1 Hfs) as (Hall & Hnames' & Hatoms' & Hcorpus').
    repeat split; [|congruence..].
    constructor; [done|]. by rewrite <-Hnames.
Qed.

Lemma Chunks_filter_reads_only_given_columns_witness :
  ∃ c',
    Chunks_filter Example.cast_kernel Example.select_k
      [Threshold "ordinal" "<=" (VInt 3); TopK "width" 2 false;
       EqualTo "id" [VInt 1; VInt 3]] Example.line = Ok c' ∧
    Forall (λ f, filter_attr f ∈ names (chunks Example.line))
      [Threshold "ordinal" "<=" (VInt 3); TopK "width" 2 false;
       EqualTo "id" [VInt 1; VInt 3]] ∧
    names (chunks c') = names (chunks Example.line) ∧
    chunk_atoms c' = chunk_atoms Example.line ∧
    corpus c' = corpus Example.line.
Proof.
  eexists. split; [vm_compute; reflexivity|].
  apply (Chunks_filter_reads_only_given_columns Example.cast_kernel Example.select_k).
  vm_compute. reflexivity.
Defined.
